(** * Heading classification and tree reconstruction of pdf_converter

    Shallow embedding of the element-classification pipeline of
    [src/pdf_converter/parsers/docling_parser.py] (numbering classifier,
    structural-marker detection, numbered-element promotion, heading level
    resolution, list grouping and the heading tree builder) together with
    the IR block types of [src/pdf_converter/ir/schema.py].

    Python [str] values are modelled as ASCII strings ([String.string],
    converted to [list ascii] for pattern matching); the character classes
    below are the ASCII restrictions of Python's Unicode classes. *)

From Stdlib Require Import String Ascii List Bool ZArith QArith Lia.
From Stdlib Require Import QArith.Qminmax.
Import ListNotations.
Open Scope list_scope.
Open Scope nat_scope.
Set Warnings "-register-all".

(* ------------------------------------------------------------------ *)
(** ** Characters *)

Definition code (c : ascii) : nat := nat_of_ascii c.

(** [\d] *)
Definition is_digit (c : ascii) : bool :=
  (48 <=? code c) && (code c <=? 57).

(** [A-Z] *)
Definition is_upper (c : ascii) : bool :=
  (65 <=? code c) && (code c <=? 90).

(** [a-z] *)
Definition is_lower (c : ascii) : bool :=
  (97 <=? code c) && (code c <=? 122).

(** [\s] and [str.isspace]: on ASCII both are
    \t \n \v \f \r, the separators \x1c-\x1f, and the space. *)
Definition is_space (c : ascii) : bool :=
  ((9 <=? code c) && (code c <=? 13))
  || ((28 <=? code c) && (code c <=? 32)).

(** [\w] *)
Definition is_word (c : ascii) : bool :=
  is_digit c || is_upper c || is_lower c || (code c =? 95).

Definition to_lower (c : ascii) : ascii :=
  if is_upper c then ascii_of_nat (code c + 32) else c.

(** A literal character under [re.IGNORECASE]. *)
Definition ci_char (l : ascii) (c : ascii) : bool :=
  Ascii.eqb (to_lower l) (to_lower c).

Definition lit_char (l : ascii) (c : ascii) : bool := Ascii.eqb l c.

(* ------------------------------------------------------------------ *)
(** ** A backtracking matcher for the patterns of the module

    [rmatch r st] lists, in Python's backtracking priority order, the
    states reached after matching [r] from [st]. A state is the previous
    character (needed by [\b]) and the remaining input. Greedy repetition
    tries one more iteration before stopping; an iteration that consumes
    nothing is cut, which is immaterial here since no repeated
    sub-pattern of the module can match the empty string. *)

Definition mstate : Type := (option ascii * list ascii)%type.

Inductive re : Type :=
| RChar (p : ascii -> bool)   (* one character of a class *)
| RSeq (r1 r2 : re)
| RAlt (r1 r2 : re)           (* r1|r2, r1 tried first *)
| RStar (r : re)              (* greedy r* *)
| REps
| RBound                      (* \b *)
| REnd.                       (* $ *)

Definition ROpt (r : re) : re := RAlt r REps.
Definition RPlus (r : re) : re := RSeq r (RStar r).

Fixpoint RRep (n : nat) (r : re) : re :=
  match n with 0 => REps | S n' => RSeq r (RRep n' r) end.

(** A keyword matched under [re.IGNORECASE]. *)
Fixpoint RWordCI (w : list ascii) : re :=
  match w with [] => REps | c :: w' => RSeq (RChar (ci_char c)) (RWordCI w') end.

Definition word_opt (c : option ascii) : bool :=
  match c with Some c => is_word c | None => false end.

Fixpoint star_go (f : mstate -> list mstate) (fuel : nat) (st : mstate)
  : list mstate :=
  match fuel with
  | 0 => [st]
  | S fuel' =>
      flat_map (fun st1 => if length (snd st1) <? length (snd st)
                           then star_go f fuel' st1 else []) (f st)
      ++ [st]
  end.

Fixpoint rmatch (r : re) (st : mstate) : list mstate :=
  match r with
  | RChar p =>
      match snd st with
      | c :: t => if p c then [(Some c, t)] else []
      | [] => []
      end
  | RSeq r1 r2 => flat_map (rmatch r2) (rmatch r1 st)
  | RAlt r1 r2 => rmatch r1 st ++ rmatch r2 st
  | RStar r1 => star_go (rmatch r1) (length (snd st)) st
  | REps => [st]
  | RBound =>
      if Bool.eqb (word_opt (fst st)) (word_opt (hd_error (snd st)))
      then [] else [st]
  | REnd =>
      match snd st with
      | [] => [st]
      | [c] => if Ascii.eqb c "010"%char then [st] else []
      | _ => []
      end
  end.

Definition nonempty {A} (l : list A) : bool :=
  match l with [] => false | _ => true end.

(** [re.match(pattern, s)] is not [None]. *)
Definition re_match (r : re) (s : list ascii) : bool :=
  nonempty (rmatch r (None, s)).

(** [re.match(pre (g) post, s).group(1)]: the text consumed by [g] in the
    first successful match. *)
Definition rgroup (pre g post : re) (s : list ascii) : option (list ascii) :=
  let cands := flat_map (fun st0 => map (pair st0) (rmatch g st0))
                        (rmatch pre (None, s)) in
  match find (fun p => nonempty (rmatch post (snd p))) cands with
  | Some (st0, st1) =>
      Some (firstn (length (snd st0) - length (snd st1)) (snd st0))
  | None => None
  end.

(* ------------------------------------------------------------------ *)
(** ** Python string helpers *)

Fixpoint lstrip (s : list ascii) : list ascii :=
  match s with
  | c :: t => if is_space c then lstrip t else s
  | [] => []
  end.

(** [str.strip()] *)
Definition py_strip (s : list ascii) : list ascii :=
  rev (lstrip (rev (lstrip s))).

(** [str.split(sep)] for a one-character separator. *)
Fixpoint py_split (sep : ascii) (s : list ascii) : list (list ascii) :=
  match s with
  | [] => [[]]
  | c :: t =>
      if Ascii.eqb c sep then [] :: py_split sep t
      else match py_split sep t with
           | w :: ws => (c :: w) :: ws
           | [] => [[c]]
           end
  end.

Definition chars (s : string) : list ascii := list_ascii_of_string s.

(** Decimal rendering of a non-negative [int], as in f-strings. *)
Fixpoint digits_of_nat (fuel n : nat) (acc : string) : string :=
  match fuel with
  | 0 => acc
  | S fuel' =>
      let acc' := String (ascii_of_nat (48 + n mod 10)) acc in
      if n <? 10 then acc' else digits_of_nat fuel' (n / 10) acc'
  end.

Definition str_nat (n : nat) : string := digits_of_nat (S n) n EmptyString.

Definition str_Z (z : Z) : string :=
  if (z <? 0)%Z then String "-" (str_nat (Z.to_nat (- z)))
  else str_nat (Z.to_nat z).

(* ------------------------------------------------------------------ *)
(** ** Character classes used by the patterns *)

Definition d : re := RChar is_digit.
Definition dot : re := RChar (lit_char ".").
Definition sp : re := RChar is_space.
Definition nsp : re := RChar (fun c => negb (is_space c)).
Definition up : re := RChar is_upper.
Definition low : re := RChar is_lower.

(** [\d+(?:\.\d+)+] and [\d+(?:\.\d+)*] *)
Definition num_multi : re := RSeq (RPlus d) (RPlus (RSeq dot (RPlus d))).
Definition num_any : re := RSeq (RPlus d) (RStar (RSeq dot (RPlus d))).

(* ------------------------------------------------------------------ *)
(** ** Numbering classifier: [_level_from_numbering] *)

(** [^(\d+(?:\.\d+)+)\.?\s*$] *)
Definition bare_post : re := RSeq (ROpt dot) (RSeq (RStar sp) REnd).
(** [^(\d+(?:\.\d+){0,})(\.?\s+\S)], the star written as {0,} *)
Definition numbered_post : re := RSeq (ROpt dot) (RSeq (RPlus sp) nsp).
(** [^\d+\.\s] *)
Definition re_num_dot_space : re := RSeq (RPlus d) (RSeq dot sp).
(** [^\d+\.\d] *)
Definition re_num_dot_digit : re := RSeq (RPlus d) (RSeq dot d).
(** [^\d+\s+[A-Z]{2}] *)
Definition re_num_caps : re := RSeq (RPlus d) (RSeq (RPlus sp) (RRep 2 up)).
(** [^\d\s+[A-Z][a-z]{4,}] *)
Definition re_digit_capword : re :=
  RSeq d (RSeq (RPlus sp) (RSeq up (RSeq (RRep 4 low) (RStar low)))).
(** [^[A-Z]\.(\d+(?:\.\d+){0,})\s], the star written as {0,} *)
Definition letter_pre : re := RSeq up dot.

Definition level_from_numbering (text : string) : option Z :=
  let s := chars text in
  match rgroup REps num_multi bare_post (py_strip s) with
  | Some g => Some (Z.min (Z.of_nat (length (py_split "." g))) 9)
  | None =>
    match rgroup REps num_any numbered_post s with
    | Some g =>
        let parts := length (py_split "." g) in
        if (parts =? 1)
           && negb (re_match re_num_dot_space s)
           && negb (re_match re_num_dot_digit s)
           && negb (re_match re_num_caps s)
           && negb (re_match re_digit_capword s)
        then None
        else Some (Z.min (Z.of_nat parts) 9)
    | None =>
      match rgroup letter_pre num_any sp s with
      | Some g => Some (Z.min (Z.of_nat (length (py_split "." g)) + 1) 9)
      | None => None
      end
    end
  end.

(* ------------------------------------------------------------------ *)
(** ** Structural markers *)

(** [(?:[IVXLCDM]+|\d+)] under [re.IGNORECASE] *)
Definition is_roman_ci (c : ascii) : bool :=
  existsb (fun l => ci_char l c) ["I"; "V"; "X"; "L"; "C"; "D"; "M"]%char.

(** [_STRUCTURAL_MARKER_RE]:
    [^(?:PART|CHAPTER)\s+(?:[IVXLCDM]+|\d+)\b], IGNORECASE *)
Definition structural_marker_re : re :=
  RSeq (RAlt (RWordCI (chars "PART")) (RWordCI (chars "CHAPTER")))
   (RSeq (RPlus sp)
    (RSeq (RAlt (RPlus (RChar is_roman_ci)) (RPlus d)) RBound)).

(** [_LEVEL1_STRUCTURAL_RE]: [[A-Z]] under IGNORECASE is any letter. *)
Definition level1_structural_re : re :=
  RSeq (RAlt (RWordCI (chars "PART"))
        (RAlt (RWordCI (chars "CHAPTER"))
         (RAlt (RWordCI (chars "APPENDIX"))
          (RAlt (RWordCI (chars "EXHIBIT")) (RWordCI (chars "ANNEX"))))))
   (RSeq (RPlus sp)
    (RSeq (RAlt (RPlus (RChar is_roman_ci))
           (RAlt (RChar (fun c => is_upper c || is_lower c)) (RPlus d)))
     RBound)).

Definition is_structural_marker (text : string) : bool :=
  re_match structural_marker_re (py_strip (chars text)).

Definition is_level1_structural (text : string) : bool :=
  re_match level1_structural_re (py_strip (chars text)).

(* ------------------------------------------------------------------ *)
(** ** The IR blocks of [ir/schema.py]

    Python floats (confidence scores, figure sizes) are modelled as [Q];
    the classifier only compares them with literals and takes [min]/[max],
    so the choice between two operands is the same. The random [id] field
    of each block ([_make_id], a fresh uuid) is left out: no rule reads it. *)

Record text_run := mk_text_run {
  tr_text : string; tr_bold : bool; tr_italic : bool; tr_underline : bool;
  tr_strikethrough : bool; tr_superscript : bool; tr_subscript : bool;
  tr_highlight : option string }.

Inductive list_item : Type :=
| ListItem (li_text : string) (li_runs : list text_run)
           (li_children : list list_item).

Record table_cell := mk_table_cell {
  c_row : Z; c_col : Z; c_row_span : Z; c_col_span : Z;
  c_text : string; c_runs : list text_run }.

Record heading := mk_heading {
  h_page : option Z; h_level : Z; h_text : string; h_runs : list text_run;
  h_confidence : Q; h_reason : option string }.

Record paragraph := mk_paragraph {
  p_page : option Z; p_text : string; p_runs : list text_run }.

Inductive list_style := Ordered | Unordered.

Record list_block := mk_list_block {
  l_page : option Z; l_style : list_style; l_marker_format : option string;
  l_items : list list_item }.

Record table := mk_table {
  t_page : option Z; t_num_rows : Z; t_num_cols : Z; t_cells : list table_cell }.

Record figure := mk_figure {
  f_page : option Z; f_image_path : option string;
  f_image_base64 : option string; f_caption : string;
  f_width_inches : option Q; f_height_inches : option Q }.

(** [_PendingListItem] *)
Record pending_item := mk_pending_item {
  pi_text : string; pi_runs : list text_run; pi_page : option Z;
  pi_enumerated : bool; pi_marker : string; pi_nesting_depth : Z }.

(** The element sequence: IR blocks ([HeadingBlock] with its [children])
    and the parser's pending list items. *)
Inductive block : Type :=
| HeadingB (h : heading) (children : list block)
| ParagraphB (p : paragraph)
| ListB (l : list_block)
| TableB (t : table)
| FigureB (f : figure)
| PageBreakB (page : option Z)
| PendingB (p : pending_item).

(** Python's [max(a, b)] and [min(a, b)] keep [a] unless [b] is
    strictly better. *)
Definition py_max (a b : Q) : Q := if Qle_bool b a then a else b.
Definition py_min (a b : Q) : Q := if Qle_bool a b then a else b.

(* ------------------------------------------------------------------ *)
(** ** Numbered-element promotion *)

(** [_MULTI_LEVEL_NUMBER_RE = ^(\d+(?:\.\d+)+)\.?\s+\S]; the number of
    segments of its group, when it matches. *)
Definition multi_level_parts (text : string) : option nat :=
  match rgroup REps num_multi numbered_post (chars text) with
  | Some g => Some (length (py_split "." g))
  | None => None
  end.

Definition promoted_heading (page : option Z) (text : string)
    (runs : list text_run) (conf : Q) (reason : string) : block :=
  HeadingB (mk_heading page 2%Z text runs conf (Some reason)) [].

(** One iteration of the loop of [_promote_numbered_paragraphs]. *)
Definition promote_numbered_paragraph (el : block) : block :=
  match el with
  | ParagraphB p =>
      match multi_level_parts (p_text p) with
      | Some parts_count =>
          if 3 <=? parts_count then
            promoted_heading (p_page p) (p_text p) (p_runs p) (90 # 100)
              ("promoted:multi_level_" ++ str_nat parts_count ++ "_parts")
          else if String.length (p_text p) <? 120 then
            promoted_heading (p_page p) (p_text p) (p_runs p) (70 # 100)
              ("promoted:two_level_" ++ str_nat (String.length (p_text p))
               ++ "_chars")
          else el
      | None => el
      end
  | _ => el
  end.

Definition promote_numbered_paragraphs (elements : list block) : list block :=
  map promote_numbered_paragraph elements.

(** One iteration of the loop of [_promote_numbered_list_items]. *)
Definition promote_numbered_list_item (el : block) : block :=
  match el with
  | PendingB p =>
      match multi_level_parts (pi_text p) with
      | Some parts_count =>
          if 3 <=? parts_count then
            promoted_heading (pi_page p) (pi_text p) (pi_runs p) (85 # 100)
              ("promoted_list_item:multi_level_" ++ str_nat parts_count
               ++ "_parts")
          else if String.length (pi_text p) <? 120 then
            promoted_heading (pi_page p) (pi_text p) (pi_runs p) (65 # 100)
              ("promoted_list_item:two_level_"
               ++ str_nat (String.length (pi_text p)) ++ "_chars")
          else el
      | None => el
      end
  | _ => el
  end.

Definition promote_numbered_list_items (elements : list block) : list block :=
  map promote_numbered_list_item elements.

(* ------------------------------------------------------------------ *)
(** ** Heading level resolution: [_resolve_heading_levels]

    The Python function mutates the headings in place and returns [None];
    the model returns the sequence after the pass. *)

Record resolve_state := mk_resolve_state {
  first_heading_seen : bool; last_level : Z }.

(** The body of the loop for one heading. *)
Definition resolve_heading (level_offset : Z) (st : resolve_state)
    (h : heading) : heading * resolve_state :=
  let '(lvl, conf, level_reason) :=
    if is_level1_structural (h_text h) then
      (1%Z, py_max (h_confidence h) (95 # 100), "structural_marker"%string)
    else
      match level_from_numbering (h_text h) with
      | Some num_level =>
          (Z.min (num_level + level_offset) 9, h_confidence h,
           ("numbering:" ++ str_Z num_level ++ "+offset_"
            ++ str_Z level_offset)%string)
      | None =>
          if negb (first_heading_seen st) then
            (1%Z, py_min (h_confidence h) (80 # 100),
             "first_heading_as_title"%string)
          else
            (last_level st, py_min (h_confidence h) (50 # 100),
             ("inherited_" ++ str_Z (last_level st))%string)
      end in
  let reason :=
    match h_reason h with
    | Some r => if String.eqb r "" then ("level:" ++ level_reason)%string
                else (r ++ "; level:" ++ level_reason)%string
    | None => ("level:" ++ level_reason)%string
    end in
  (mk_heading (h_page h) lvl (h_text h) (h_runs h) conf (Some reason),
   mk_resolve_state true lvl).

Fixpoint resolve_loop (level_offset : Z) (st : resolve_state)
    (elements : list block) : list block :=
  match elements with
  | [] => []
  | HeadingB h ch :: rest =>
      let '(h', st') := resolve_heading level_offset st h in
      HeadingB h' ch :: resolve_loop level_offset st' rest
  | el :: rest => el :: resolve_loop level_offset st rest
  end.

Definition resolve_heading_levels (elements : list block) (has_parts : bool)
  : list block :=
  resolve_loop (if has_parts then 1%Z else 0%Z)
    (mk_resolve_state false 2%Z) elements.

(* ------------------------------------------------------------------ *)
(** ** List grouping: [_detect_marker_format], [_nest_list_items],
    [_group_list_items] *)

(** [i{1,3}|iv|vi{0,3}|ix|x] followed by [[.)]], under IGNORECASE. *)
Definition ci (c : ascii) : re := RChar (ci_char c).
Definition dot_or_paren : re :=
  RChar (fun c => lit_char "." c || lit_char ")" c).
Definition lower_roman_re : re :=
  RSeq (RAlt (RSeq (ci "i") (ROpt (RSeq (ci "i") (ROpt (ci "i")))))
        (RAlt (RSeq (ci "i") (ci "v"))
         (RAlt (RSeq (ci "v")
                 (ROpt (RSeq (ci "i") (ROpt (RSeq (ci "i") (ROpt (ci "i")))))))
          (RAlt (RSeq (ci "i") (ci "x")) (ci "x")))))
   dot_or_paren.
(** [^[a-z][.)]] and [^[A-Z][.)]] *)
Definition lower_letter_re : re := RSeq low dot_or_paren.
Definition upper_letter_re : re := RSeq up dot_or_paren.

Fixpoint detect_marker_loop (items : list pending_item) : option string :=
  match items with
  | [] => None
  | item :: rest =>
      match py_strip (chars (pi_marker item)) with
      | [] => detect_marker_loop rest
      | c :: _ as m =>
          if re_match lower_roman_re m && is_lower c then Some "lowerRoman"%string
          else if re_match lower_letter_re m then Some "lowerLetter"%string
          else if re_match lower_roman_re m && is_upper c then Some "upperRoman"%string
          else if re_match upper_letter_re m then Some "upperLetter"%string
          else None
      end
  end.

Definition detect_marker_format (items : list pending_item) : option string :=
  detect_marker_loop (firstn 3 items).

(** The stack of [_nest_list_items]. In Python each new [ListItem] is
    appended to its parent (or to [root_items]) as soon as it is read,
    and later items are appended to it through the stack reference. Only
    the stack top ever receives children, so a parent receives nothing
    between the push of a child and its pop: attaching the finished child
    when its frame is popped gives the same tree. A frame holds a stacked
    item with the children received so far. *)
Record li_frame := mk_li_frame {
  lf_depth : Z; lf_text : string; lf_runs : list text_run;
  lf_children : list list_item }.

Definition close_li (f : li_frame) : list_item :=
  ListItem (lf_text f) (lf_runs f) (lf_children f).

Definition li_add_child (f : li_frame) (li : list_item) : li_frame :=
  mk_li_frame (lf_depth f) (lf_text f) (lf_runs f) (lf_children f ++ [li]).

(** [while stack and stack[-1][0] >= depth: stack.pop()], the top being
    [f] and the rest of the stack [s]. *)
Fixpoint li_pop (depth : Z) (f : li_frame) (s : list li_frame)
    (root : list list_item) : list li_frame * list list_item :=
  if (depth <=? lf_depth f)%Z then
    match s with
    | [] => ([], root ++ [close_li f])
    | g :: s' => li_pop depth (li_add_child g (close_li f)) s' root
    end
  else (f :: s, root).

(** The end of the loop: every frame still stacked is complete. *)
Fixpoint li_unwind (f : li_frame) (s : list li_frame)
    (root : list list_item) : list list_item :=
  match s with
  | [] => root ++ [close_li f]
  | g :: s' => li_unwind (li_add_child g (close_li f)) s' root
  end.

Fixpoint nest_loop (base_depth : Z) (stack : list li_frame)
    (root : list list_item) (pending : list pending_item) : list list_item :=
  match pending with
  | [] =>
      match stack with
      | [] => root
      | f :: s => li_unwind f s root
      end
  | p :: rest =>
      let depth := (pi_nesting_depth p - base_depth)%Z in
      let '(stack', root') :=
        match stack with
        | [] => ([], root)
        | f :: s => li_pop depth f s root
        end in
      nest_loop base_depth (mk_li_frame depth (pi_text p) (pi_runs p) [] :: stack')
        root' rest
  end.

Definition nest_list_items (pending : list pending_item) : list list_item :=
  match pending with
  | [] => []
  | p0 :: _ => nest_loop (pi_nesting_depth p0) [] [] pending
  end.

(** [flush_pending] *)
Definition flush_pending (result : list block) (pending : list pending_item)
  : list block :=
  match pending with
  | [] => result
  | p0 :: _ =>
      let ordered := pi_enumerated p0 in
      result ++ [ListB (mk_list_block (pi_page p0)
                          (if ordered then Ordered else Unordered)
                          (if ordered then detect_marker_format pending else None)
                          (nest_list_items pending))]
  end.

Fixpoint group_loop (result : list block) (pending : list pending_item)
    (elements : list block) : list block :=
  match elements with
  | [] => flush_pending result pending
  | PendingB p :: rest => group_loop result (pending ++ [p]) rest
  | el :: rest => group_loop (flush_pending result pending ++ [el]) [] rest
  end.

Definition group_list_items (elements : list block) : list block :=
  group_loop [] [] elements.

(* ------------------------------------------------------------------ *)
(** ** Heading tree builder: [_build_heading_tree]

    The stack of [(level, heading_block)] pairs, with frames as for
    [_nest_list_items]: a frame holds a stacked heading with the children
    it has received so far (starting from the [children] the block
    already had). *)
Record h_frame := mk_h_frame {
  hf_level : Z; hf_head : heading; hf_children : list block }.

Definition close_h (f : h_frame) : block := HeadingB (hf_head f) (hf_children f).

Definition h_add_child (f : h_frame) (b : block) : h_frame :=
  mk_h_frame (hf_level f) (hf_head f) (hf_children f ++ [b]).

(** [while stack and stack[-1][0] >= block.level: stack.pop()] *)
Fixpoint h_pop (level : Z) (f : h_frame) (s : list h_frame)
    (root : list block) : list h_frame * list block :=
  if (level <=? hf_level f)%Z then
    match s with
    | [] => ([], root ++ [close_h f])
    | g :: s' => h_pop level (h_add_child g (close_h f)) s' root
    end
  else (f :: s, root).

Fixpoint h_unwind (f : h_frame) (s : list h_frame) (root : list block)
  : list block :=
  match s with
  | [] => root ++ [close_h f]
  | g :: s' => h_unwind (h_add_child g (close_h f)) s' root
  end.

Definition h_finish (stack : list h_frame) (root : list block) : list block :=
  match stack with
  | [] => root
  | f :: s => h_unwind f s root
  end.

(** One iteration of the loop. *)
Definition tree_step (st : list h_frame * list block) (b : block)
  : list h_frame * list block :=
  let '(stack, root) := st in
  match b with
  | HeadingB h ch =>
      let '(stack', root') :=
        match stack with
        | [] => ([], root)
        | f :: s => h_pop (h_level h) f s root
        end in
      (mk_h_frame (h_level h) h ch :: stack', root')
  | _ =>
      match stack with
      | [] => ([], root ++ [b])
      | f :: s => (h_add_child f b :: s, root)
      end
  end.

Definition build_heading_tree (flat_elements : list block) : list block :=
  match flat_elements with
  | [] => []
  | _ =>
      let '(stack, root) := fold_left tree_step flat_elements ([], []) in
      h_finish stack root
  end.

(* ------------------------------------------------------------------ *)
(** ** Reading the patterns back as string shapes *)

(** The previous character after consuming [l] from a state whose
    previous character is [pv]. *)
Fixpoint last_char (pv : option ascii) (l : list ascii) : option ascii :=
  match l with [] => pv | c :: t => last_char (Some c) t end.

(** [kw] spells [w] up to case. *)
Fixpoint ci_match (w kw : list ascii) : bool :=
  match w, kw with
  | [], [] => true
  | a :: w', b :: kw' => ci_char a b && ci_match w' kw'
  | _, _ => false
  end.

(** The text starts with PART or CHAPTER (any case), whitespace, then a
    run of roman-numeral letters (any case) or a run of digits that ends
    at a word boundary. *)
Definition structural_shape (s : list ascii) : Prop :=
  exists kw ws num rest,
    s = kw ++ ws ++ num ++ rest /\
    (ci_match (chars "PART") kw = true \/ ci_match (chars "CHAPTER") kw = true) /\
    ws <> [] /\ forallb is_space ws = true /\
    num <> [] /\
    (forallb is_roman_ci num = true \/ forallb is_digit num = true) /\
    match rest with [] => True | c :: _ => is_word c = false end.

(** The text after the separator starts with an uppercase letter A-Z;
    it starts with four lowercase letters a-z. *)
Definition starts_upper (l : list ascii) : bool :=
  match l with c :: _ => is_upper c | [] => false end.

Definition four_lower (l : list ascii) : bool :=
  match l with
  | a :: b :: c :: d :: _ => is_lower a && is_lower b && is_lower c && is_lower d
  | _ => false
  end.

(** Heading-ness of a block, the level of the last heading of a list of
    blocks ([dflt] when there is none), and the resolver state after a
    prefix of its output. *)
Definition is_heading_block (b : block) : bool :=
  match b with HeadingB _ _ => true | _ => false end.

Fixpoint last_heading_level (dflt : Z) (l : list block) : Z :=
  match l with
  | [] => dflt
  | HeadingB h _ :: r => last_heading_level (h_level h) r
  | _ :: r => last_heading_level dflt r
  end.

Fixpoint state_after (st : resolve_state) (l : list block) : resolve_state :=
  match l with
  | [] => st
  | HeadingB h _ :: r => state_after (mk_resolve_state true (h_level h)) r
  | _ :: r => state_after st r
  end.

(** The levels of the headings of a list, in order. *)
Fixpoint heading_levels (l : list block) : list Z :=
  match l with
  | [] => []
  | HeadingB h _ :: r => h_level h :: heading_levels r
  | _ :: r => heading_levels r
  end.

(** A heading candidate with the given text, as the classifier emits it. *)
Definition candidate (text : string) : block :=
  HeadingB (mk_heading (Some 1%Z) 2%Z text [] 1%Q None) [].

(** The level carried by a block: [Some level] for a heading. *)
Definition level_of_block (b : block) : option Z :=
  match b with HeadingB h _ => Some (h_level h) | _ => None end.

(** The further segments of a dotted number: [.s1.s2...]. *)
Definition dot_segments (segs : list (list ascii)) : list ascii :=
  flat_map (fun sg => "."%char :: sg) segs.

(** A nonempty run of digits. *)
Definition digit_run (sg : list ascii) : Prop := sg <> [] /\ forallb is_digit sg = true.

(** Where a candidate match of a dotted number followed by [tail] can
    stop: at [tail], before a digit, or before a dot and a digit. *)
Definition stop_ok (tail t : list ascii) : Prop :=
  t = tail \/ (exists x t', t = x :: t' /\ is_digit x = true) \/
  (exists y t', t = "."%char :: y :: t' /\ is_digit y = true).

(** The tree as the spec describes it: a heading's children are the blocks
    that follow it up to the next heading of level at most its own, nested
    the same way; other blocks stay where they are. *)
Definition stops_at (L : Z) (b : block) : bool :=
  match b with HeadingB h _ => (h_level h <=? L)%Z | _ => false end.

Fixpoint span_below (L : Z) (l : list block) : list block * list block :=
  match l with
  | [] => ([], [])
  | b :: r =>
      if stops_at L b then ([], l)
      else let '(k, rest) := span_below L r in (b :: k, rest)
  end.

Fixpoint nest_fuel (fuel : nat) (l : list block) : list block :=
  match fuel with
  | 0 => []
  | S fuel' =>
      match l with
      | [] => []
      | HeadingB h ch :: r =>
          let '(kids, rest) := span_below (h_level h) r in
          HeadingB h (ch ++ nest_fuel fuel' kids) :: nest_fuel fuel' rest
      | b :: r => b :: nest_fuel fuel' r
      end
  end.

Definition nest_by_level (l : list block) : list block :=
  nest_fuel (length l) l.

(** The stack of the builder read as a tree: each stacked heading takes
    the following blocks up to the next heading of level at most its own,
    is closed, and becomes the last child of the heading below it. *)
Fixpoint close_all (f : h_frame) (s : list h_frame) (root xs : list block)
  : list block :=
  let '(kids, rest) := span_below (hf_level f) xs in
  let b := HeadingB (hf_head f) (hf_children f ++ nest_by_level kids) in
  match s with
  | [] => root ++ b :: nest_by_level rest
  | g :: s' => close_all (h_add_child g b) s' root rest
  end.

(** Pre-order traversal (a heading, then its children) and the list of
    all nodes of a forest. *)
Fixpoint preorder_block (b : block) : list block :=
  match b with
  | HeadingB h ch =>
      HeadingB h [] ::
      (fix go (l : list block) : list block :=
         match l with [] => [] | c :: r => preorder_block c ++ go r end) ch
  | _ => [b]
  end.

Definition preorder (l : list block) : list block := flat_map preorder_block l.

Fixpoint subtrees_block (b : block) : list block :=
  b :: match b with
       | HeadingB _ ch =>
           (fix go (l : list block) : list block :=
              match l with [] => [] | c :: r => subtrees_block c ++ go r end) ch
       | _ => []
       end.

Definition subtrees (l : list block) : list block := flat_map subtrees_block l.

(** A block of the flat sequence: a heading has no children yet. *)
Definition flat_block (b : block) : bool :=
  match b with HeadingB _ [] => true | HeadingB _ _ => false | _ => true end.

(** The nesting of a list as the spec describes it: depths are taken
    relative to the first item's; an item's children are the items that
    follow it up to the next item of depth at most its own, nested the
    same way. *)
Definition norm_depth (base : Z) (p : pending_item) : Z * pending_item :=
  ((pi_nesting_depth p - base)%Z, p).

Definition li_stops (D : Z) (e : Z * pending_item) : bool := (fst e <=? D)%Z.

Fixpoint li_span (D : Z) (l : list (Z * pending_item))
  : list (Z * pending_item) * list (Z * pending_item) :=
  match l with
  | [] => ([], [])
  | e :: r =>
      if li_stops D e then ([], l)
      else let '(k, rest) := li_span D r in (e :: k, rest)
  end.

Fixpoint li_forest_fuel (fuel : nat) (l : list (Z * pending_item))
  : list list_item :=
  match fuel with
  | 0 => []
  | S fuel' =>
      match l with
      | [] => []
      | (d, p) :: r =>
          let '(kids, rest) := li_span d r in
          ListItem (pi_text p) (pi_runs p) (li_forest_fuel fuel' kids)
            :: li_forest_fuel fuel' rest
      end
  end.

Definition li_forest (l : list (Z * pending_item)) : list list_item :=
  li_forest_fuel (length l) l.

Definition nest_by_depth (pending : list pending_item) : list list_item :=
  match pending with
  | [] => []
  | p0 :: _ => li_forest (map (norm_depth (pi_nesting_depth p0)) pending)
  end.

(** The stack of [_nest_list_items] read as a forest, as [close_all] for
    headings. *)
Fixpoint li_close_all (f : li_frame) (s : list li_frame)
    (root : list list_item) (xs : list (Z * pending_item)) : list list_item :=
  let '(kids, rest) := li_span (lf_depth f) xs in
  let b := ListItem (lf_text f) (lf_runs f) (lf_children f ++ li_forest kids) in
  match s with
  | [] => root ++ b :: li_forest rest
  | g :: s' => li_close_all (li_add_child g b) s' root rest
  end.

Definition is_pending_block (b : block) : bool :=
  match b with PendingB _ => true | _ => false end.

(* ------------------------------------------------------------------ *)
(** ** Text extraction: [DoclingParser._get_text] *)

(** [[ \t]] *)
Definition is_blank (c : ascii) : bool := lit_char " " c || lit_char "009" c.

(** [re.sub(r"[ \t]+", " ", s)]: each maximal run of blanks becomes one
    space; [in_run] tells whether the previous character was a blank. *)
Fixpoint sub_blanks_go (in_run : bool) (s : list ascii) : list ascii :=
  match s with
  | [] => []
  | c :: t =>
      if is_blank c then
        if in_run then sub_blanks_go true t else " "%char :: sub_blanks_go true t
      else c :: sub_blanks_go false t
  end.

Definition sub_blanks (s : list ascii) : list ascii := sub_blanks_go false s.

(** [re.sub(r"[ \t]+", " ", text).strip()] *)
Definition normalize_ws (s : string) : string :=
  string_of_list_ascii (py_strip (sub_blanks (chars s))).

(** No two adjacent characters of [[ \t]]. *)
Definition hd_blank (l : list ascii) : bool :=
  match l with c :: _ => is_blank c | [] => false end.

Fixpoint no_blank_pair (l : list ascii) : bool :=
  match l with
  | [] => true
  | c :: t => negb (is_blank c && hd_blank t) && no_blank_pair t
  end.

(** [_get_text]: [item_text] is the item's [text] attribute, [None] when
    the item has none. *)
Definition get_text (item_text : option string) : string :=
  match item_text with Some t => normalize_ws t | None => ""%string end.

(* ------------------------------------------------------------------ *)
(** ** Tables: [DoclingParser._convert_table_native] *)

(** [getattr(obj, name, default)] for an attribute the object may lack. *)
Definition getattr_or {A} (o : option A) (dflt : A) : A :=
  match o with Some x => x | None => dflt end.

(** An element of Docling's [data.table_cells]; [None] for an attribute
    the object lacks. *)
Record docling_cell := mk_docling_cell {
  tc_start_row : option Z; tc_end_row : option Z;
  tc_start_col : option Z; tc_end_col : option Z;
  tc_text : option string }.

(** The body of the loop for one cell. *)
Definition native_cell (tc : docling_cell) : table_cell :=
  let r_start := getattr_or (tc_start_row tc) 0%Z in
  let r_end := getattr_or (tc_end_row tc) (r_start + 1)%Z in
  let c_start := getattr_or (tc_start_col tc) 0%Z in
  let c_end := getattr_or (tc_end_col tc) (c_start + 1)%Z in
  let text :=
    match tc_text tc with
    | Some t => if String.eqb t "" then ""%string else normalize_ws t
    | None => ""%string
    end in
  mk_table_cell r_start c_start (Z.max (r_end - r_start) 1)
    (Z.max (c_end - c_start) 1) text [].

Fixpoint native_loop (tcs : list docling_cell) (cells : list table_cell)
    (max_row max_col : Z) : list table_cell * Z * Z :=
  match tcs with
  | [] => (cells, max_row, max_col)
  | tc :: rest =>
      let cell := native_cell tc in
      native_loop rest (cells ++ [cell])
        (Z.max max_row (c_row cell + c_row_span cell)%Z)
        (Z.max max_col (c_col cell + c_col_span cell)%Z)
  end.

(** [table_cells] is [None] when the item has no [data] or its [data] no
    [table_cells]. *)
Definition convert_table_native (page : option Z)
    (table_cells : option (list docling_cell)) : option table :=
  match table_cells with
  | None | Some [] => None
  | Some tcs =>
      let '(cells, max_row, max_col) := native_loop tcs [] 0%Z 0%Z in
      match cells with
      | [] => None
      | _ => Some (mk_table page max_row max_col cells)
      end
  end.

(* ------------------------------------------------------------------ *)
(** ** Table rendering: [generators/table_builder.build_table]

    The python-docx calls are recorded: the grid size of [doc.add_table]
    and, for each cell written, its anchor, the far corner it is merged
    with (when [cell.merge] is called) and what is written into it. *)

(** [_infer_rows], [_infer_cols]: [max] over the cells, [0] without cells. *)
Definition infer_rows (t : table) : Z :=
  match t_cells t with
  | [] => 0%Z
  | c :: cs => fold_left (fun m c => Z.max m (c_row c + c_row_span c)%Z) cs
                 (c_row c + c_row_span c)%Z
  end.

Definition infer_cols (t : table) : Z :=
  match t_cells t with
  | [] => 0%Z
  | c :: cs => fold_left (fun m c => Z.max m (c_col c + c_col_span c)%Z) cs
                 (c_col c + c_col_span c)%Z
  end.

Inductive cell_content := CRuns (runs : list text_run) | CText (text : string).

Record cell_write := mk_cell_write {
  w_row : Z; w_col : Z; w_merge : option (Z * Z); w_content : cell_content }.

Inductive built_table :=
| TPlaceholder                                   (* the 1x1 empty table *)
| TGrid (rows cols : Z) (writes : list cell_write).

(** [range(a, b)] *)
Definition z_range (a b : Z) : list Z :=
  map (fun i => (a + Z.of_nat i)%Z) (seq 0 (Z.to_nat (b - a))).

Definition pair_eqb (p q : Z * Z) : bool :=
  Z.eqb (fst p) (fst q) && Z.eqb (snd p) (snd q).

(** The positions of the rectangle [r..er] x [c..ec] but its anchor. *)
Definition spanned (r c er ec : Z) : list (Z * Z) :=
  flat_map (fun mr => flat_map (fun mc =>
    if pair_eqb (mr, mc) (r, c) then [] else [(mr, mc)])
    (z_range c (ec + 1)%Z)) (z_range r (er + 1)%Z).

Fixpoint build_loop (num_rows num_cols : Z) (merged : list (Z * Z))
    (cells : list table_cell) : list cell_write :=
  match cells with
  | [] => []
  | cd :: rest =>
      let r := c_row cd in
      let c := c_col cd in
      if existsb (pair_eqb (r, c)) merged then
        build_loop num_rows num_cols merged rest
      else if (num_rows <=? r)%Z || (num_cols <=? c)%Z then
        build_loop num_rows num_cols merged rest
      else
        let end_row := Z.min (r + c_row_span cd - 1)%Z (num_rows - 1)%Z in
        let end_col := Z.min (c + c_col_span cd - 1)%Z (num_cols - 1)%Z in
        let merge := (r <? end_row)%Z || (c <? end_col)%Z in
        let merged' :=
          if merge then merged ++ spanned r c end_row end_col else merged in
        mk_cell_write r c (if merge then Some (end_row, end_col) else None)
          (match c_runs cd with [] => CText (c_text cd) | rs => CRuns rs end)
        :: build_loop num_rows num_cols merged' rest
  end.

Definition build_table (t : table) : built_table :=
  let num_rows := if (t_num_rows t =? 0)%Z then infer_rows t else t_num_rows t in
  let num_cols := if (t_num_cols t =? 0)%Z then infer_cols t else t_num_cols t in
  if (num_rows =? 0)%Z || (num_cols =? 0)%Z then TPlaceholder
  else TGrid num_rows num_cols (build_loop num_rows num_cols [] (t_cells t)).

(* ------------------------------------------------------------------ *)
(** ** Compound headings: [_COMPOUND_SEP_RE], [_split_compound_headings] *)

(** [pattern.search(s)] for a pattern with no anchor: the text before the
    leftmost match and the text after it, which is also what
    [pattern.split(s, maxsplit=1)] returns. *)
Fixpoint re_search_go (r : re) (pv : option ascii) (before s : list ascii)
  : option (list ascii * list ascii) :=
  match rmatch r (pv, s) with
  | st :: _ => Some (before, snd st)
  | [] =>
      match s with
      | [] => None
      | c :: t => re_search_go r (Some c) (before ++ [c]) t
      end
  end.

Definition re_search (r : re) (s : list ascii) : option (list ascii * list ascii) :=
  re_search_go r None [] s.

Section CompoundSplit.

(** The class [[·•]]: the middle dot and the bullet lie outside ASCII, so
    the class is a parameter of the model. *)
Variable is_bullet : ascii -> bool.

(** [\s+[·•]\s+] *)
Definition compound_sep_re : re :=
  RSeq (RPlus sp) (RSeq (RChar is_bullet) (RPlus sp)).

(** [el.classification_reason or "unknown"] followed by the suffix. *)
Definition compound_reason (r : option string) : string :=
  let prev := match r with
              | Some r => if String.eqb r "" then "unknown"%string else r
              | None => "unknown"%string
              end in
  (prev ++ "; compound_split")%string.

(** One iteration of the loop of [_split_compound_headings]. *)
Definition split_compound_heading (el : block) : list block :=
  match el with
  | HeadingB h ch =>
      match re_search compound_sep_re (chars (h_text h)) with
      | Some (part0, part1) =>
          [HeadingB (mk_heading (h_page h) (h_level h)
                       (string_of_list_ascii (py_strip part0)) []
                       (py_min (h_confidence h) (75 # 100))
                       (Some (compound_reason (h_reason h)))) ch;
           ParagraphB (mk_paragraph (h_page h)
                         (string_of_list_ascii (py_strip part1)) [])]
      | None => [el]
      end
  | _ => [el]
  end.

Definition split_compound_headings (elements : list block) : list block :=
  flat_map split_compound_heading elements.

(** A space, a bullet and a space in a row: where the separator can match. *)
Definition sep_triple (l : list ascii) : Prop :=
  exists u x y z w, l = u ++ x :: y :: z :: w /\
    is_space x = true /\ is_bullet y = true /\ is_space z = true.

End CompoundSplit.

(* ------------------------------------------------------------------ *)
(** ** Docling items: [_extract_runs], [_get_page_number], [_get_caption],
    [_convert_table], [_convert_table_dataframe], [_convert_figure],
    [_extract_elements] *)

(** The labels [_extract_elements] tests; [LOther v] is any other label,
    with its [value]. *)
Inductive doc_label :=
| LPageHeader | LPageFooter | LSectionHeader | LTitle | LListItem | LTable
| LPicture | LOther (value : string).

(** [label.value] *)
Definition label_value (l : doc_label) : string :=
  match l with
  | LPageHeader => "page_header" | LPageFooter => "page_footer"
  | LSectionHeader => "section_header" | LTitle => "title"
  | LListItem => "list_item" | LTable => "table" | LPicture => "picture"
  | LOther v => v
  end.

(** A [formatting] object, each flag read as [getattr(fmt, x, False) or
    False]; [fm_script] is [getattr(fmt, "script", None)]. *)
Record text_format := mk_text_format {
  fm_bold : bool; fm_italic : bool; fm_underline : bool;
  fm_strikethrough : bool; fm_script : option string }.

(** A child of an item: [getattr(child, "text", "")] and its
    [formatting] ([None] when absent). *)
Record doc_child := mk_doc_child {
  dc_text : string; dc_formatting : option text_format }.

(** An element of a figure's [captions]: its [text] ([None] when absent)
    and [str(ref)]. *)
Record caption_ref := mk_caption_ref {
  cr_text : option string; cr_str : string }.

(** A column label of a DataFrame: an [int] or anything else, given by its
    [str]. *)
Inductive df_col := ColInt (z : Z) | ColOther (s : string).

(** [item.export_to_dataframe()]: its column labels and its rows, each
    value given by its [str]. *)
Record dataframe := mk_dataframe {
  df_columns : list df_col; df_rows : list (list string) }.

(** A Docling item, each attribute [None] or empty when the item lacks
    it: [di_prov] lists the [page_no] of its provenance entries,
    [di_table_cells] is [item.data.table_cells] and [di_dataframe] the
    DataFrame export ([None] when the export raises). *)
Record doc_item := mk_doc_item {
  di_label : doc_label;
  di_text : option string;
  di_prov : list Z;
  di_children : list doc_child;
  di_formatting : option text_format;
  di_enumerated : bool;
  di_marker : string;
  di_table_cells : option (list docling_cell);
  di_dataframe : option dataframe;
  di_captions : list caption_ref;
  di_caption : option string }.

(** [TextRun(text=..., bold=..., ...)] from a formatting object. *)
Definition format_run (text : string) (fmt : text_format) : text_run :=
  mk_text_run text (fm_bold fmt) (fm_italic fmt) (fm_underline fmt)
    (fm_strikethrough fmt)
    (match fm_script fmt with Some s => String.eqb s "superscript" | None => false end)
    (match fm_script fmt with Some s => String.eqb s "subscript" | None => false end)
    None.

(** [TextRun(text=...)] *)
Definition plain_run (text : string) : text_run :=
  mk_text_run text false false false false false false None.

(** The loop over [item.children]. *)
Definition child_runs (children : list doc_child) : list text_run :=
  flat_map (fun child =>
    if String.eqb (dc_text child) "" then []
    else match dc_formatting child with
         | Some fmt => [format_run (dc_text child) fmt]
         | None => [plain_run (dc_text child)]
         end) children.

Definition extract_runs (item : doc_item) : list text_run :=
  match child_runs (di_children item) with
  | [] =>
      match di_formatting item with
      | Some fmt =>
          let text := get_text (di_text item) in
          if String.eqb text "" then [] else [format_run text fmt]
      | None => []
      end
  | runs => runs
  end.

(** [_get_page_number] *)
Definition get_page_number (item : doc_item) : option Z := hd_error (di_prov item).

(** [sep.join(parts)] *)
Fixpoint py_join (sep : string) (parts : list string) : string :=
  match parts with
  | [] => ""
  | [p] => p
  | p :: rest => (p ++ sep ++ py_join sep rest)%string
  end.

(** [_get_caption] *)
Definition get_caption (item : doc_item) : string :=
  match di_captions item with
  | [] =>
      match di_caption item with
      | Some c => if String.eqb c "" then ""%string else c
      | None => ""%string
      end
  | captions =>
      py_join " " (map (fun r =>
        match cr_text r with
        | Some t => if String.eqb t "" then cr_str r else t
        | None => cr_str r
        end) captions)
  end.

(** [enumerate(l, start)] *)
Fixpoint enumerate_from {A} (i : Z) (l : list A) : list (Z * A) :=
  match l with [] => [] | x :: r => (i, x) :: enumerate_from (i + 1)%Z r end.

Definition col_is_int (c : df_col) : bool :=
  match c with ColInt _ => true | ColOther _ => false end.

(** [str(col_name)] *)
Definition col_str (c : df_col) : string :=
  match c with ColInt z => str_Z z | ColOther s => s end.

(** [_convert_table_dataframe]; [TableCell(row=.., col=.., text=..)] has
    spans 1 and no runs. *)
Definition convert_table_dataframe (item : doc_item) (page : option Z)
  : option table :=
  match di_dataframe item with
  | Some df =>
      let num_rows := Z.of_nat (length (df_rows df)) in
      let num_cols :=
        if (0 <? num_rows)%Z then Z.of_nat (length (df_columns df)) else 0%Z in
      let cols_are_auto := forallb col_is_int (df_columns df) in
      let header :=
        if cols_are_auto then []
        else map (fun '(col_idx, col_name) =>
                    mk_table_cell 0 col_idx 1 1 (col_str col_name) [])
                 (enumerate_from 0 (df_columns df)) in
      let row_offset := if cols_are_auto then 0%Z else 1%Z in
      let data :=
        flat_map (fun '(row_idx, row) =>
          map (fun '(col_idx, value) =>
                 mk_table_cell (row_idx + row_offset) col_idx 1 1 value [])
              (enumerate_from 0 row))
          (enumerate_from 0 (df_rows df)) in
      Some (mk_table page (num_rows + row_offset) num_cols (header ++ data))
  | None =>
      let text := get_text (di_text item) in
      if String.eqb text "" then None
      else Some (mk_table page 1 1 [mk_table_cell 0 0 1 1 text []])
  end.

(** [_convert_table] *)
Definition convert_table (item : doc_item) (page : option Z) : option table :=
  match convert_table_native page (di_table_cells item) with
  | Some native => Some native
  | None => convert_table_dataframe item page
  end.

Inductive furniture_type := FHeader | FFooter.

Definition furniture_type_eqb (a b : furniture_type) : bool :=
  match a, b with FHeader, FHeader | FFooter, FFooter => true | _, _ => false end.

Record furniture_item := mk_furniture_item {
  fu_type : furniture_type; fu_text : string; fu_pages : list Z }.

(** [page] where [if page] holds. *)
Definition truthy_page (page : option Z) : option Z :=
  match page with Some p => if (p =? 0)%Z then None else Some p | None => None end.

(** [furniture_map] is a dict keyed by [(type, text)]: an association list
    in insertion order. One furniture item: update the entry of its key,
    or add one at the end. *)
Fixpoint furniture_add (fmap : list furniture_item) (ty : furniture_type)
    (text : string) (page : option Z) : list furniture_item :=
  match fmap with
  | [] => [mk_furniture_item ty text
             (match truthy_page page with Some p => [p] | None => [] end)]
  | f :: rest =>
      if furniture_type_eqb (fu_type f) ty && String.eqb (fu_text f) text then
        match truthy_page page with
        | Some p =>
            if existsb (Z.eqb p) (fu_pages f) then f :: rest
            else mk_furniture_item (fu_type f) (fu_text f) (fu_pages f ++ [p]) :: rest
        | None => f :: rest
        end
      else f :: furniture_add rest ty text page
  end.

(** [text.strip()] is truthy. *)
Definition nonblank (text : string) : bool := nonempty (py_strip (chars text)).

Definition strip_str (text : string) : string :=
  string_of_list_ascii (py_strip (chars text)).

Record extract_state := mk_extract_state {
  ex_elements : list block; ex_furniture : list furniture_item;
  ex_has_parts : bool }.

Section Extract.

(** The image side of [_convert_figure] ([item.get_image], the PNG written
    next to the PDF and its size in inches): the [image_path],
    [width_inches] and [height_inches] it yields, [None]s when it fails. *)
Variable figure_image : doc_item -> option Z -> option string * option Q * option Q.

Definition convert_figure (item : doc_item) (page : option Z) : figure :=
  let caption := get_caption item in
  let '(image_path, width_inches, height_inches) := figure_image item page in
  mk_figure page image_path None caption width_inches height_inches.

(** The content branches of the loop. *)
Definition extract_content (st : extract_state) (item : doc_item)
    (nesting_depth : Z) (page : option Z) (text : string) : extract_state :=
  let add b := mk_extract_state (ex_elements st ++ [b]) (ex_furniture st)
                                (ex_has_parts st) in
  match di_label item with
  | LSectionHeader | LTitle =>
      let runs := extract_runs item in
      let b := HeadingB (mk_heading page 2%Z text runs (85 # 100)
                 (Some ("docling_label:" ++ label_value (di_label item))%string)) [] in
      mk_extract_state (ex_elements st ++ [b]) (ex_furniture st)
        (ex_has_parts st || is_structural_marker text)
  | LListItem =>
      let marker := di_marker item in
      add (PendingB (mk_pending_item text (extract_runs item) page
             (di_enumerated item)
             (if String.eqb marker "" then ""%string else marker)
             nesting_depth))
  | LTable =>
      match convert_table item page with
      | Some t => add (TableB t)
      | None => st
      end
  | LPicture => add (FigureB (convert_figure item page))
  | _ =>
      if nonblank text then add (ParagraphB (mk_paragraph page text (extract_runs item)))
      else st
  end.

(** One iteration of the loop over [doc.iterate_items()]. *)
Definition extract_step (st : extract_state) (entry : doc_item * Z) : extract_state :=
  let '(item, nesting_depth) := entry in
  let page := get_page_number item in
  let text := get_text (di_text item) in
  match di_label item with
  | LPageHeader =>
      if nonblank text then
        mk_extract_state (ex_elements st)
          (furniture_add (ex_furniture st) FHeader (strip_str text) page)
          (ex_has_parts st)
      else extract_content st item nesting_depth page text
  | LPageFooter =>
      if nonblank text then
        mk_extract_state (ex_elements st)
          (furniture_add (ex_furniture st) FFooter (strip_str text) page)
          (ex_has_parts st)
      else extract_content st item nesting_depth page text
  | _ => extract_content st item nesting_depth page text
  end.

(** [_extract_elements]: [(elements, furniture, has_parts)]. *)
Definition extract_elements (items : list (doc_item * Z))
  : list block * list furniture_item * bool :=
  let st := fold_left extract_step items (mk_extract_state [] [] false) in
  (ex_elements st, ex_furniture st, ex_has_parts st).

End Extract.

(* ------------------------------------------------------------------ *)
(** ** [_build_ir] and [_get_title] *)

(** The first [HeadingBlock] of a list, by its text. *)
Fixpoint first_heading_text (body : list block) : option string :=
  match body with
  | [] => None
  | HeadingB h _ :: _ => Some (h_text h)
  | _ :: rest => first_heading_text rest
  end.

(** [_get_title]: [doc_title] is [getattr(doc, "title", None)]. *)
Definition get_title (doc_title : option string) (body : list block) : string :=
  let fallback := match first_heading_text body with
                  | Some t => t | None => ""%string end in
  match doc_title with
  | Some t => if String.eqb t "" then fallback else t
  | None => fallback
  end.

(** The passes of [_build_ir] from the extracted elements to [body]. *)
Definition build_body (is_bullet : ascii -> bool) (elements : list block)
    (has_parts : bool) : list block :=
  let elements := split_compound_headings is_bullet elements in
  let elements := promote_numbered_paragraphs elements in
  let elements := promote_numbered_list_items elements in
  let elements := resolve_heading_levels elements has_parts in
  let elements := group_list_items elements in
  build_heading_tree elements.

(** [_build_ir] without the metadata read from the file system and the
    parser ([source_file], [source_hash], [parser_version],
    [page_count]): the title, the body and the furniture. *)
Definition build_ir (is_bullet : ascii -> bool)
    (figure_image : doc_item -> option Z -> option string * option Q * option Q)
    (doc_title : option string) (items : list (doc_item * Z))
  : string * list block * list furniture_item :=
  let '(elements, furniture, has_parts) := extract_elements figure_image items in
  let body := build_body is_bullet elements has_parts in
  (get_title doc_title body, body, furniture).

(** Induction over blocks that reaches the children of a heading. *)
Section BlockInd.
Variable P : block -> Prop.
Hypothesis P_heading : forall h ch, Forall P ch -> P (HeadingB h ch).
Hypothesis P_other : forall b, is_heading_block b = false -> P b.

Fixpoint block_nested_ind (b : block) : P b :=
  match b with
  | HeadingB h ch =>
      P_heading h ch
        ((fix go (l : list block) : Forall P l :=
            match l with
            | [] => Forall_nil P
            | c :: r => Forall_cons c (block_nested_ind c) (go r)
            end) ch)
  | ParagraphB p => P_other (ParagraphB p) eq_refl
  | ListB l => P_other (ListB l) eq_refl
  | TableB t => P_other (TableB t) eq_refl
  | FigureB f => P_other (FigureB f) eq_refl
  | PageBreakB p => P_other (PageBreakB p) eq_refl
  | PendingB p => P_other (PendingB p) eq_refl
  end.
End BlockInd.

(** The blocks [_extract_elements] can emit, as it builds them. *)
Definition extracted_block (b : block) : Prop :=
  match b with
  | HeadingB h ch =>
      ch = [] /\ h_level h = 2%Z /\ h_confidence h = 85 # 100 /\
      (h_reason h = Some "docling_label:section_header"%string \/
       h_reason h = Some "docling_label:title"%string)
  | ParagraphB p => nonblank (p_text p) = true
  | ListB _ | PageBreakB _ => False
  | TableB _ | FigureB _ | PendingB _ => True
  end.

(** The items that set [has_parts]. *)
Definition sets_has_parts (entry : doc_item * Z) : bool :=
  match di_label (fst entry) with
  | LSectionHeader | LTitle => is_structural_marker (get_text (di_text (fst entry)))
  | _ => false
  end.

(** The label of the items a furniture type collects. *)
Definition furniture_label (ty : furniture_type) : doc_label :=
  match ty with FHeader => LPageHeader | FFooter => LPageFooter end.

(** The key of [furniture_map]. *)
Definition furniture_key (f : furniture_item) : furniture_type * string :=
  (fu_type f, fu_text f).

(** A furniture entry with a text and distinct, truthy page numbers. *)
Definition furniture_pages_ok (f : furniture_item) : Prop :=
  fu_text f <> ""%string /\ NoDup (fu_pages f) /\ ~ In 0%Z (fu_pages f).

(** What the furniture map holds after the items [done]: distinct keys,
    entries with a text and distinct truthy pages, each coming from an item
    of [done], and each page header or footer of [done] with a non-blank
    text recorded with its page. *)
Definition furniture_inv (done : list (doc_item * Z)) (furniture : list furniture_item)
  : Prop :=
  NoDup (map furniture_key furniture) /\
  (forall f, In f furniture -> furniture_pages_ok f /\
     exists item d, In (item, d) done /\ furniture_label (fu_type f) = di_label item /\
       strip_str (get_text (di_text item)) = fu_text f) /\
  (forall item d, In (item, d) done ->
     (di_label item = LPageHeader \/ di_label item = LPageFooter) ->
     nonblank (get_text (di_text item)) = true ->
     exists f, In f furniture /\ furniture_label (fu_type f) = di_label item /\
       fu_text f = strip_str (get_text (di_text item)) /\
       forall p, truthy_page (get_page_number item) = Some p -> In p (fu_pages f)).

Definition is_list_block (b : block) : bool :=
  match b with ListB _ => true | _ => false end.

(** [HeadingBlock.confidence] within its schema bounds [0, 1]. *)
Definition conf_ok (b : block) : Prop :=
  match b with HeadingB h _ => (0 <= h_confidence h <= 1)%Q | _ => True end.

(* ------------------------------------------------------------------ *)
(** ** Conversion report: [ir/report.py] [_walk_blocks], [from_ir]

    The timing, source and warning fields are not touched by the walk and
    are left out; a [LowConfidenceItem] is kept without its [block_id]
    (the random block id is not modelled). *)

Record low_item := mk_low_item {
  lc_text : string; lc_level : Z; lc_page : option Z; lc_confidence : Q;
  lc_reason : option string }.

Record report := mk_report {
  rp_heading_count : nat; rp_paragraph_count : nat; rp_table_count : nat;
  rp_figure_count : nat; rp_list_count : nat;
  rp_headings_by_level : list (Z * nat);   (* the dict, in insertion order *)
  rp_low_confidence_threshold : Q;
  rp_low_confidence_items : list low_item }.

(** [d[k] = d.get(k, 0) + 1] *)
Fixpoint dict_incr (d : list (Z * nat)) (k : Z) : list (Z * nat) :=
  match d with
  | [] => [(k, 1)]
  | (k', v) :: rest => if (k' =? k)%Z then (k', S v) :: rest else (k', v) :: dict_incr rest k
  end.

(** [d.get(k, 0)] *)
Fixpoint dict_get (d : list (Z * nat)) (k : Z) : nat :=
  match d with
  | [] => 0
  | (k', v) :: rest => if (k' =? k)%Z then v else dict_get rest k
  end.

(** [a < b] on floats. *)
Definition py_lt (a b : Q) : bool := negb (Qle_bool b a).

(** The counters one block adds, before the walk enters its children. *)
Definition count_block (rp : report) (b : block) : report :=
  match b with
  | HeadingB h _ =>
      mk_report (S (rp_heading_count rp)) (rp_paragraph_count rp) (rp_table_count rp)
        (rp_figure_count rp) (rp_list_count rp)
        (dict_incr (rp_headings_by_level rp) (h_level h))
        (rp_low_confidence_threshold rp)
        (if py_lt (h_confidence h) (rp_low_confidence_threshold rp)
         then rp_low_confidence_items rp ++
              [mk_low_item (h_text h) (h_level h) (h_page h) (h_confidence h) (h_reason h)]
         else rp_low_confidence_items rp)
  | ParagraphB _ =>
      mk_report (rp_heading_count rp) (S (rp_paragraph_count rp)) (rp_table_count rp)
        (rp_figure_count rp) (rp_list_count rp) (rp_headings_by_level rp)
        (rp_low_confidence_threshold rp) (rp_low_confidence_items rp)
  | TableB _ =>
      mk_report (rp_heading_count rp) (rp_paragraph_count rp) (S (rp_table_count rp))
        (rp_figure_count rp) (rp_list_count rp) (rp_headings_by_level rp)
        (rp_low_confidence_threshold rp) (rp_low_confidence_items rp)
  | FigureB _ =>
      mk_report (rp_heading_count rp) (rp_paragraph_count rp) (rp_table_count rp)
        (S (rp_figure_count rp)) (rp_list_count rp) (rp_headings_by_level rp)
        (rp_low_confidence_threshold rp) (rp_low_confidence_items rp)
  | ListB _ =>
      mk_report (rp_heading_count rp) (rp_paragraph_count rp) (rp_table_count rp)
        (rp_figure_count rp) (S (rp_list_count rp)) (rp_headings_by_level rp)
        (rp_low_confidence_threshold rp) (rp_low_confidence_items rp)
  | PageBreakB _ | PendingB _ => rp
  end.

(** [_walk_blocks] for one block: count it, then walk a heading's
    children. *)
Fixpoint walk_block (b : block) (rp : report) : report :=
  let rp' := count_block rp b in
  match b with
  | HeadingB _ ch =>
      (fix go (l : list block) (rp : report) : report :=
         match l with [] => rp | c :: r => go r (walk_block c rp) end) ch rp'
  | _ => rp'
  end.

Definition walk_blocks (blocks : list block) (rp : report) : report :=
  fold_left (fun rp b => walk_block b rp) blocks rp.

(** [ConversionReport.from_ir]: the counters of a fresh report, then the
    walk of the body. *)
Definition report_from_ir (low_confidence_threshold : Q) (body : list block) : report :=
  walk_blocks body (mk_report 0 0 0 0 0 [] low_confidence_threshold []).

(** The headings of a list, in order. *)
Definition block_headings (l : list block) : list heading :=
  flat_map (fun b => match b with HeadingB h _ => [h] | _ => [] end) l.

Definition to_low_item (h : heading) : low_item :=
  mk_low_item (h_text h) (h_level h) (h_page h) (h_confidence h) (h_reason h).

(* ------------------------------------------------------------------ *)
(** ** The Word renderer ([generators/word_generator.py], [styles.py])

    The renderer writes into a python-docx [Document]; its effect on the
    body is modelled as the list of what it appends, in order.  Setting up
    the styles and numbering definitions ([ensure_styles_exist]) and the
    core title property do not touch the body and are left out. *)

(** [StyleConfig] *)
Record style_config := mk_style_config {
  sc_heading_prefix : string; sc_body_style : string;
  sc_list_bullet_style : string; sc_list_number_style : string;
  sc_caption_style : string; sc_table_style : string;
  sc_mark_low_confidence : bool; sc_low_confidence_threshold : Q;
  sc_low_confidence_highlight : string }.

(** [heading_style_name]: [f"{config.heading_prefix} {level}"]. *)
Definition heading_style_name (config : style_config) (level : Z) : string :=
  (sc_heading_prefix config ++ " " ++ str_Z level)%string.

(** [list_style_name] *)
Definition list_style_name (config : style_config) (ordered : bool) (level : Z) : string :=
  let base := if ordered then sc_list_number_style config else sc_list_bullet_style config in
  if (level <=? 1)%Z then base else (base ++ " " ++ str_Z level)%string.

(** The [num_id] [apply_list_numbering] picks. *)
Definition list_num_id (ordered : bool) (marker_format : option string) : string :=
  if negb ordered then "100"%string
  else match marker_format with
       | Some mf =>
           if String.eqb mf "lowerLetter" then "102"%string
           else if String.eqb mf "upperLetter" then "103"%string
           else "101"%string
       | None => "101"%string
       end.

(** [if x.runs: _write_runs(paragraph, x.runs) else: ... x.text] *)
Definition content_of (runs : list text_run) (text : string) : cell_content :=
  match runs with [] => CText text | rs => CRuns rs end.

(** A list paragraph: its style, content, and the [w:ilvl] and [w:numId]
    that [apply_list_numbering] attaches. *)
Record list_para := mk_list_para {
  lp_style : string; lp_content : cell_content; lp_ilvl : Z; lp_num_id : string }.

(** [_render_list_item]: the item's paragraph, then its children one
    level deeper, at most 3. *)
Fixpoint render_list_item (config : style_config) (ordered : bool) (level : Z)
    (marker_format : option string) (item : list_item) : list list_para :=
  match item with
  | ListItem text runs children =>
      mk_list_para (list_style_name config ordered level) (content_of runs text)
        (Z.max (level - 1) 0) (list_num_id ordered marker_format) ::
      (fix go (l : list list_item) : list list_para :=
         match l with
         | [] => []
         | c :: r => render_list_item config ordered (Z.min (level + 1) 3) marker_format c ++ go r
         end) children
  end.

(** [_render_list] *)
Definition render_list (config : style_config) (lb : list_block) : list list_para :=
  let ordered := match l_style lb with Ordered => true | Unordered => false end in
  flat_map (render_list_item config ordered 1 (l_marker_format lb)) (l_items lb).

(** What the renderer appends to the document body: a paragraph with its
    style, content and low-confidence mark (the highlight colour applied
    to all its runs and the marker run), a list paragraph, a table, an
    image ([add_image]), a caption paragraph, a page break. *)
Inductive doc_event :=
| EPara (style : string) (content : cell_content) (mark : option (string * string))
| EList (p : list_para)
| ETable (t : built_table)
| EImage (f : figure)
| ECaption (text : string)
| EPageBreak.

Section WordRender.
(** [f"{confidence:.0%}"] *)
Variable pct : Q -> string.
Variable config : style_config.

(** [_render_block] with [_render_heading], [_render_paragraph],
    [_render_list], [_render_table], [_render_figure] and
    [_render_page_break]; a pending list item is no IR block and only
    logs a warning. *)
Fixpoint render_block (b : block) : list doc_event :=
  match b with
  | HeadingB h ch =>
      EPara (heading_style_name config (h_level h)) (content_of (h_runs h) (h_text h))
        (if sc_mark_low_confidence config &&
            py_lt (h_confidence h) (sc_low_confidence_threshold config)
         then Some (sc_low_confidence_highlight config,
                    ("  [" ++ pct (h_confidence h) ++ "]")%string)
         else None) ::
      (fix go (l : list block) : list doc_event :=
         match l with [] => [] | c :: r => render_block c ++ go r end) ch
  | ParagraphB p => [EPara (sc_body_style config) (content_of (p_runs p) (p_text p)) None]
  | ListB l => map EList (render_list config l)
  | TableB t => [ETable (build_table t)]
  | FigureB f =>
      EImage f :: (if String.eqb (f_caption f) "" then [] else [ECaption (f_caption f)])
  | PageBreakB _ => [EPageBreak]
  | PendingB _ => []
  end.

(** The body loop of [generate_document]. *)
Definition render_body (body : list block) : list doc_event :=
  flat_map render_block body.
End WordRender.

(** List items in pre-order, each with its depth (roots at [k]). *)
Fixpoint li_depths (k : Z) (item : list_item) : list (Z * list_item) :=
  match item with
  | ListItem _ _ children =>
      (k, item) ::
      (fix go (l : list list_item) : list (Z * list_item) :=
         match l with [] => [] | c :: r => li_depths (k + 1) c ++ go r end) children
  end.

Section ItemInd.
Variable P : list_item -> Prop.
Hypothesis P_item : forall t rs ch, Forall P ch -> P (ListItem t rs ch).

Fixpoint list_item_nested_ind (it : list_item) : P it :=
  match it with
  | ListItem t rs ch =>
      P_item t rs ch
        ((fix go (l : list list_item) : Forall P l :=
            match l with
            | [] => Forall_nil P
            | c :: r => Forall_cons c (list_item_nested_ind c) (go r)
            end) ch)
  end.
End ItemInd.

(** The paragraph [_render_list_item] writes for an item at a given depth,
    as the spec of the renderer reads: level [min(depth, 3)], [w:ilvl] one
    less. *)
Definition item_content (it : list_item) : cell_content :=
  match it with ListItem text runs _ => content_of runs text end.

Definition list_para_at (config : style_config) (ordered : bool)
    (marker_format : option string) (e : Z * list_item) : list_para :=
  let level := Z.min (fst e) 3 in
  mk_list_para (list_style_name config ordered level) (item_content (snd e))
    (level - 1) (list_num_id ordered marker_format).


(* ================================================================== *)
(** * Proofs *)

(** ** The matcher *)

Lemma flat_map_nil {A B} (g : A -> list B) (l : list A) :
  (forall x, In x l -> g x = []) -> flat_map g l = [].
Proof.
  induction l as [|a l IH]; simpl; intros H; [reflexivity|].
  rewrite H by auto. apply IH. auto.
Qed.

Lemma star_go_fuel f : forall n m st,
  length (snd st) <= n -> length (snd st) <= m ->
  star_go f n st = star_go f m st.
Proof.
  induction n as [|n IH]; intros [|m] st Hn Hm; cbn [star_go].
  - reflexivity.
  - rewrite flat_map_nil; [reflexivity|]. intros x _.
    destruct (Nat.ltb_spec (length (snd x)) (length (snd st))); [lia|reflexivity].
  - rewrite flat_map_nil; [reflexivity|]. intros x _.
    destruct (Nat.ltb_spec (length (snd x)) (length (snd st))); [lia|reflexivity].
  - f_equal. apply flat_map_ext. intros st1.
    destruct (Nat.ltb_spec (length (snd st1)) (length (snd st))); [|reflexivity].
    apply IH; lia.
Qed.

Lemma in_star r st st' :
  In st' (rmatch (RStar r) st) <->
  st' = st \/ exists st1, In st1 (rmatch r st) /\
               length (snd st1) < length (snd st) /\
               In st' (rmatch (RStar r) st1).
Proof.
  cbn [rmatch]. destruct (length (snd st)) as [|n] eqn:E; cbn [star_go].
  - split.
    + intros [H|[]]. left; auto.
    + intros [H|(st1 & _ & Hl & _)]; [left; auto|lia].
  - rewrite in_app_iff, in_flat_map. simpl. split.
    + intros [(st1 & H1 & H2)|[H|[]]]; [|left; auto].
      rewrite E in H2.
      destruct (Nat.ltb_spec (length (snd st1)) (S n)); [|contradiction].
      right. exists st1. repeat split; auto.
      rewrite (star_go_fuel _ n (length (snd st1))) in H2; auto; lia.
    + intros [H|(st1 & H1 & H2 & H3)]; [right; left; auto|].
      left. exists st1. split; auto. rewrite E.
      destruct (Nat.ltb_spec (length (snd st1)) (S n)); [|lia].
      rewrite (star_go_fuel _ n (length (snd st1))); auto; lia.
Qed.

Lemma in_seq r1 r2 st st' :
  In st' (rmatch (RSeq r1 r2) st) <->
  exists st1, In st1 (rmatch r1 st) /\ In st' (rmatch r2 st1).
Proof. cbn [rmatch]. rewrite in_flat_map. firstorder. Qed.

Lemma in_alt r1 r2 st st' :
  In st' (rmatch (RAlt r1 r2) st) <->
  In st' (rmatch r1 st) \/ In st' (rmatch r2 st).
Proof. cbn [rmatch]. apply in_app_iff. Qed.

Lemma in_eps st st' : In st' (rmatch REps st) <-> st' = st.
Proof. simpl. intuition. Qed.

Lemma in_char p pv s st' :
  In st' (rmatch (RChar p) (pv, s)) <->
  exists c t, s = c :: t /\ p c = true /\ st' = (Some c, t).
Proof.
  simpl. destruct s as [|c t].
  - split; [intros []|intros (c & t & H & _); discriminate].
  - destruct (p c) eqn:E; simpl; split.
    + intros [H|[]]. eauto.
    + intros (c' & t' & H & Hp & ->). inversion H; subst. auto.
    + intros [].
    + intros (c' & t' & H & Hp & _). inversion H; subst. congruence.
Qed.

Ltac char_step :=
  apply in_char; do 2 eexists;
  split; [reflexivity|split; [assumption|reflexivity]].

Lemma in_bound st st' :
  In st' (rmatch RBound st) <->
  st' = st /\ Bool.eqb (word_opt (fst st)) (word_opt (hd_error (snd st))) = false.
Proof.
  simpl. destruct (Bool.eqb _ _); simpl; intuition congruence.
Qed.

Lemma in_star_char p : forall k pv s st', length s <= k ->
  (In st' (rmatch (RStar (RChar p)) (pv, s)) <->
   exists n t, s = n ++ t /\ forallb p n = true /\ st' = (last_char pv n, t)).
Proof.
  induction k as [|k IH]; intros pv s st' Hk; rewrite in_star; split.
  - intros [->|(st1 & H1 & Hl & _)].
    + exists [], s. auto.
    + simpl in Hl. lia.
  - intros (n & t & -> & Hn & ->). destruct n as [|c n]; [left; reflexivity|].
    simpl in Hk. lia.
  - intros [->|(st1 & H1 & Hl & H2)].
    + exists [], s. auto.
    + apply in_char in H1. destruct H1 as (c & t1 & -> & Hc & ->).
      simpl in Hk. apply IH in H2; [|lia].
      destruct H2 as (n & t & -> & Hn & ->).
      exists (c :: n), t. simpl. rewrite Hc, Hn. auto.
  - intros (n & t & -> & Hn & ->). destruct n as [|c n]; [left; reflexivity|].
    right. simpl in Hn. apply andb_true_iff in Hn. destruct Hn as [Hc Hn].
    exists (Some c, n ++ t). split; [char_step|]. simpl.
    split; [simpl; rewrite ?length_app; simpl in *; lia|].
    apply (IH (Some c) (n ++ t)); [simpl in Hk; lia|]. eauto.
Qed.

Lemma in_plus_char p pv s st' :
  In st' (rmatch (RPlus (RChar p)) (pv, s)) <->
  exists n t, s = n ++ t /\ n <> [] /\ forallb p n = true /\
              st' = (last_char pv n, t).
Proof.
  unfold RPlus. rewrite in_seq. split.
  - intros ([pv1 s1] & H1 & H2). apply in_char in H1.
    destruct H1 as (c & t1 & -> & Hc & H). inversion H; subst.
    apply (in_star_char p _ _ _ _ (le_n _)) in H2.
    destruct H2 as (n & t & -> & Hn & ->).
    exists (c :: n), t. simpl. rewrite Hc, Hn. intuition discriminate.
  - intros (n & t & -> & Hne & Hn & ->). destruct n as [|c n]; [congruence|].
    simpl in Hn. apply andb_true_iff in Hn. destruct Hn as [Hc Hn].
    exists (Some c, n ++ t). split; [char_step|].
    apply (in_star_char p _ _ _ _ (le_n _)). exists n, t. auto.
Qed.

Lemma in_wordci w : forall pv s st',
  In st' (rmatch (RWordCI w) (pv, s)) <->
  exists kw t, s = kw ++ t /\ ci_match w kw = true /\
               st' = (last_char pv kw, t).
Proof.
  induction w as [|a w IH]; intros pv s st'; cbn [RWordCI].
  - rewrite in_eps. split.
    + intros ->. exists [], s. auto.
    + intros (kw & t & -> & Hk & ->). destruct kw; [reflexivity|discriminate].
  - rewrite in_seq. split.
    + intros ([pv1 s1] & H1 & H2). apply in_char in H1.
      destruct H1 as (c & t1 & -> & Hc & H). inversion H; subst.
      apply IH in H2. destruct H2 as (kw & t & -> & Hk & ->).
      exists (c :: kw), t. simpl. rewrite Hc, Hk. auto.
    + intros (kw & t & -> & Hk & ->). destruct kw as [|c kw]; [discriminate|].
      simpl in Hk. apply andb_true_iff in Hk. destruct Hk as [Hc Hk].
      exists (Some c, kw ++ t). split; [char_step|].
      apply IH. exists kw, t. auto.
Qed.

Lemma re_match_true r s :
  re_match r s = true <-> exists st', In st' (rmatch r (None, s)).
Proof.
  unfold re_match. destruct (rmatch r (None, s)) as [|x l]; simpl.
  - split; [discriminate|intros (? & [])].
  - split; [eauto|reflexivity].
Qed.

Lemma last_char_in p pv n :
  n <> [] -> forallb p n = true -> exists x, last_char pv n = Some x /\ p x = true.
Proof.
  revert pv. induction n as [|c n IH]; intros pv Hne Hn; [congruence|].
  simpl in Hn. apply andb_true_iff in Hn. destruct Hn as [Hc Hn].
  destruct n as [|c' n']; simpl; [eauto|].
  apply (IH (Some c)); [discriminate|exact Hn].
Qed.

Lemma roman_word c : is_roman_ci c = true -> is_word c = true.
Proof.
  destruct c as [b0 b1 b2 b3 b4 b5 b6 b7].
  destruct b0, b1, b2, b3, b4, b5, b6, b7; vm_compute; congruence.
Qed.

Lemma digit_word c : is_digit c = true -> is_word c = true.
Proof. unfold is_word. intros ->. reflexivity. Qed.

(** ** Numbering classifier *)

(** C3: [numbering_level] on the nine vectors of the spec. *)
Theorem numbering_spec_vectors :
  level_from_numbering "1. Introduction" = Some 1%Z /\
  level_from_numbering "1.2 Scope" = Some 2%Z /\
  level_from_numbering "1.2.3 Details" = Some 3%Z /\
  level_from_numbering "1 Week Lookback" = None /\
  level_from_numbering "100 items" = None /\
  level_from_numbering "A.1 Section" = Some 2%Z /\
  level_from_numbering "B.2.1 Sub" = Some 3%Z /\
  level_from_numbering "2.2" = Some 2%Z /\
  level_from_numbering "12 Monkeys" = None.
Proof. repeat split; vm_compute; reflexivity. Qed.

(** ** Structural markers *)

(** C5, refuted: after PART or CHAPTER the pattern of
    [_is_structural_marker] admits roman-numeral letters or digits only,
    so "PART A - GENERAL" (a single non-roman letter) is not a structural
    marker, although the level-1 pattern accepts it. *)
Lemma structural_marker_part_letter :
  is_structural_marker "PART A - GENERAL" = false /\
  is_level1_structural "PART A - GENERAL" = true.
Proof. split; vm_compute; reflexivity. Qed.

(** C5, as amended: [is_structural_marker text] holds exactly when the
    stripped text is PART or CHAPTER (any case), whitespace, and a run of
    roman-numeral letters I V X L C D M (any case) or of digits ending at a
    word boundary. *)
Theorem structural_marker_shape (text : string) :
  is_structural_marker text = true <-> structural_shape (py_strip (chars text)).
Proof.
  unfold is_structural_marker, structural_marker_re.
  generalize (py_strip (chars text)) as s. intros s.
  rewrite re_match_true. split.
  - intros (st' & H).
    apply in_seq in H as ([pv1 s1] & H1 & H). apply in_alt in H1.
    assert (Hkw : exists kw, s = kw ++ s1 /\
              (ci_match (chars "PART") kw = true \/
               ci_match (chars "CHAPTER") kw = true)).
    { destruct H1 as [H1|H1]; apply in_wordci in H1;
        destruct H1 as (kw & t & -> & Hk & E); inversion E; subst; eauto. }
    destruct Hkw as (kw & -> & Hkw).
    apply in_seq in H as ([pv2 s2] & H2 & H).
    apply in_plus_char in H2 as (ws & t2 & -> & Hws & Hws' & E2).
    inversion E2; subst.
    apply in_seq in H as ([pv3 s3] & H3 & H). apply in_alt in H3.
    assert (Hn : exists num, t2 = num ++ s3 /\ num <> [] /\
              (forallb is_roman_ci num = true \/ forallb is_digit num = true) /\
              exists x, pv3 = Some x /\ is_word x = true).
    { destruct H3 as [H3|H3].
      - apply in_plus_char in H3 as (num & t3 & -> & Hne & Hp & E3).
        inversion E3; subst. exists num. split; [reflexivity|].
        split; [exact Hne|]. split; [auto|].
        match goal with |- exists x, last_char ?pv _ = _ /\ _ =>
          destruct (last_char_in _ pv _ Hne Hp) as (x & Hx & Hpx) end.
        exists x. split; [exact Hx|]. apply roman_word. exact Hpx.
      - apply in_plus_char in H3 as (num & t3 & -> & Hne & Hp & E3).
        inversion E3; subst. exists num. split; [reflexivity|].
        split; [exact Hne|]. split; [auto|].
        match goal with |- exists x, last_char ?pv _ = _ /\ _ =>
          destruct (last_char_in _ pv _ Hne Hp) as (x & Hx & Hpx) end.
        exists x. split; [exact Hx|]. apply digit_word. exact Hpx. }
    destruct Hn as (num & -> & Hne & Hnum & x & -> & Hx).
    apply in_bound in H as [_ Hb]. simpl in Hb. rewrite Hx in Hb.
    exists kw, ws, num, s3. repeat split; auto.
    destruct s3 as [|c s3]; simpl in *; auto.
    destruct (is_word c); [discriminate|reflexivity].
  - intros (kw & ws & num & rest & -> & Hkw & Hws & Hws' & Hne & Hnum & Hrest).
    eexists. apply in_seq. exists (last_char None kw, ws ++ num ++ rest). split.
    { apply in_alt. destruct Hkw; [left|right]; apply in_wordci;
        exists kw, (ws ++ num ++ rest); auto. }
    apply in_seq. exists (last_char (last_char None kw) ws, num ++ rest). split.
    { apply in_plus_char. exists ws, (num ++ rest). auto. }
    apply in_seq. exists (last_char (last_char (last_char None kw) ws) num, rest).
    split.
    { apply in_alt. destruct Hnum; [left|right]; apply in_plus_char;
        exists num, rest; auto. }
    apply in_bound. split; [reflexivity|]. simpl.
    assert (Hw : word_opt (last_char (last_char (last_char None kw) ws) num) = true).
    { destruct Hnum as [Hp|Hp].
      - destruct (last_char_in _ (last_char (last_char None kw) ws) _ Hne Hp)
          as (x & -> & Hx). apply roman_word. exact Hx.
      - destruct (last_char_in _ (last_char (last_char None kw) ws) _ Hne Hp)
          as (x & -> & Hx). apply digit_word. exact Hx. }
    rewrite Hw. destruct rest as [|c rest]; simpl; [reflexivity|].
    rewrite Hrest. reflexivity.
Qed.

(** ** Single-segment numbering *)

Ltac ascii_cases x :=
  destruct x as [[] [] [] [] [] [] [] []].

Lemma digit_facts x : is_digit x = true ->
  is_space x = false /\ lit_char "." x = false /\ Ascii.eqb x "." = false /\
  is_upper x = false.
Proof.
  intros H. ascii_cases x; vm_compute in H; try discriminate;
    repeat split; reflexivity.
Qed.

Lemma space_facts x : is_space x = true ->
  is_digit x = false /\ lit_char "." x = false /\ is_upper x = false /\
  is_lower x = false.
Proof.
  intros H. ascii_cases x; vm_compute in H; try discriminate;
    repeat split; reflexivity.
Qed.

Lemma seq_char_fail q R pv x t :
  q x = false -> rmatch (RSeq (RChar q) R) (pv, x :: t) = [].
Proof. intros H. simpl. rewrite H. reflexivity. Qed.

Lemma seq_char_pass q R pv x t :
  q x = true -> rmatch (RSeq (RChar q) R) (pv, x :: t) = rmatch R (Some x, t).
Proof. intros H. simpl. rewrite H. simpl. apply app_nil_r. Qed.

Lemma seq_nil A B st : rmatch A st = [] -> rmatch (RSeq A B) st = [].
Proof. intros H. cbn [rmatch]. rewrite H. reflexivity. Qed.

Lemma nonempty_in {A} (l : list A) : nonempty l = true <-> exists x, In x l.
Proof.
  destruct l as [|a l]; simpl.
  - split; [discriminate|intros (x & [])].
  - split; [eauto|reflexivity].
Qed.

Lemma run_prefix (p : ascii -> bool) (ds y n t : list ascii) :
  forallb p ds = true -> forallb p n = true ->
  match y with x :: _ => p x = false | [] => True end ->
  ds ++ y = n ++ t ->
  (n = ds /\ t = y) \/ (exists x t', t = x :: t' /\ p x = true).
Proof.
  revert ds. induction n as [|a n IH]; intros ds Hds Hn Hy E.
  - simpl in E. destruct ds as [|d ds].
    + left. auto.
    + right. exists d, (ds ++ y). split; [auto|].
      simpl in Hds. apply andb_true_iff in Hds. tauto.
  - simpl in Hn. apply andb_true_iff in Hn. destruct Hn as [Ha Hn].
    destruct ds as [|d ds].
    + simpl in E. subst y. congruence.
    + simpl in E. inversion E; subst.
      simpl in Hds. apply andb_true_iff in Hds. destruct Hds as [_ Hds].
      destruct (IH ds Hds Hn Hy H1) as [[-> ->]|H]; [left; auto|right; auto].
Qed.

(** Maximal munch: a run of class [p] followed by a pattern that cannot
    start with a character of [p] consumes the whole run. *)
Lemma plus_munch p B pv ds y st' :
  ds <> [] -> forallb p ds = true ->
  (forall pv' x t, p x = true -> rmatch B (pv', x :: t) = []) ->
  match y with x :: _ => p x = false | [] => True end ->
  In st' (rmatch (RSeq (RPlus (RChar p)) B) (pv, ds ++ y)) <->
  In st' (rmatch B (last_char pv ds, y)).
Proof.
  intros Hne Hds HB Hy. rewrite in_seq. split.
  - intros ([pv1 t] & H1 & H2). apply in_plus_char in H1.
    destruct H1 as (n & t' & E & Hn & Hpn & E').
    injection E' as -> ->.
    destruct (run_prefix p ds y n t' Hds Hpn Hy E) as [[-> ->]|(x & t'' & -> & Hx)].
    + exact H2.
    + rewrite HB in H2 by exact Hx. destruct H2.
  - intros H. exists (last_char pv ds, y). split; [|exact H].
    apply in_plus_char. exists ds, y. auto.
Qed.

Lemma munch_nonempty p B pv ds y :
  ds <> [] -> forallb p ds = true ->
  (forall pv' x t, p x = true -> rmatch B (pv', x :: t) = []) ->
  match y with x :: _ => p x = false | [] => True end ->
  nonempty (rmatch (RSeq (RPlus (RChar p)) B) (pv, ds ++ y)) =
  nonempty (rmatch B (last_char pv ds, y)).
Proof.
  intros Hne Hds HB Hy.
  destruct (nonempty (rmatch B (last_char pv ds, y))) eqn:E.
  - apply nonempty_in in E as (st' & H). apply nonempty_in. exists st'.
    apply plus_munch; auto.
  - destruct (nonempty (rmatch (RSeq (RPlus (RChar p)) B) (pv, ds ++ y))) eqn:E';
      [|reflexivity].
    apply nonempty_in in E' as (st' & H). apply plus_munch in H; auto.
    assert (Hc : nonempty (rmatch B (last_char pv ds, y)) = true)
      by (apply nonempty_in; eauto).
    congruence.
Qed.

Lemma lstrip_mid u c v :
  is_space c = false -> exists u', lstrip (u ++ c :: v) = u' ++ c :: v.
Proof.
  intros Hc. induction u as [|a u IH]; simpl.
  - exists []. rewrite Hc. reflexivity.
  - destruct (is_space a); [exact IH|]. exists (a :: u). reflexivity.
Qed.

Lemma strip_digit_start d0 x c z :
  is_space d0 = false -> is_space c = false ->
  exists z', py_strip (d0 :: x ++ c :: z) = d0 :: x ++ c :: z'.
Proof.
  intros Hd Hc. unfold py_strip. simpl lstrip at 2. rewrite Hd.
  replace (rev (d0 :: x ++ c :: z)) with (rev z ++ c :: rev (d0 :: x))
    by (simpl; rewrite rev_app_distr; simpl; rewrite <- !app_assoc; reflexivity).
  destruct (lstrip_mid (rev z) c (rev (d0 :: x)) Hc) as (u' & ->).
  exists (rev u'). rewrite rev_app_distr.
  change (rev (c :: rev (d0 :: x))) with (rev (rev (d0 :: x)) ++ [c]).
  rewrite rev_involutive, <- app_assoc. reflexivity.
Qed.

Lemma split_digits n : forallb is_digit n = true -> py_split "." n = [n].
Proof.
  induction n as [|a n IH]; simpl; intros H; [reflexivity|].
  apply andb_true_iff in H. destruct H as [Ha Hn].
  destruct (digit_facts a Ha) as (_ & _ & -> & _). rewrite IH by exact Hn.
  reflexivity.
Qed.

Lemma in_nil_iff {A} (l : list A) : (forall x, ~ In x l) -> l = [].
Proof. destruct l as [|a l]; intros H; [reflexivity|]. exfalso. apply (H a). left. auto. Qed.

Lemma rgroup_eps_nil g post s :
  rmatch g (None, s) = [] -> rgroup REps g post s = None.
Proof. intros H. unfold rgroup. simpl. rewrite H. reflexivity. Qed.

Lemma rgroup_eps_some g post s x :
  rgroup REps g post s = Some x ->
  exists st1, In st1 (rmatch g (None, s)) /\
              nonempty (rmatch post st1) = true /\
              x = firstn (length s - length (snd st1)) s.
Proof.
  unfold rgroup. simpl. rewrite app_nil_r.
  destruct (find _ _) as [[st0 st1]|] eqn:E; [|discriminate].
  intros H. injection H as <-. apply find_some in E. destruct E as [E Hp].
  apply in_map_iff in E. destruct E as (st & Eq & Hin). injection Eq as <- <-.
  exists st. split; [exact Hin|]. split; [exact Hp | reflexivity].
Qed.

Lemma rgroup_eps_exists g post s :
  (exists st1, In st1 (rmatch g (None, s)) /\ nonempty (rmatch post st1) = true) ->
  exists x, rgroup REps g post s = Some x.
Proof.
  intros (st1 & Hin & Hp). unfold rgroup. simpl. rewrite app_nil_r.
  destruct (find _ _) as [[st0 st2]|] eqn:E; [eauto|].
  exfalso. assert (Hf := find_none _ _ E ((None, s), st1)).
  simpl in Hf. rewrite Hf in Hp; [discriminate|]. apply in_map. exact Hin.
Qed.

Lemma firstn_prefix (n t : list ascii) :
  firstn (length (n ++ t) - length t) (n ++ t) = n.
Proof.
  replace (length (n ++ t) - length t) with (length n) by (rewrite length_app; lia).
  rewrite firstn_app, Nat.sub_diag, firstn_all. simpl. apply app_nil_r.
Qed.

Lemma flat_map_nonempty {A B} (g : A -> list B) (l : list A) :
  (forall x, nonempty (g x) = true) -> nonempty (flat_map g l) = nonempty l.
Proof.
  intros H. destruct l as [|a l]; [reflexivity|]. simpl.
  specialize (H a). destruct (g a); [discriminate|reflexivity].
Qed.

Lemma star_nonempty r st : nonempty (rmatch (RStar r) st) = true.
Proof. apply nonempty_in. exists st. apply in_star. left. reflexivity. Qed.

Section SingleSegment.
(** A text made of a run of digits [ds], a separator ([.] and whitespace,
    or whitespace) and a non-space character [c]. *)
Variables (ds ws rest : list ascii) (c : ascii) (dotted : bool).
Hypotheses (Hds_ne : ds <> []) (Hds : forallb is_digit ds = true)
  (Hws_ne : ws <> []) (Hws : forallb is_space ws = true)
  (Hc : is_space c = false).

Local Abbreviation sep := (if dotted then "."%char :: ws else ws).

Lemma sep_not_digit tl :
  match sep ++ tl with x :: _ => is_digit x = false | [] => True end.
Proof.
  destruct dotted; [reflexivity|].
  destruct ws as [|w ws']; [congruence|]. simpl in Hws |- *.
  apply andb_true_iff in Hws. apply space_facts. tauto.
Qed.

Lemma dotnum_fail pv tl : rmatch (RSeq dot (RPlus d)) (pv, sep ++ tl) = [].
Proof.
  destruct ws as [|w ws'] eqn:Ew; [congruence|].
  simpl in Hws. apply andb_true_iff in Hws. destruct Hws as [Hw _].
  destruct (space_facts w Hw) as (Hwd & Hwdot & _).
  unfold dot, d, RPlus. destruct dotted; simpl app.
  - rewrite seq_char_pass by reflexivity.
    apply seq_char_fail. exact Hwd.
  - apply seq_char_fail. exact Hwdot.
Qed.

Lemma digit_start_fail R : forall pv x t, is_digit x = true ->
  rmatch (RSeq dot R) (pv, x :: t) = [].
Proof.
  unfold dot.
  intros pv x t Hx. apply seq_char_fail. apply digit_facts. exact Hx.
Qed.

Lemma bare_none :
  rgroup REps num_multi bare_post (py_strip (ds ++ sep ++ c :: rest)) = None.
Proof.
  destruct ds as [|d0 ds'] eqn:Eds; [congruence|].
  simpl in Hds. apply andb_true_iff in Hds. destruct Hds as [Hd0 Hds'].
  destruct (strip_digit_start d0 (ds' ++ sep) c rest
              (proj1 (digit_facts d0 Hd0)) Hc) as (z' & Ez).
  simpl app. rewrite app_assoc, Ez.
  apply rgroup_eps_nil. apply in_nil_iff. intros st' H.
  rewrite <- app_assoc in H. change (d0 :: ds' ++ sep ++ c :: z') with
    ((d0 :: ds') ++ sep ++ c :: z') in H.
  unfold num_multi, d in H.
  apply plus_munch in H.
  - unfold RPlus at 1 in H. rewrite seq_nil in H; [destruct H|].
    apply dotnum_fail.
  - discriminate.
  - simpl. rewrite Hd0. exact Hds'.
  - intros pv' x t Hx. unfold RPlus. apply seq_nil. apply digit_start_fail. exact Hx.
  - apply sep_not_digit.
Qed.

Lemma numbered_group :
  exists g, rgroup REps num_any numbered_post (ds ++ sep ++ c :: rest) = Some g /\
            length (py_split "." g) = 1.
Proof.
  destruct (rgroup_eps_exists num_any numbered_post (ds ++ sep ++ c :: rest))
    as (g & Eg).
  - exists (last_char None ds, sep ++ c :: rest). split.
    + unfold num_any. apply in_seq. exists (last_char None ds, sep ++ c :: rest).
      split; [apply in_plus_char; exists ds, (sep ++ c :: rest); auto|].
      apply in_star. left. reflexivity.
    + apply nonempty_in. exists (Some c, rest). unfold numbered_post, sp, nsp, dot.
      assert (Hrun : In (Some c, rest) (rmatch (RSeq (RPlus (RChar is_space))
                       (RChar (fun c0 => negb (is_space c0))))
                       (if dotted then Some "."%char else last_char None ds,
                        ws ++ c :: rest))).
      { apply in_seq. eexists. split.
        - apply in_plus_char. exists ws, (c :: rest). repeat split; eauto.
        - apply in_char. exists c, rest. rewrite Hc. auto. }
      apply in_seq. exists (if dotted then Some "."%char else last_char None ds,
                            ws ++ c :: rest).
      split; [|exact Hrun].
      apply in_alt. destruct dotted; [left|right].
      * apply in_char. exists "."%char, (ws ++ c :: rest). auto.
      * apply in_eps. reflexivity.
  - exists g. split; [exact Eg|].
    apply rgroup_eps_some in Eg. destruct Eg as ([pv1 t1] & H & _ & ->).
    unfold num_any in H. apply in_seq in H. destruct H as ([pv0 t0] & H0 & H1).
    apply in_plus_char in H0. destruct H0 as (n & t & E & Hne & Hn & E0).
    injection E0 as -> ->.
    apply in_star in H1. destruct H1 as [E1|(st2 & H2 & _)].
    + injection E1 as -> ->. simpl snd. rewrite E, firstn_prefix.
      rewrite split_digits by exact Hn. reflexivity.
    + exfalso.
      destruct (run_prefix is_digit ds (sep ++ c :: rest) n t Hds Hn
                  (sep_not_digit _) E) as [[_ ->]|(x & t' & -> & Hx)].
      * rewrite dotnum_fail in H2. destruct H2.
      * rewrite digit_start_fail in H2 by exact Hx. destruct H2.
Qed.

Lemma seq_star_nonempty A r st :
  nonempty (rmatch (RSeq A (RStar r)) st) = nonempty (rmatch A st).
Proof.
  change (rmatch (RSeq A (RStar r)) st) with (flat_map (rmatch (RStar r)) (rmatch A st)).
  apply flat_map_nonempty. apply star_nonempty.
Qed.

Lemma rep4_low pv l : nonempty (rmatch (RRep 4 low) (pv, l)) = four_lower l.
Proof.
  unfold low. destruct l as [|a [|b [|e [|f t]]]]; simpl;
    repeat (cbn; match goal with |- context [is_lower ?x] => destruct (is_lower x) end);
    reflexivity.
Qed.

Lemma rep2_up pv x l :
  nonempty (rmatch (RRep 2 up) (pv, x :: l)) = is_upper x && starts_upper l.
Proof.
  unfold up. destruct l as [|a t]; simpl;
    repeat (cbn; match goal with |- context [is_upper ?x] => destruct (is_upper x) end);
    reflexivity.
Qed.

Lemma capword_tail pv x l :
  nonempty (rmatch (RSeq up (RSeq (RRep 4 low) (RStar low))) (pv, x :: l)) =
  is_upper x && four_lower l.
Proof.
  unfold up. destruct (is_upper x) eqn:Eu.
  - rewrite seq_char_pass by exact Eu. rewrite seq_star_nonempty. apply rep4_low.
  - rewrite seq_char_fail by exact Eu. reflexivity.
Qed.

Lemma space_run_fail R pv tl :
  rmatch (RSeq (RPlus sp) R) (pv, "."%char :: tl) = [].
Proof. unfold sp, RPlus. apply seq_nil. apply seq_char_fail. reflexivity. Qed.

Lemma cond_dot_space :
  re_match re_num_dot_space (ds ++ sep ++ c :: rest) = dotted.
Proof.
  unfold re_match, re_num_dot_space, d.
  rewrite munch_nonempty; [| exact Hds_ne | exact Hds
    | intros pv' x t Hx; apply digit_start_fail; exact Hx | apply sep_not_digit].
  destruct ws as [|w ws'] eqn:Ew; [congruence|].
  simpl in Hws. apply andb_true_iff in Hws. destruct Hws as [Hw _].
  destruct (space_facts w Hw) as (Hwd & Hwdot & _).
  unfold dot, sp. destruct dotted; simpl app.
  - rewrite seq_char_pass by reflexivity. simpl. rewrite Hw. reflexivity.
  - rewrite seq_char_fail by exact Hwdot. reflexivity.
Qed.

Lemma cond_dot_digit :
  re_match re_num_dot_digit (ds ++ sep ++ c :: rest) = false.
Proof.
  unfold re_match, re_num_dot_digit, d.
  rewrite munch_nonempty; [| exact Hds_ne | exact Hds
    | intros pv' x t Hx; apply digit_start_fail; exact Hx | apply sep_not_digit].
  destruct ws as [|w ws'] eqn:Ew; [congruence|].
  simpl in Hws. apply andb_true_iff in Hws. destruct Hws as [Hw _].
  destruct (space_facts w Hw) as (Hwd & Hwdot & _).
  unfold dot. destruct dotted; simpl app.
  - rewrite seq_char_pass by reflexivity. simpl. rewrite Hwd. reflexivity.
  - rewrite seq_char_fail by exact Hwdot. reflexivity.
Qed.

Lemma cond_caps :
  re_match re_num_caps (ds ++ sep ++ c :: rest) =
  negb dotted && is_upper c && starts_upper rest.
Proof.
  unfold re_match, re_num_caps, d.
  rewrite munch_nonempty; [| exact Hds_ne | exact Hds
    | intros pv' x t Hx; unfold sp, RPlus; apply seq_nil; apply seq_char_fail;
      apply digit_facts; exact Hx
    | apply sep_not_digit].
  destruct dotted; simpl app.
  - rewrite space_run_fail. reflexivity.
  - unfold sp. rewrite munch_nonempty; [| exact Hws_ne | exact Hws
      | intros pv' x t Hx; unfold up; simpl RRep; apply seq_char_fail;
        apply space_facts; exact Hx
      | exact Hc].
    apply rep2_up.
Qed.

Lemma cond_capword :
  re_match re_digit_capword (ds ++ sep ++ c :: rest) =
  negb dotted && (length ds =? 1) && is_upper c && four_lower rest.
Proof.
  unfold re_match, re_digit_capword, d.
  destruct ds as [|d0 ds'] eqn:Eds; [congruence|].
  simpl in Hds. apply andb_true_iff in Hds. destruct Hds as [Hd0 Hds'].
  rewrite <- app_comm_cons, seq_char_pass by exact Hd0.
  destruct ds' as [|d1 ds''].
  - rewrite app_nil_l. destruct dotted; simpl app.
    + rewrite space_run_fail. reflexivity.
    + unfold sp. rewrite munch_nonempty; [| exact Hws_ne | exact Hws
        | intros pv' x t Hx; unfold up; apply seq_char_fail;
          apply space_facts; exact Hx
        | exact Hc].
      apply capword_tail.
  - simpl in Hds'. apply andb_true_iff in Hds'. destruct Hds' as [Hd1 _].
    rewrite <- app_comm_cons. unfold sp, RPlus. rewrite seq_nil.
    + cbn [length Nat.eqb]. destruct dotted; reflexivity.
    + apply seq_char_fail. apply digit_facts. exact Hd1.
Qed.

(** Claim C4 (amended). For a text made of a run of digits, then either a
    dot followed by whitespace or whitespace alone, then a non-space
    character [c] and any [rest], [_level_from_numbering] gives level 1
    exactly when the dot is present, or [c] and the next character are
    upper case (two capitals), or the digit run is a SINGLE digit and [c]
    is an upper-case letter followed by at least four lower-case letters;
    otherwise it gives no level.  In particular a multi-digit number
    followed by a capitalised word ("10 Safety Instructions") gets no level. *)
Theorem numbering_single_segment :
  level_from_numbering (string_of_list_ascii (ds ++ sep ++ c :: rest)) =
  if dotted || (is_upper c && starts_upper rest)
     || ((length ds =? 1) && is_upper c && four_lower rest)
  then Some 1%Z else None.
Proof.
  unfold level_from_numbering, chars.
  rewrite list_ascii_of_string_of_list_ascii. cbv zeta.
  rewrite bare_none.
  destruct numbered_group as (g & Eg & Hg). rewrite Eg, Hg.
  rewrite cond_dot_space, cond_dot_digit, cond_caps, cond_capword.
  destruct dotted, (is_upper c), (starts_upper rest), (length ds =? 1),
    (four_lower rest); reflexivity.
Qed.

End SingleSegment.

(** Claim C4 (counterexample). "10 Safety Instructions" starts with a
    single numeric segment followed by a capitalised word of six letters,
    yet gets no level, while "3 Safety Instructions" gets level 1: the
    capitalised-word qualifier only applies to a single-digit number. *)
Lemma numbering_multi_digit_capword :
  level_from_numbering "10 Safety Instructions" = None /\
  level_from_numbering "3 Safety Instructions" = Some 1%Z.
Proof. split; vm_compute; reflexivity. Qed.

Lemma numbering_single_segment_witness :
  level_from_numbering "10 Safety Instructions" = None /\
  level_from_numbering "3. lower case" = Some 1%Z.
Proof.
  split.
  - exact (numbering_single_segment (chars "10") (chars " ")
             (chars "afety Instructions") "S"%char false
             ltac:(vm_compute; discriminate) eq_refl
             ltac:(vm_compute; discriminate) eq_refl eq_refl).
  - exact (numbering_single_segment (chars "3") (chars " ")
             (chars "ower case") "l"%char true
             ltac:(vm_compute; discriminate) eq_refl
             ltac:(vm_compute; discriminate) eq_refl eq_refl).
Defined.

(** ** Heading level resolution *)

Lemma py_max_Qmax a b : py_max a b = Qmax a b.
Proof.
  unfold py_max, Qmax, GenericMinMax.gmax.
  destruct (Qcompare_spec a b) as [E|E|E].
  - assert (Qle_bool b a = true) as -> by (apply Qle_bool_iff; rewrite E; apply Qle_refl).
    reflexivity.
  - assert (Qle_bool b a = false) as ->.
    { apply not_true_iff_false. rewrite Qle_bool_iff. intros H. apply Qle_not_lt in H.
      exact (H E). }
    reflexivity.
  - assert (Qle_bool b a = true) as -> by (apply Qle_bool_iff; apply Qlt_le_weak; exact E).
    reflexivity.
Qed.

Lemma py_min_Qmin a b : py_min a b = Qmin a b.
Proof.
  unfold py_min, Qmin, GenericMinMax.gmin.
  destruct (Qcompare_spec a b) as [E|E|E].
  - assert (Qle_bool a b = true) as -> by (apply Qle_bool_iff; rewrite E; apply Qle_refl).
    reflexivity.
  - assert (Qle_bool a b = true) as -> by (apply Qle_bool_iff; apply Qlt_le_weak; exact E).
    reflexivity.
  - assert (Qle_bool a b = false) as ->.
    { apply not_true_iff_false. rewrite Qle_bool_iff. intros H. apply Qle_not_lt in H.
      exact (H E). }
    reflexivity.
Qed.

Lemma resolve_heading_state off st h :
  snd (resolve_heading off st h) =
  mk_resolve_state true (h_level (fst (resolve_heading off st h))).
Proof.
  unfold resolve_heading.
  destruct (is_level1_structural (h_text h)); [reflexivity|].
  destruct (level_from_numbering (h_text h)); [reflexivity|].
  destruct (negb (first_heading_seen st)); reflexivity.
Qed.

Lemma resolve_heading_fields off st h :
  let h' := fst (resolve_heading off st h) in
  h_text h' = h_text h /\ h_page h' = h_page h /\ h_runs h' = h_runs h.
Proof.
  unfold resolve_heading.
  destruct (is_level1_structural (h_text h)); [auto|].
  destruct (level_from_numbering (h_text h)); [auto|].
  destruct (negb (first_heading_seen st)); auto.
Qed.

Lemma resolve_loop_nth off : forall xs st i h ch,
  nth_error xs i = Some (HeadingB h ch) ->
  nth_error (resolve_loop off st xs) i =
  Some (HeadingB (fst (resolve_heading off
          (state_after st (firstn i (resolve_loop off st xs))) h)) ch).
Proof.
  induction xs as [|x xs IH]; intros st i h ch Hi.
  - destruct i; discriminate.
  - destruct i as [|i].
    + simpl in Hi. injection Hi as ->. simpl.
      destruct (resolve_heading off st h) as [h' st'] eqn:E. reflexivity.
    + simpl in Hi. destruct x as [h0 ch0| | | | | |]; simpl;
        try (apply IH; exact Hi).
      destruct (resolve_heading off st h0) as [h0' st'] eqn:E. simpl.
      assert (Est : st' = mk_resolve_state true (h_level h0')).
      { pose proof (resolve_heading_state off st h0) as Hs. rewrite E in Hs. exact Hs. }
      subst st'. apply IH. exact Hi.
Qed.

Lemma last_heading_level_none d : forall l,
  existsb is_heading_block l = false -> last_heading_level d l = d.
Proof.
  induction l as [|b l IH]; intros H; [reflexivity|].
  destruct b; simpl in H |- *; try discriminate; apply IH; exact H.
Qed.

Lemma state_after_spec : forall l st,
  state_after st l =
  if existsb is_heading_block l
  then mk_resolve_state true (last_heading_level (last_level st) l) else st.
Proof.
  induction l as [|b l IH]; intros st; [reflexivity|].
  destruct b; simpl; rewrite IH; try reflexivity.
  simpl last_level. destruct (existsb is_heading_block l) eqn:E; [reflexivity|].
  rewrite last_heading_level_none by exact E. reflexivity.
Qed.

Lemma resolve_loop_length off : forall xs st,
  length (resolve_loop off st xs) = length xs.
Proof.
  induction xs as [|x xs IH]; intros st; [reflexivity|].
  destruct x; simpl; try (f_equal; apply IH).
  destruct (resolve_heading off st h). simpl. f_equal. apply IH.
Qed.

Lemma resolve_loop_other off : forall xs st i b,
  nth_error xs i = Some b -> is_heading_block b = false ->
  nth_error (resolve_loop off st xs) i = Some b.
Proof.
  induction xs as [|x xs IH]; intros st i b Hi Hb.
  - destruct i; discriminate.
  - destruct i as [|i].
    + simpl in Hi. injection Hi as ->. destruct b; try discriminate; reflexivity.
    + simpl in Hi. destruct x; simpl; try (apply IH; assumption).
      destruct (resolve_heading off st h). simpl. apply IH; assumption.
Qed.

(** Claim C1. The resolver keeps the length of the sequence and every
    non-heading block, and gives the heading at position [i] (same text,
    page, runs and children) the level and confidence of the first
    applicable rule: a level-1 structural marker gets level 1 and
    confidence at least 0.95; else a numbering level [n] gives
    [min(n + offset, 9)] (offset 1 when [has_parts]) with the confidence
    unchanged; else, when no heading precedes it, level 1 with confidence
    at most 0.80; else the level of the previous heading (of the output)
    with confidence at most 0.50. On the two example sequences of the
    spec (with [has_parts]) it gives the levels [1;2;3;4] and
    [1;2;3;3;3]. *)
Theorem resolve_heading_rules :
  (forall (xs : list block) (has_parts : bool) (i : nat) (h : heading)
          (ch : list block),
   nth_error xs i = Some (HeadingB h ch) ->
   let out := resolve_heading_levels xs has_parts in
   let prior := firstn i out in
   let offset := if has_parts then 1%Z else 0%Z in
   exists h',
     nth_error out i = Some (HeadingB h' ch) /\
     h_text h' = h_text h /\ h_page h' = h_page h /\ h_runs h' = h_runs h /\
     (if is_level1_structural (h_text h) then
        h_level h' = 1%Z /\ h_confidence h' = Qmax (h_confidence h) (95 # 100)
      else match level_from_numbering (h_text h) with
      | Some n => h_level h' = Z.min (n + offset) 9 /\
                  h_confidence h' = h_confidence h
      | None =>
          if negb (existsb is_heading_block prior) then
            h_level h' = 1%Z /\ h_confidence h' = Qmin (h_confidence h) (80 # 100)
          else
            h_level h' = last_heading_level 2 prior /\
            h_confidence h' = Qmin (h_confidence h) (50 # 100)
      end)) /\
  (forall xs has_parts,
   length (resolve_heading_levels xs has_parts) = length xs /\
   forall i b, nth_error xs i = Some b -> is_heading_block b = false ->
   nth_error (resolve_heading_levels xs has_parts) i = Some b) /\
  heading_levels (resolve_heading_levels
    (map candidate ["PART I - GENERAL"; "1. Introduction"; "1.1 Purpose";
                    "1.1.1 Sub"]%string) true) = [1; 2; 3; 4]%Z /\
  heading_levels (resolve_heading_levels
    (map candidate ["PART I - GENERAL"; "2. TECHNICAL SUPPORT";
                    "2.3 Project Document Control"; "RFI's"; "SUBMITTALS"]%string)
    true) = [1; 2; 3; 3; 3]%Z.
Proof.
  split; [|split; [|split; vm_compute; reflexivity]].
  - intros xs has_parts i h ch Hi out prior offset.
    exists (fst (resolve_heading offset (state_after (mk_resolve_state false 2)
                                          prior) h)).
    destruct (resolve_heading_fields offset
                (state_after (mk_resolve_state false 2) prior) h) as (Ht & Hp & Hr).
    split; [apply resolve_loop_nth; exact Hi|].
    split; [exact Ht|]. split; [exact Hp|]. split; [exact Hr|].
    rewrite state_after_spec. simpl last_level.
    unfold resolve_heading.
    destruct (is_level1_structural (h_text h));
      [simpl; rewrite py_max_Qmax; auto|].
    destruct (level_from_numbering (h_text h)); [simpl; auto|].
    destruct (existsb is_heading_block prior); simpl; rewrite py_min_Qmin; auto.
  - intros xs has_parts. split.
    + apply resolve_loop_length.
    + intros i b Hi Hb. apply resolve_loop_other; assumption.
Qed.

Lemma resolve_heading_rules_witness :
  nth_error (resolve_heading_levels
    (map candidate ["PART I - GENERAL"; "RFI's"]%string) true) 1 =
  Some (HeadingB (mk_heading (Some 1%Z) 1%Z "RFI's" [] (50 # 100)
                   (Some "level:inherited_1"))%string []) /\
  exists h', nth_error (resolve_heading_levels
    (map candidate ["PART I - GENERAL"; "RFI's"]%string) true) 1 =
    Some (HeadingB h' []) /\ h_level h' = 1%Z.
Proof.
  split; [vm_compute; reflexivity|].
  destruct (proj1 resolve_heading_rules
              (map candidate ["PART I - GENERAL"; "RFI's"]%string) true 1
              (mk_heading (Some 1%Z) 2%Z "RFI's" [] 1%Q None) [] eq_refl)
    as (h' & E & _ & _ & _ & L).
  exists h'. split; [exact E|].
  revert L. vm_compute. intros [L _]. exact L.
Defined.

Lemma resolve_heading_level_text off st h1 h2 :
  h_text h1 = h_text h2 ->
  h_level (fst (resolve_heading off st h1)) =
  h_level (fst (resolve_heading off st h2)).
Proof.
  intros E. unfold resolve_heading. rewrite E.
  destruct (is_level1_structural (h_text h2)); [reflexivity|].
  destruct (level_from_numbering (h_text h2)); [reflexivity|].
  destruct (negb (first_heading_seen st)); reflexivity.
Qed.

Lemma resolve_loop_twice off : forall xs st,
  map level_of_block (resolve_loop off st (resolve_loop off st xs)) =
  map level_of_block (resolve_loop off st xs).
Proof.
  induction xs as [|x xs IH]; intros st; [reflexivity|].
  destruct x as [h ch| | | | | |]; simpl; try (f_equal; apply IH).
  destruct (resolve_heading off st h) as [h' st'] eqn:E. simpl.
  destruct (resolve_heading off st h') as [h'' st''] eqn:E'. simpl.
  assert (Hl : h_level h'' = h_level h').
  { replace h'' with (fst (resolve_heading off st h')) by (rewrite E'; reflexivity).
    replace h' with (fst (resolve_heading off st h)) at 2 by (rewrite E; reflexivity).
    apply resolve_heading_level_text.
    pose proof (proj1 (resolve_heading_fields off st h)) as Ht.
    rewrite E in Ht. exact Ht. }
  assert (Hs : st'' = st').
  { pose proof (resolve_heading_state off st h) as Hs. rewrite E in Hs.
    pose proof (resolve_heading_state off st h') as Hs'. rewrite E' in Hs'.
    simpl in Hs, Hs'. rewrite Hs, Hs', Hl. reflexivity. }
  rewrite Hl, Hs. f_equal. apply IH.
Qed.

(** Claim C7. Running the resolver a second time on its own output, with
    the same [has_parts] flag, leaves the level of every heading (and the
    position of every heading) unchanged. *)
Theorem resolve_idempotent_levels (xs : list block) (has_parts : bool) :
  map level_of_block
    (resolve_heading_levels (resolve_heading_levels xs has_parts) has_parts) =
  map level_of_block (resolve_heading_levels xs has_parts).
Proof. unfold resolve_heading_levels. apply resolve_loop_twice. Qed.

(** ** Multi-level numbering and promotion *)

Lemma star_digit_start R pv x t st' :
  is_digit x = true ->
  In st' (rmatch (RStar (RSeq dot R)) (pv, x :: t)) -> st' = (pv, x :: t).
Proof.
  intros Hx H. apply in_star in H. destruct H as [H|(st1 & H1 & _)]; [exact H|].
  rewrite digit_start_fail in H1 by exact Hx. destruct H1.
Qed.

Lemma post_fail_digit pv x t :
  is_digit x = true -> rmatch numbered_post (pv, x :: t) = [].
Proof.
  intros Hx. destruct (digit_facts x Hx) as (Hsp & Hdot & _ & _).
  unfold numbered_post, ROpt, dot, sp, nsp, RPlus.
  cbn [rmatch snd flat_map app]. rewrite Hdot. cbn [rmatch snd flat_map app].
  rewrite Hsp. reflexivity.
Qed.

Lemma post_fail_dotdigit pv y t :
  is_digit y = true -> rmatch numbered_post (pv, "."%char :: y :: t) = [].
Proof.
  intros Hy. destruct (digit_facts y Hy) as (Hsp & _ & _ & _).
  unfold numbered_post, ROpt, dot, sp, nsp, RPlus. simpl. rewrite Hsp. reflexivity.
Qed.

Lemma split_dot n l :
  forallb is_digit n = true -> py_split "." (n ++ "."%char :: l) = n :: py_split "." l.
Proof.
  induction n as [|a n IH]; intros H; [reflexivity|].
  simpl in H. apply andb_true_iff in H. destruct H as [Ha Hn].
  simpl. destruct (digit_facts a Ha) as (_ & _ & -> & _). rewrite IH by exact Hn.
  reflexivity.
Qed.

Lemma split_segments : forall segs d1,
  forallb is_digit d1 = true -> Forall digit_run segs ->
  py_split "." (d1 ++ dot_segments segs) = d1 :: segs.
Proof.
  induction segs as [|sg segs IH]; intros d1 Hd1 Hs.
  - rewrite app_nil_r. apply split_digits. exact Hd1.
  - inversion Hs as [|? ? [_ Hsg] Hs']; subst. simpl dot_segments.
    rewrite split_dot by exact Hd1. f_equal. apply IH; assumption.
Qed.

Section MultiLevel.
(** A text made of a dotted number [d1.s1...sk] then optionally a dot,
    whitespace, a non-space character [c] and any [rest]. *)
Variables (d1 ws rest : list ascii) (segs : list (list ascii)) (c : ascii)
  (dotted : bool).
Hypotheses (Hd1_ne : d1 <> []) (Hd1 : forallb is_digit d1 = true)
  (Hsegs : Forall digit_run segs)
  (Hws_ne : ws <> []) (Hws : forallb is_space ws = true)
  (Hc : is_space c = false).

Local Abbreviation tail := ((if dotted then "."%char :: ws else ws) ++ c :: rest).

Lemma tail_step pv : rmatch (RSeq dot (RPlus d)) (pv, tail) = [].
Proof. apply dotnum_fail; assumption. Qed.

Lemma segs_head segs' :
  match dot_segments segs' ++ tail with x :: _ => is_digit x = false | [] => True end.
Proof.
  destruct segs' as [|sg segs']; [apply sep_not_digit; assumption|]. reflexivity.
Qed.

Lemma seg_step sg segs' pv st2 :
  digit_run sg ->
  In st2 (rmatch (RSeq dot (RPlus d)) (pv, dot_segments (sg :: segs') ++ tail)) ->
  snd st2 = dot_segments segs' ++ tail \/
  exists x t', snd st2 = x :: t' /\ is_digit x = true.
Proof.
  intros [Hne Hsg] H. simpl dot_segments in H. rewrite <- app_comm_cons in H.
  unfold dot in H. rewrite seq_char_pass in H by reflexivity.
  rewrite <- app_assoc in H. unfold d in H. apply in_plus_char in H.
  destruct H as (n & t & E & Hn & Hpn & ->).
  destruct (run_prefix is_digit sg (dot_segments segs' ++ tail) n t Hsg Hpn
              (segs_head segs') E) as [[_ ->]|H]; [left|right]; auto.
Qed.

Lemma star_segments : forall segs' pv st',
  Forall digit_run segs' ->
  In st' (rmatch (RStar (RSeq dot (RPlus d))) (pv, dot_segments segs' ++ tail)) ->
  stop_ok tail (snd st').
Proof.
  induction segs' as [|sg segs' IH]; intros pv st' Hs H.
  - apply in_star in H. destruct H as [->|(st1 & H1 & _)]; [left; reflexivity|].
    rewrite tail_step in H1. destruct H1.
  - inversion Hs as [|? ? Hsg Hs']; subst.
    apply in_star in H. destruct H as [->|(st1 & H1 & _ & H2)].
    + right; right. destruct Hsg as [Hne Hd].
      destruct sg as [|y sg]; [congruence|]. simpl in Hd.
      apply andb_true_iff in Hd. exists y, ((sg ++ dot_segments segs') ++ tail).
      split; [reflexivity | tauto].
    + destruct st1 as [pv1 t1].
      destruct (seg_step sg segs' pv (pv1, t1) Hsg H1) as [E|(x & t' & E & Hx)];
        simpl in E; subst t1.
      * exact (IH pv1 st' Hs' H2).
      * apply star_digit_start in H2; [|exact Hx]. subst st'. right; left. exists x, t'. split; [reflexivity | exact Hx].
Qed.

Lemma multi_candidates st1 :
  In st1 (rmatch num_multi (None, d1 ++ dot_segments segs ++ tail)) ->
  stop_ok tail (snd st1).
Proof.
  intros H. unfold num_multi in H. apply in_seq in H.
  destruct H as ([pv0 t0] & H0 & H1). unfold d in H0. apply in_plus_char in H0.
  destruct H0 as (n & t & E & Hn & Hpn & E0). injection E0 as -> ->.
  unfold RPlus at 2 in H1. apply in_seq in H1. destruct H1 as ([pv2 t2] & H2 & H3).
  destruct (run_prefix is_digit d1 (dot_segments segs ++ tail) n t Hd1 Hpn
              (segs_head segs) E) as [[_ ->]|(x & t' & -> & Hx)].
  - destruct segs as [|sg segs'].
    + rewrite tail_step in H2. destruct H2.
    + inversion Hsegs as [|? ? Hsg Hs']; subst.
      destruct (seg_step sg segs' (last_char None n) (pv2, t2) Hsg H2)
        as [E2|(x & t' & E2 & Hx)]; simpl in E2; subst t2.
      * exact (star_segments segs' pv2 st1 Hs' H3).
      * apply star_digit_start in H3; [|exact Hx]. subst st1. right; left. exists x, t'. split; [reflexivity | exact Hx].
  - rewrite digit_start_fail in H2 by exact Hx. destruct H2.
Qed.

Lemma star_full : forall segs' pv,
  Forall digit_run segs' ->
  exists pv', In (pv', tail)
    (rmatch (RStar (RSeq dot (RPlus d))) (pv, dot_segments segs' ++ tail)).
Proof.
  induction segs' as [|sg segs' IH]; intros pv Hs.
  - exists pv. apply in_star. left. reflexivity.
  - inversion Hs as [|? ? [Hne Hsg] Hs']; subst.
    destruct (IH (last_char (Some "."%char) sg) Hs') as (pv' & H).
    exists pv'. apply in_star. right.
    exists (last_char (Some "."%char) sg, dot_segments segs' ++ tail). split; [|split].
    + simpl dot_segments. rewrite <- app_comm_cons. unfold dot.
      rewrite seq_char_pass by reflexivity. rewrite <- app_assoc.
      unfold d. apply in_plus_char. exists sg, (dot_segments segs' ++ tail). auto.
    + simpl. rewrite !length_app. simpl. destruct sg; [congruence|]. simpl. lia.
    + exact H.
Qed.

Lemma post_tail pv : nonempty (rmatch numbered_post (pv, tail)) = true.
Proof.
  apply nonempty_in. exists (Some c, rest). unfold numbered_post, sp, nsp, dot.
  assert (Hrun : forall pv', In (Some c, rest) (rmatch (RSeq (RPlus (RChar is_space))
                   (RChar (fun c0 => negb (is_space c0)))) (pv', ws ++ c :: rest))).
  { intros pv'. apply in_seq. eexists. split.
    - apply in_plus_char. exists ws, (c :: rest). repeat split; eauto.
    - apply in_char. exists c, rest. rewrite Hc. auto. }
  apply in_seq. destruct dotted.
  - exists (Some "."%char, ws ++ c :: rest). split; [|apply Hrun].
    apply in_alt. left. apply in_char. exists "."%char, (ws ++ c :: rest). auto.
  - exists (pv, ws ++ c :: rest). split; [|apply Hrun].
    apply in_alt. right. apply in_eps. reflexivity.
Qed.

Lemma multi_level_parts_shape (text : string) :
  segs <> [] -> chars text = d1 ++ dot_segments segs ++ tail ->
  multi_level_parts text = Some (S (length segs)).
Proof.
  intros Hne Et. unfold multi_level_parts. rewrite Et.
  destruct (rgroup_eps_exists num_multi numbered_post (d1 ++ dot_segments segs ++ tail))
    as (g & Eg).
  - destruct segs as [|sg segs']; [congruence|].
    inversion Hsegs as [|? ? [Hsne Hsg] Hs']; subst.
    destruct (star_full segs' (last_char (Some "."%char) sg) Hs') as (pv' & Hf).
    exists (pv', tail). split; [|apply post_tail].
    unfold num_multi. apply in_seq. exists (last_char None d1, dot_segments (sg :: segs') ++ tail).
    split; [unfold d; apply in_plus_char; exists d1, (dot_segments (sg :: segs') ++ tail); auto|].
    unfold RPlus at 2. apply in_seq.
    exists (last_char (Some "."%char) sg, dot_segments segs' ++ tail). split; [|exact Hf].
    simpl dot_segments. rewrite <- app_comm_cons. unfold dot.
    rewrite seq_char_pass by reflexivity. rewrite <- app_assoc.
    unfold d. apply in_plus_char. exists sg, (dot_segments segs' ++ tail). auto.
  - rewrite Eg. apply rgroup_eps_some in Eg.
    destruct Eg as ([pv1 t1] & H & Hp & ->).
    apply multi_candidates in H. simpl snd in H |- *.
    destruct H as [->|[(x & t' & -> & Hx)|(y & t' & -> & Hy)]].
    + rewrite app_assoc, firstn_prefix, split_segments by assumption. reflexivity.
    + rewrite post_fail_digit in Hp by exact Hx. discriminate.
    + rewrite post_fail_dotdigit in Hp by exact Hy. discriminate.
Qed.

End MultiLevel.

(** Claim C6. Let the text of a paragraph or pending list item start with
    a dotted number of [n >= 2] numeric segments ([d1.s1...sk], so
    [n = 1 + k]), then an optional dot, whitespace and a non-space
    character. The promoter turns the block into a heading candidate
    (placeholder level 2, same page, text and runs) with confidence 0.90
    (paragraph) or 0.85 (list item) when [n >= 3], whatever the length;
    with confidence 0.70 or 0.65 when [n = 2] and the text is shorter than
    120 characters; and leaves it unchanged otherwise. In particular the
    paragraph "1.2 " followed by 200 x is not promoted and "1.3.1.2 "
    followed by 200 x is. *)
Theorem promote_numbered_rule :
  (forall (text : string) (d1 : list ascii) (segs : list (list ascii))
          (dotted : bool) (ws : list ascii) (c : ascii) (rest : list ascii),
   d1 <> [] -> forallb is_digit d1 = true ->
   segs <> [] -> Forall digit_run segs ->
   ws <> [] -> forallb is_space ws = true -> is_space c = false ->
   chars text = d1 ++ dot_segments segs
                  ++ (if dotted then "."%char :: ws else ws) ++ c :: rest ->
   let n := S (length segs) in
   2 <= n /\
   (forall (page : option Z) (runs : list text_run),
    let el := ParagraphB (mk_paragraph page text runs) in
    if 3 <=? n then
      exists r, promote_numbered_paragraph el =
        HeadingB (mk_heading page 2 text runs (90 # 100) (Some r)) []
    else if String.length text <? 120 then
      exists r, promote_numbered_paragraph el =
        HeadingB (mk_heading page 2 text runs (70 # 100) (Some r)) []
    else promote_numbered_paragraph el = el) /\
   (forall item : pending_item, pi_text item = text ->
    let el := PendingB item in
    if 3 <=? n then
      exists r, promote_numbered_list_item el =
        HeadingB (mk_heading (pi_page item) 2 text (pi_runs item) (85 # 100)
                   (Some r)) []
    else if String.length text <? 120 then
      exists r, promote_numbered_list_item el =
        HeadingB (mk_heading (pi_page item) 2 text (pi_runs item) (65 # 100)
                   (Some r)) []
    else promote_numbered_list_item el = el)) /\
  (let long := ("1.2 " ++ string_of_list_ascii (repeat "x"%char 200))%string in
   promote_numbered_paragraphs [ParagraphB (mk_paragraph None long [])] =
   [ParagraphB (mk_paragraph None long [])]) /\
  (let long := ("1.3.1.2 " ++ string_of_list_ascii (repeat "x"%char 200))%string in
   exists r,
   promote_numbered_paragraphs [ParagraphB (mk_paragraph None long [])] =
   [HeadingB (mk_heading None 2 long [] (90 # 100) (Some r)) []]).
Proof.
  split; [|split; [vm_compute; reflexivity|]].
  2:{ cbv zeta. exists "promoted:multi_level_4_parts"%string.
      vm_compute. reflexivity. }
  intros text d1 segs dotted ws c rest Hd1ne Hd1 Hsne Hsegs Hwsne Hws Hc Et n.
  assert (Hm : multi_level_parts text = Some n)
    by exact (multi_level_parts_shape d1 ws rest segs c dotted Hd1ne Hd1 Hsegs
                Hwsne Hws Hc text Hsne Et).
  split; [destruct segs; [congruence|]; unfold n; simpl; lia|].
  split.
  - intros page runs el. unfold el, promote_numbered_paragraph. simpl p_text.
    rewrite Hm. destruct (3 <=? n); [eexists; reflexivity|].
    destruct (String.length text <? 120); [eexists; reflexivity|reflexivity].
  - intros item Hi el. unfold el, promote_numbered_list_item.
    rewrite Hi, Hm. destruct (3 <=? n); [eexists; reflexivity|].
    destruct (String.length text <? 120); [eexists; reflexivity|reflexivity].
Qed.

Lemma promote_numbered_rule_witness :
  exists r, promote_numbered_paragraph (ParagraphB (mk_paragraph None "1.2.3 Scope"%string [])) =
    HeadingB (mk_heading None 2 "1.2.3 Scope"%string [] (90 # 100) (Some r)) [].
Proof.
  pose proof (proj1 promote_numbered_rule "1.2.3 Scope"%string (chars "1")
    [chars "2"; chars "3"] false (chars " ") "S"%char (chars "cope")
    ltac:(vm_compute; discriminate) eq_refl ltac:(discriminate)
    ltac:(repeat constructor; vm_compute; discriminate)
    ltac:(vm_compute; discriminate) eq_refl eq_refl eq_refl) as H.
  cbv zeta in H. destruct H as (_ & Hp & _).
  specialize (Hp None []). cbn [length Nat.leb] in Hp. exact Hp.
Defined.

(** ** The heading tree builder *)

Lemma span_app L : forall l k r, span_below L l = (k, r) -> l = k ++ r.
Proof.
  induction l as [|b l IH]; intros k r E; simpl in E.
  - injection E as <- <-. reflexivity.
  - destruct (stops_at L b); [injection E as <- <-; reflexivity|].
    destruct (span_below L l) as [k' r'] eqn:E'. injection E as <- <-.
    simpl. f_equal. apply IH. reflexivity.
Qed.

Lemma span_nostop L : forall l k r, span_below L l = (k, r) ->
  forallb (fun b => negb (stops_at L b)) k = true.
Proof.
  induction l as [|b l IH]; intros k r E; simpl in E.
  - injection E as <- <-. reflexivity.
  - destruct (stops_at L b) eqn:Eb; [injection E as <- <-; reflexivity|].
    destruct (span_below L l) as [k' r'] eqn:E'. injection E as <- <-.
    simpl. rewrite Eb. simpl. exact (IH k' r' eq_refl).
Qed.

Lemma span_rest L : forall l k r, span_below L l = (k, r) ->
  match r with [] => True | b :: _ => stops_at L b = true end.
Proof.
  induction l as [|b l IH]; intros k r E; simpl in E.
  - injection E as <- <-. exact I.
  - destruct (stops_at L b) eqn:Eb; [injection E as <- <-; exact Eb|].
    destruct (span_below L l) as [k' r'] eqn:E'. injection E as <- <-.
    exact (IH k' r' eq_refl).
Qed.

Lemma span_length L l k r : span_below L l = (k, r) -> length k + length r = length l.
Proof. intros E. rewrite (span_app L l k r E), length_app. reflexivity. Qed.

Lemma stops_mono L1 L2 b : (L1 <= L2)%Z -> stops_at L1 b = true -> stops_at L2 b = true.
Proof.
  intros HL. destruct b; simpl; try discriminate.
  rewrite !Z.leb_le. lia.
Qed.

Lemma span_cons L b r :
  span_below L (b :: r) =
  if stops_at L b then ([], b :: r)
  else let '(k, rest) := span_below L r in (b :: k, rest).
Proof. reflexivity. Qed.

Lemma span_nested L1 L2 : (L1 <= L2)%Z -> forall l k r k1 k2,
  span_below L1 l = (k, r) -> span_below L2 k = (k1, k2) ->
  span_below L2 l = (k1, k2 ++ r) /\ span_below L1 (k2 ++ r) = (k2, r).
Proof.
  intros HL. induction l as [|b l IH]; intros k r k1 k2 E1 E2.
  - simpl in E1. injection E1 as <- <-. simpl in E2. injection E2 as <- <-. auto.
  - rewrite span_cons in E1. destruct (stops_at L1 b) eqn:Eb.
    + injection E1 as <- <-. simpl in E2. injection E2 as <- <-.
      cbn [app]. rewrite !span_cons, (stops_mono L1 L2 b HL Eb), Eb. auto.
    + destruct (span_below L1 l) as [k' r'] eqn:E'. injection E1 as <- <-.
      rewrite span_cons in E2. destruct (stops_at L2 b) eqn:Eb2.
      * injection E2 as <- <-. cbn [app]. rewrite !span_cons, Eb2, Eb.
        rewrite <- (span_app L1 l k' r' E'), E'. auto.
      * destruct (span_below L2 k') as [k1' k2'] eqn:E2'. injection E2 as <- <-.
        destruct (IH k' r' k1' k2' eq_refl E2') as [H1 H2].
        rewrite !span_cons, Eb2, H1. auto.
Qed.

Lemma nest_fuel_nil f : nest_fuel f [] = [].
Proof. destruct f; reflexivity. Qed.

Lemma nest_fuel_stable : forall f1 f2 l,
  length l <= f1 -> length l <= f2 -> nest_fuel f1 l = nest_fuel f2 l.
Proof.
  induction f1 as [|f1 IH]; intros f2 l H1 H2.
  - destruct l; [rewrite !nest_fuel_nil; reflexivity|simpl in H1; lia].
  - destruct l as [|b r]; [rewrite !nest_fuel_nil; reflexivity|].
    destruct f2 as [|f2]; [simpl in H2; lia|]. simpl in H1, H2.
    destruct b as [h ch| | | | | |]; simpl; try (f_equal; apply IH; lia).
    destruct (span_below (h_level h) r) as [k rest] eqn:E.
    pose proof (span_length _ _ _ _ E).
    rewrite (IH f2 k), (IH f2 rest) by lia. reflexivity.
Qed.

Lemma nest_nil : nest_by_level [] = [].
Proof. reflexivity. Qed.

Lemma nest_heading h ch r k rest :
  span_below (h_level h) r = (k, rest) ->
  nest_by_level (HeadingB h ch :: r) =
  HeadingB h (ch ++ nest_by_level k) :: nest_by_level rest.
Proof.
  intros E. pose proof (span_length _ _ _ _ E).
  unfold nest_by_level. simpl. rewrite E.
  rewrite (nest_fuel_stable (length r) (length k) k),
          (nest_fuel_stable (length r) (length rest) rest) by lia.
  reflexivity.
Qed.

Lemma nest_other b r :
  is_heading_block b = false -> nest_by_level (b :: r) = b :: nest_by_level r.
Proof. intros Hb. destruct b; try discriminate; reflexivity. Qed.

Lemma close_all_eq f s root xs :
  close_all f s root xs =
  let '(kids, rest) := span_below (hf_level f) xs in
  let b := HeadingB (hf_head f) (hf_children f ++ nest_by_level kids) in
  match s with
  | [] => root ++ b :: nest_by_level rest
  | g :: s' => close_all (h_add_child g b) s' root rest
  end.
Proof. destruct s; reflexivity. Qed.

Lemma close_all_nil : forall s f root, close_all f s root [] = h_finish (f :: s) root.
Proof.
  induction s as [|g s IH]; intros f root; rewrite close_all_eq; simpl;
    rewrite app_nil_r; [reflexivity|].
  rewrite IH. reflexivity.
Qed.

Lemma close_all_other f s root x xs :
  is_heading_block x = false ->
  close_all f s root (x :: xs) = close_all (h_add_child f x) s root xs.
Proof.
  intros Hx. rewrite !close_all_eq. simpl.
  assert (Hs : stops_at (hf_level f) x = false) by (destruct x; try discriminate; reflexivity).
  rewrite Hs. destruct (span_below (hf_level f) xs) as [k r] eqn:E.
  rewrite nest_other by exact Hx. rewrite <- app_assoc. reflexivity.
Qed.

Lemma close_all_push f s root hx chx xs :
  (hf_level f < h_level hx)%Z ->
  close_all f s root (HeadingB hx chx :: xs) =
  close_all (mk_h_frame (h_level hx) hx chx) (f :: s) root xs.
Proof.
  intros HL. rewrite close_all_eq. simpl.
  assert (Hs : (h_level hx <=? hf_level f)%Z = false) by (apply Z.leb_gt; lia).
  rewrite Hs.
  destruct (span_below (hf_level f) xs) as [k r] eqn:E.
  destruct (span_below (h_level hx) k) as [k1 k2] eqn:E2.
  destruct (span_nested (hf_level f) (h_level hx) ltac:(lia) xs k r k1 k2 E E2)
    as [H1 H2].
  rewrite (nest_heading hx chx k k1 k2 E2).
  rewrite H1. rewrite (close_all_eq (h_add_child f _)). simpl hf_level. rewrite H2.
  simpl. rewrite <- app_assoc. reflexivity.
Qed.

Lemma close_all_pop hx chx xs : forall s f root,
  close_all (mk_h_frame (h_level hx) hx chx)
    (fst (h_pop (h_level hx) f s root)) (snd (h_pop (h_level hx) f s root)) xs =
  close_all f s root (HeadingB hx chx :: xs).
Proof.
  induction s as [|g s IH]; intros f root; simpl h_pop;
    destruct (h_level hx <=? hf_level f)%Z eqn:HL; simpl fst; simpl snd.
  - rewrite (close_all_eq f). simpl. rewrite HL. simpl.
    destruct (span_below (h_level hx) xs) as [k r] eqn:E.
    rewrite (nest_heading hx chx xs k r E), ?nest_nil, ?app_nil_r.
    rewrite <- app_assoc. reflexivity.
  - symmetry. apply close_all_push. apply Z.leb_gt. exact HL.
  - rewrite IH. rewrite (close_all_eq f). simpl. rewrite HL. simpl.
    rewrite nest_nil, app_nil_r. reflexivity.
  - symmetry. apply close_all_push. apply Z.leb_gt. exact HL.
Qed.

Lemma tree_run : forall xs,
  (forall root, let p := fold_left tree_step xs ([], root) in
     h_finish (fst p) (snd p) = root ++ nest_by_level xs) /\
  (forall f s root, let p := fold_left tree_step xs (f :: s, root) in
     h_finish (fst p) (snd p) = close_all f s root xs).
Proof.
  induction xs as [|x xs [IH1 IH2]]; split.
  - intros root. simpl. rewrite app_nil_r. reflexivity.
  - intros f s root. simpl. symmetry. apply close_all_nil.
  - intros root. simpl fold_left. destruct x as [h ch| | | | | |];
      cbn [tree_step];
      try (rewrite IH1, nest_other by reflexivity; rewrite <- app_assoc; reflexivity).
    rewrite IH2, close_all_eq. cbn [hf_level hf_head hf_children].
    destruct (span_below (h_level h) xs) as [k r] eqn:E.
    rewrite (nest_heading h ch xs k r E). reflexivity.
  - intros f s root. simpl fold_left. destruct x as [h ch| | | | | |];
      cbn [tree_step];
      try (rewrite IH2; symmetry; apply close_all_other; reflexivity).
    destruct (h_pop (h_level h) f s root) as [stack' root'] eqn:E.
    rewrite IH2. rewrite <- close_all_pop, E. reflexivity.
Qed.

Lemma build_nest xs : build_heading_tree xs = nest_by_level xs.
Proof.
  destruct xs as [|x xs]; [reflexivity|].
  unfold build_heading_tree.
  pose proof (proj1 (tree_run (x :: xs)) []) as H. cbv zeta in H.
  destruct (fold_left tree_step (x :: xs) ([], [])) as [st rt].
  exact H.
Qed.

Lemma preorder_heading h ch :
  preorder_block (HeadingB h ch) = HeadingB h [] :: preorder ch.
Proof.
  reflexivity.
Qed.

Lemma preorder_other b : is_heading_block b = false -> preorder_block b = [b].
Proof. destruct b; try discriminate; reflexivity. Qed.

Lemma subtrees_heading h ch :
  subtrees_block (HeadingB h ch) = HeadingB h ch :: subtrees ch.
Proof.
  reflexivity.
Qed.

Lemma subtrees_other b : is_heading_block b = false -> subtrees_block b = [b].
Proof. destruct b; try discriminate; reflexivity. Qed.

Lemma preorder_app l1 l2 : preorder (l1 ++ l2) = preorder l1 ++ preorder l2.
Proof. apply flat_map_app. Qed.

Lemma subtrees_app l1 l2 : subtrees (l1 ++ l2) = subtrees l1 ++ subtrees l2.
Proof. apply flat_map_app. Qed.

Lemma flat_span L r k rest :
  span_below L r = (k, rest) -> forallb flat_block r = true ->
  forallb flat_block k = true /\ forallb flat_block rest = true.
Proof.
  intros E H. rewrite (span_app L r k rest E), forallb_app in H.
  apply andb_true_iff in H. exact H.
Qed.

Lemma preorder_nest : forall n l, length l <= n -> forallb flat_block l = true ->
  preorder (nest_by_level l) = l.
Proof.
  induction n as [|n IH]; intros l Hn Hf.
  - destruct l; [reflexivity|simpl in Hn; lia].
  - destruct l as [|b r]; [reflexivity|].
    simpl in Hn, Hf. apply andb_true_iff in Hf. destruct Hf as [Hb Hr].
    destruct (is_heading_block b) eqn:Eb.
    + destruct b as [h ch| | | | | |]; try discriminate.
      destruct ch; [|discriminate].
      destruct (span_below (h_level h) r) as [k rest] eqn:E.
      pose proof (span_length _ _ _ _ E). destruct (flat_span _ _ _ _ E Hr).
      rewrite (nest_heading h [] r k rest E). unfold preorder at 1.
      cbn [flat_map]. fold (preorder (nest_by_level rest)).
      rewrite preorder_heading. simpl app.
      rewrite (IH k), (IH rest) by (assumption || lia).
      rewrite (span_app _ _ _ _ E). reflexivity.
    + rewrite nest_other by exact Eb. unfold preorder. cbn [flat_map].
      rewrite preorder_other by exact Eb. fold (preorder (nest_by_level r)).
      rewrite IH by (assumption || lia). reflexivity.
Qed.

Lemma nest_nodes : forall n l, length l <= n -> forallb flat_block l = true ->
  forall h ch, In (HeadingB h ch) (subtrees (nest_by_level l)) ->
  exists pre post, l = pre ++ HeadingB h [] :: preorder ch ++ post /\
    forallb (fun b => negb (stops_at (h_level h) b)) (preorder ch) = true /\
    match post with [] => True | b :: _ => stops_at (h_level h) b = true end.
Proof.
  induction n as [|n IH]; intros l Hn Hf h ch Hin.
  - destruct l; [destruct Hin|simpl in Hn; lia].
  - destruct l as [|b r]; [destruct Hin|].
    simpl in Hn, Hf. apply andb_true_iff in Hf. destruct Hf as [Hb Hr].
    destruct (is_heading_block b) eqn:Eb.
    + destruct b as [h0 ch0| | | | | |]; try discriminate.
      destruct ch0; [|discriminate].
      destruct (span_below (h_level h0) r) as [k rest] eqn:E.
      pose proof (span_length _ _ _ _ E). destruct (flat_span _ _ _ _ E Hr) as [Hk Hrest].
      rewrite (nest_heading h0 [] r k rest E) in Hin. unfold subtrees in Hin.
      cbn [flat_map] in Hin. rewrite subtrees_heading in Hin.
      fold (subtrees (nest_by_level rest)) in Hin. simpl app in Hin.
      destruct Hin as [Eq|Hin].
      * injection Eq as <- <-. exists [], rest.
        rewrite (preorder_nest (length k) k) by (assumption || lia).
        split; [simpl; f_equal; apply (span_app _ _ _ _ E)|].
        split; [exact (span_nostop _ _ _ _ E)|exact (span_rest _ _ _ _ E)].
      * apply in_app_or in Hin. destruct Hin as [Hin|Hin].
        -- destruct (IH k ltac:(lia) Hk h ch Hin) as (pre & post & Ek & Hns & Hp).
           exists (HeadingB h0 [] :: pre), (post ++ rest).
           split; [rewrite (span_app _ _ _ _ E), Ek; simpl; rewrite <- ?app_assoc; simpl; rewrite <- ?app_assoc; reflexivity|].
           split; [exact Hns|].
           destruct post as [|b' post]; [|exact Hp].
           pose proof (span_rest _ _ _ _ E) as Hr'. destruct rest as [|b'' rest]; [exact I|].
           apply (stops_mono (h_level h0)); [|exact Hr'].
           pose proof (span_nostop _ _ _ _ E) as Hns0. rewrite Ek in Hns0.
           rewrite forallb_app in Hns0. apply andb_true_iff in Hns0.
           destruct Hns0 as [_ Hns0]. simpl in Hns0.
           apply andb_true_iff in Hns0. destruct Hns0 as [Hlt _].
           apply negb_true_iff, Z.leb_gt in Hlt. lia.
        -- destruct (IH rest ltac:(lia) Hrest h ch Hin) as (pre & post & Er & Hns & Hp).
           exists (HeadingB h0 [] :: k ++ pre), post.
           split; [rewrite (span_app _ _ _ _ E), Er; simpl; rewrite <- ?app_assoc; simpl; rewrite <- ?app_assoc; reflexivity|].
           auto.
    + rewrite nest_other in Hin by exact Eb. unfold subtrees in Hin. cbn [flat_map] in Hin.
      rewrite subtrees_other in Hin by exact Eb.
      fold (subtrees (nest_by_level r)) in Hin. destruct Hin as [Eq|Hin].
      * subst b. discriminate.
      * destruct (IH r ltac:(lia) Hr h ch Hin) as (pre & post & Er & Hns & Hp).
        exists (b :: pre), post. rewrite Er. auto.
Qed.

(** Claim C2. For a flat sequence (no heading has children yet), every
    heading node [HeadingB h ch] anywhere in the built tree comes from a
    heading of the sequence whose children, read in pre-order, are exactly
    the blocks that follow it up to the next heading of level at most
    [h_level h] (or the end of the sequence); every descendant heading of
    the node has a level strictly greater than [h_level h]. A heading
    directly followed by a deeper one (any level gap) gets it as its only
    child, with no intermediate heading. *)
Theorem heading_tree_invariant :
  (forall xs, forallb flat_block xs = true ->
   forall h ch, In (HeadingB h ch) (subtrees (build_heading_tree xs)) ->
   (exists pre post,
      xs = pre ++ HeadingB h [] :: preorder ch ++ post /\
      (post = [] \/ exists h' ch' post', post = HeadingB h' ch' :: post' /\
                                         (h_level h' <= h_level h)%Z)) /\
   (forall h' ch', In (HeadingB h' ch') (preorder ch) ->
                   (h_level h < h_level h')%Z)) /\
  (forall h1 h2, (h_level h1 < h_level h2)%Z ->
   build_heading_tree [HeadingB h1 []; HeadingB h2 []] =
   [HeadingB h1 [HeadingB h2 []]]).
Proof.
  split.
  - intros xs Hf h ch Hin. rewrite build_nest in Hin.
    destruct (nest_nodes (length xs) xs (le_n _) Hf h ch Hin)
      as (pre & post & E & Hns & Hp).
    split.
    + exists pre, post. split; [exact E|].
      destruct post as [|b post]; [left; reflexivity|right].
      destruct b as [h' ch'| | | | | |]; try discriminate.
      exists h', ch', post. split; [reflexivity|]. apply Z.leb_le. exact Hp.
    + intros h' ch' Hin'. rewrite forallb_forall in Hns.
      specialize (Hns _ Hin'). simpl in Hns.
      apply negb_true_iff, Z.leb_gt in Hns. lia.
  - intros h1 h2 Hlt. rewrite build_nest.
    rewrite (nest_heading h1 [] [HeadingB h2 []] [HeadingB h2 []] []).
    + rewrite (nest_heading h2 [] [] [] []) by reflexivity. reflexivity.
    + simpl. rewrite (proj2 (Z.leb_gt _ _) Hlt). reflexivity.
Qed.

(** Claim C10. For a flat sequence (no heading has children yet), the
    pre-order traversal of the built tree is the sequence itself: no block
    is dropped, duplicated or reordered. *)
Theorem build_preorder (xs : list block) :
  forallb flat_block xs = true -> preorder (build_heading_tree xs) = xs.
Proof.
  intros Hf. rewrite build_nest. apply (preorder_nest (length xs)); [lia|exact Hf].
Qed.

Lemma heading_tree_invariant_witness :
  In (HeadingB (mk_heading None 1%Z "Scope" [] 1%Q None)
        [ParagraphB (mk_paragraph None "Text" []);
         HeadingB (mk_heading None 3%Z "Detail" [] 1%Q None) []])
     (subtrees (build_heading_tree
        [HeadingB (mk_heading None 1%Z "Scope" [] 1%Q None) [];
         ParagraphB (mk_paragraph None "Text" []);
         HeadingB (mk_heading None 3%Z "Detail" [] 1%Q None) []])) /\
  Z.lt (h_level (mk_heading None 1%Z "Scope" [] 1%Q None))
       (h_level (mk_heading None 3%Z "Detail" [] 1%Q None)).
Proof.
  split; [vm_compute; left; reflexivity|].
  destruct (proj1 heading_tree_invariant
    [HeadingB (mk_heading None 1%Z "Scope" [] 1%Q None) [];
     ParagraphB (mk_paragraph None "Text" []);
     HeadingB (mk_heading None 3%Z "Detail" [] 1%Q None) []] eq_refl
    (mk_heading None 1%Z "Scope" [] 1%Q None)
    [ParagraphB (mk_paragraph None "Text" []);
     HeadingB (mk_heading None 3%Z "Detail" [] 1%Q None) []]
    ltac:(vm_compute; left; reflexivity)) as [_ H].
  exact (H (mk_heading None 3%Z "Detail" [] 1%Q None) []
           ltac:(vm_compute; right; left; reflexivity)).
Defined.

Lemma build_preorder_witness :
  preorder (build_heading_tree
    [candidate "Scope"; ParagraphB (mk_paragraph None "Text" []);
     candidate "Next"]) =
  [candidate "Scope"; ParagraphB (mk_paragraph None "Text" []); candidate "Next"].
Proof. apply build_preorder. reflexivity. Defined.

(** ** List grouping *)

Lemma li_span_cons D e r :
  li_span D (e :: r) =
  if li_stops D e then ([], e :: r)
  else let '(k, rest) := li_span D r in (e :: k, rest).
Proof. reflexivity. Qed.

Lemma li_span_app D : forall l k r, li_span D l = (k, r) -> l = k ++ r.
Proof.
  induction l as [|e l IH]; intros k r E; simpl in E.
  - injection E as <- <-. reflexivity.
  - destruct (li_stops D e); [injection E as <- <-; reflexivity|].
    destruct (li_span D l) as [k' r'] eqn:E'. injection E as <- <-.
    simpl. f_equal. apply IH. reflexivity.
Qed.

Lemma li_span_length D l k r : li_span D l = (k, r) -> length k + length r = length l.
Proof. intros E. rewrite (li_span_app D l k r E), length_app. reflexivity. Qed.

Lemma li_stops_mono D1 D2 e :
  (D1 <= D2)%Z -> li_stops D1 e = true -> li_stops D2 e = true.
Proof. unfold li_stops. rewrite !Z.leb_le. lia. Qed.

Lemma li_span_nested D1 D2 : (D1 <= D2)%Z -> forall l k r k1 k2,
  li_span D1 l = (k, r) -> li_span D2 k = (k1, k2) ->
  li_span D2 l = (k1, k2 ++ r) /\ li_span D1 (k2 ++ r) = (k2, r).
Proof.
  intros HD. induction l as [|e l IH]; intros k r k1 k2 E1 E2.
  - simpl in E1. injection E1 as <- <-. simpl in E2. injection E2 as <- <-. auto.
  - rewrite li_span_cons in E1. destruct (li_stops D1 e) eqn:Ee.
    + injection E1 as <- <-. simpl in E2. injection E2 as <- <-.
      cbn [app]. rewrite !li_span_cons, (li_stops_mono D1 D2 e HD Ee), Ee. auto.
    + destruct (li_span D1 l) as [k' r'] eqn:E'. injection E1 as <- <-.
      rewrite li_span_cons in E2. destruct (li_stops D2 e) eqn:Ee2.
      * injection E2 as <- <-. cbn [app]. rewrite !li_span_cons, Ee2, Ee.
        rewrite <- (li_span_app D1 l k' r' E'), E'. auto.
      * destruct (li_span D2 k') as [k1' k2'] eqn:E2'. injection E2 as <- <-.
        destruct (IH k' r' k1' k2' eq_refl E2') as [H1 H2].
        rewrite !li_span_cons, Ee2, H1. auto.
Qed.

Lemma li_forest_fuel_nil n : li_forest_fuel n [] = [].
Proof. destruct n; reflexivity. Qed.

Lemma li_forest_fuel_stable : forall n1 n2 l,
  length l <= n1 -> length l <= n2 -> li_forest_fuel n1 l = li_forest_fuel n2 l.
Proof.
  induction n1 as [|n1 IH]; intros n2 l H1 H2.
  - destruct l; [rewrite !li_forest_fuel_nil; reflexivity|simpl in H1; lia].
  - destruct l as [|[d p] r]; [rewrite !li_forest_fuel_nil; reflexivity|].
    destruct n2 as [|n2]; [simpl in H2; lia|]. simpl in H1, H2. simpl.
    destruct (li_span d r) as [k rest] eqn:E.
    pose proof (li_span_length _ _ _ _ E).
    rewrite (IH n2 k), (IH n2 rest) by lia. reflexivity.
Qed.

Lemma li_forest_nil : li_forest [] = [].
Proof. reflexivity. Qed.

Lemma li_forest_cons d p r k rest :
  li_span d r = (k, rest) ->
  li_forest ((d, p) :: r) =
  ListItem (pi_text p) (pi_runs p) (li_forest k) :: li_forest rest.
Proof.
  intros E. pose proof (li_span_length _ _ _ _ E).
  unfold li_forest. simpl. rewrite E.
  rewrite (li_forest_fuel_stable (length r) (length k) k),
          (li_forest_fuel_stable (length r) (length rest) rest) by lia.
  reflexivity.
Qed.

Lemma li_close_all_eq f s root xs :
  li_close_all f s root xs =
  let '(kids, rest) := li_span (lf_depth f) xs in
  let b := ListItem (lf_text f) (lf_runs f) (lf_children f ++ li_forest kids) in
  match s with
  | [] => root ++ b :: li_forest rest
  | g :: s' => li_close_all (li_add_child g b) s' root rest
  end.
Proof. destruct s; reflexivity. Qed.

Lemma li_close_all_nil : forall s f root, li_close_all f s root [] = li_unwind f s root.
Proof.
  induction s as [|g s IH]; intros f root; rewrite li_close_all_eq; simpl;
    rewrite app_nil_r; [reflexivity|].
  rewrite IH. reflexivity.
Qed.

Lemma li_close_all_push f s root d p xs :
  (lf_depth f < d)%Z ->
  li_close_all f s root ((d, p) :: xs) =
  li_close_all (mk_li_frame d (pi_text p) (pi_runs p) []) (f :: s) root xs.
Proof.
  intros HD. rewrite li_close_all_eq. rewrite li_span_cons.
  assert (Hs : li_stops (lf_depth f) (d, p) = false)
    by (unfold li_stops; apply Z.leb_gt; simpl; lia).
  rewrite Hs.
  destruct (li_span (lf_depth f) xs) as [k r] eqn:E.
  destruct (li_span d k) as [k1 k2] eqn:E2.
  destruct (li_span_nested (lf_depth f) d ltac:(lia) xs k r k1 k2 E E2)
    as [H1 H2].
  rewrite (li_forest_cons d p k k1 k2 E2).
  rewrite li_close_all_eq. cbn [lf_depth lf_text lf_runs lf_children]. rewrite H1.
  rewrite (li_close_all_eq (li_add_child f _)). simpl lf_depth. rewrite H2.
  simpl. rewrite <- app_assoc. reflexivity.
Qed.

Lemma li_close_all_pop d p xs : forall s f root,
  li_close_all (mk_li_frame d (pi_text p) (pi_runs p) [])
    (fst (li_pop d f s root)) (snd (li_pop d f s root)) xs =
  li_close_all f s root ((d, p) :: xs).
Proof.
  induction s as [|g s IH]; intros f root; simpl li_pop;
    destruct (d <=? lf_depth f)%Z eqn:HD; simpl fst; simpl snd.
  - rewrite (li_close_all_eq f). rewrite li_span_cons. unfold li_stops at 1.
    simpl fst. rewrite HD. rewrite li_close_all_eq. simpl lf_depth.
    destruct (li_span d xs) as [k r] eqn:E.
    rewrite (li_forest_cons d p xs k r E), li_forest_nil, app_nil_r.
    unfold close_li. rewrite <- app_assoc. reflexivity.
  - symmetry. apply li_close_all_push. apply Z.leb_gt. exact HD.
  - rewrite IH. rewrite (li_close_all_eq f). rewrite li_span_cons.
    unfold li_stops at 1. simpl fst. rewrite HD.
    rewrite li_forest_nil, app_nil_r. reflexivity.
  - symmetry. apply li_close_all_push. apply Z.leb_gt. exact HD.
Qed.

Lemma li_run base : forall pending,
  (forall root, nest_loop base [] root pending =
                root ++ li_forest (map (norm_depth base) pending)) /\
  (forall f s root, nest_loop base (f :: s) root pending =
                    li_close_all f s root (map (norm_depth base) pending)).
Proof.
  induction pending as [|p rest [IH1 IH2]]; split.
  - intros root. simpl. rewrite app_nil_r. reflexivity.
  - intros f s root. simpl. symmetry. apply li_close_all_nil.
  - intros root. cbn [nest_loop map]. rewrite IH2, li_close_all_eq.
    cbn [lf_depth lf_text lf_runs lf_children].
    change (norm_depth base p) with ((pi_nesting_depth p - base)%Z, p).
    destruct (li_span (pi_nesting_depth p - base)%Z (map (norm_depth base) rest))
      as [k r] eqn:E.
    rewrite (li_forest_cons _ p _ k r E). reflexivity.
  - intros f s root. cbn [nest_loop map].
    destruct (li_pop (pi_nesting_depth p - base)%Z f s root) as [st' root'] eqn:E.
    rewrite IH2. change (norm_depth base p) with ((pi_nesting_depth p - base)%Z, p).
    rewrite <- li_close_all_pop, E.
    reflexivity.
Qed.

Lemma nest_depth pending : nest_list_items pending = nest_by_depth pending.
Proof.
  destruct pending as [|p0 ps]; [reflexivity|].
  unfold nest_list_items, nest_by_depth.
  rewrite (proj1 (li_run (pi_nesting_depth p0) (p0 :: ps)) []). reflexivity.
Qed.

Lemma flush_pending_app result pending :
  flush_pending result pending = result ++ flush_pending [] pending.
Proof. destruct pending; simpl; [rewrite app_nil_r|]; reflexivity. Qed.

Lemma group_loop_app : forall xs result pending,
  group_loop result pending xs = result ++ group_loop [] pending xs.
Proof.
  induction xs as [|x xs IH]; intros result pending.
  - apply flush_pending_app.
  - destruct x; simpl; try apply IH;
      rewrite IH, (IH (flush_pending [] pending ++ _)), flush_pending_app;
      rewrite <- !app_assoc; reflexivity.
Qed.

Lemma group_loop_pending : forall run pending xs,
  group_loop [] pending (map PendingB run ++ xs) = group_loop [] (pending ++ run) xs.
Proof.
  induction run as [|p run IH]; intros pending xs.
  - rewrite app_nil_r. reflexivity.
  - simpl. rewrite IH, <- app_assoc. reflexivity.
Qed.

Lemma group_loop_other pending b xs :
  is_pending_block b = false ->
  group_loop [] pending (b :: xs) =
  flush_pending [] pending ++ b :: group_loop [] [] xs.
Proof.
  intros Hb. destruct b; try discriminate; simpl;
    rewrite group_loop_app, <- app_assoc; reflexivity.
Qed.

Lemma group_loop_split : forall pre pending b ys,
  is_pending_block b = false ->
  group_loop [] pending ((pre ++ [b]) ++ ys) =
  group_loop [] pending (pre ++ [b]) ++ group_loop [] [] ys.
Proof.
  induction pre as [|x pre IH]; intros pending b ys Hb.
  - simpl app. rewrite group_loop_other by exact Hb.
    destruct b; try discriminate; simpl; rewrite <- app_assoc; reflexivity.
  - destruct (is_pending_block x) eqn:Hx.
    + destruct x; try discriminate. simpl. apply IH. exact Hb.
    + rewrite <- !app_comm_cons.
      rewrite (group_loop_other pending x ((pre ++ [b]) ++ ys) Hx),
        (group_loop_other pending x (pre ++ [b]) Hx).
      rewrite IH by exact Hb. rewrite <- app_assoc. reflexivity.
Qed.

Lemma group_prefix pre ys :
  (pre = [] \/ exists pre' b, pre = pre' ++ [b] /\ is_pending_block b = false) ->
  group_list_items (pre ++ ys) = group_list_items pre ++ group_list_items ys.
Proof.
  intros [-> | (pre' & b & -> & Hb)]; [reflexivity|].
  unfold group_list_items. apply group_loop_split. exact Hb.
Qed.

(** C8: a maximal run of pending list items (preceded by nothing or by a
    block that is not a pending item, followed by nothing or by such a
    block) becomes exactly one list block, between the grouping of what
    precedes and of what follows. Its style is the first item's enumerated
    flag, whatever the others carry; its items are nested by depth
    relative to the first item, each item taking as children the following
    items up to the next one of depth at most its own. Items of depths
    [0; 1; 0] named Parent, Child and Sibling give one list whose roots
    are Parent, with the single child Child, and Sibling. *)
Theorem group_list_items_runs :
  (forall pre p0 run post,
     (pre = [] \/ exists pre' b, pre = pre' ++ [b] /\ is_pending_block b = false) ->
     match post with [] => True | b :: _ => is_pending_block b = false end ->
     group_list_items (pre ++ map PendingB (p0 :: run) ++ post) =
     group_list_items pre ++
     ListB (mk_list_block (pi_page p0)
              (if pi_enumerated p0 then Ordered else Unordered)
              (if pi_enumerated p0 then detect_marker_format (p0 :: run) else None)
              (nest_by_depth (p0 :: run)))
     :: group_list_items post) /\
  (forall pg en m1 m2 m3,
     group_list_items
       [PendingB (mk_pending_item "Parent" [] pg en m1 0);
        PendingB (mk_pending_item "Child" [] pg en m2 1);
        PendingB (mk_pending_item "Sibling" [] pg en m3 0)] =
     [ListB (mk_list_block pg (if en then Ordered else Unordered)
               (if en then detect_marker_format
                             [mk_pending_item "Parent" [] pg en m1 0;
                              mk_pending_item "Child" [] pg en m2 1;
                              mk_pending_item "Sibling" [] pg en m3 0]
                else None)
               [ListItem "Parent" [] [ListItem "Child" [] []];
                ListItem "Sibling" [] []])]).
Proof.
  split.
  - intros pre p0 run post Hpre Hpost.
    rewrite group_prefix by exact Hpre. f_equal.
    unfold group_list_items. rewrite group_loop_pending. simpl app.
    destruct post as [|b post].
    + cbn [group_loop flush_pending app]. rewrite nest_depth. reflexivity.
    + rewrite group_loop_other by exact Hpost. cbn [flush_pending app].
      rewrite nest_depth, (group_loop_other [] b post Hpost). reflexivity.
  - intros pg en m1 m2 m3. reflexivity.
Qed.

Lemma group_list_items_runs_witness :
  group_list_items
    [ParagraphB (mk_paragraph None "Intro" []);
     PendingB (mk_pending_item "First" [] None true "1." 0);
     PendingB (mk_pending_item "Second" [] None false "-" 1);
     PageBreakB None] =
  group_list_items [ParagraphB (mk_paragraph None "Intro" [])] ++
  ListB (mk_list_block None Ordered
           (detect_marker_format
              [mk_pending_item "First" [] None true "1." 0;
               mk_pending_item "Second" [] None false "-" 1])
           (nest_by_depth
              [mk_pending_item "First" [] None true "1." 0;
               mk_pending_item "Second" [] None false "-" 1]))
  :: group_list_items [PageBreakB None].
Proof.
  exact (proj1 group_list_items_runs
    [ParagraphB (mk_paragraph None "Intro" [])]
    (mk_pending_item "First" [] None true "1." 0)
    [mk_pending_item "Second" [] None false "-" 1]
    [PageBreakB None]
    (or_intror (ex_intro _ [] (ex_intro _ _ (conj eq_refl eq_refl))))
    eq_refl).
Defined.

(** ** Text normalisation *)

Lemma lstrip_spaces_app p t :
  forallb is_space p = true -> lstrip (p ++ t) = lstrip t.
Proof.
  induction p as [|c p IH]; simpl; [reflexivity|].
  intros H. apply andb_true_iff in H. destruct H as [Hc Hp].
  rewrite Hc. apply IH. exact Hp.
Qed.

Lemma lstrip_decomp s : exists p, s = p ++ lstrip s /\ forallb is_space p = true.
Proof.
  induction s as [|c s IH]; simpl.
  - exists []. auto.
  - destruct (is_space c) eqn:Hc.
    + destruct IH as (p & E & Hp). exists (c :: p). simpl. rewrite Hc, <- E. auto.
    + exists []. auto.
Qed.

Lemma lstrip_head s : match lstrip s with [] => True | c :: _ => is_space c = false end.
Proof.
  induction s as [|c s IH]; simpl; [exact I|].
  destruct (is_space c) eqn:Hc; [exact IH|exact Hc].
Qed.

Lemma lstrip_fix s :
  match s with [] => True | c :: _ => is_space c = false end -> lstrip s = s.
Proof. destruct s as [|c s]; simpl; [reflexivity|]. intros ->. reflexivity. Qed.

Lemma lstrip_idem s : lstrip (lstrip s) = lstrip s.
Proof. apply lstrip_fix, lstrip_head. Qed.

Lemma py_strip_ends s :
  match py_strip s with [] => True | c :: _ => is_space c = false end /\
  match rev (py_strip s) with [] => True | c :: _ => is_space c = false end.
Proof.
  unfold py_strip. rewrite rev_involutive. split; [|apply lstrip_head].
  destruct (lstrip_decomp (rev (lstrip s))) as (p & E & _).
  pose proof (lstrip_head s) as Hu.
  apply (f_equal (@rev ascii)) in E. rewrite rev_involutive, rev_app_distr in E.
  destruct (rev (lstrip (rev (lstrip s)))) as [|c v]; [exact I|].
  rewrite E in Hu. exact Hu.
Qed.

Lemma py_strip_fix w :
  match w with [] => True | c :: _ => is_space c = false end ->
  match rev w with [] => True | c :: _ => is_space c = false end ->
  py_strip w = w.
Proof.
  intros H1 H2. unfold py_strip. rewrite (lstrip_fix w H1), (lstrip_fix _ H2).
  apply rev_involutive.
Qed.

Lemma py_strip_idem s : py_strip (py_strip s) = py_strip s.
Proof. destruct (py_strip_ends s). apply py_strip_fix; assumption. Qed.

Lemma py_strip_infix s : exists u v, s = u ++ py_strip s ++ v.
Proof.
  destruct (lstrip_decomp s) as (p1 & E1 & _).
  destruct (lstrip_decomp (rev (lstrip s))) as (p2 & E2 & _).
  exists p1, (rev p2). unfold py_strip.
  apply (f_equal (@rev ascii)) in E2. rewrite rev_involutive, rev_app_distr in E2.
  rewrite E1 at 1. rewrite E2 at 1. reflexivity.
Qed.

Lemma blank_cases c : is_blank c = true -> c = " "%char \/ c = "009"%char.
Proof.
  unfold is_blank, lit_char. intros H. apply orb_true_iff in H.
  destruct H as [H|H]; apply Ascii.eqb_eq in H; auto.
Qed.

Lemma sub_blanks_props : forall s b,
  no_blank_pair (sub_blanks_go b s) = true /\
  (forall c, In c (sub_blanks_go b s) -> c <> "009"%char) /\
  (b = true -> hd_blank (sub_blanks_go b s) = false).
Proof.
  induction s as [|c s IH]; intros b; simpl.
  - repeat split; auto.
  - destruct (IH true) as (T1 & T2 & T3). destruct (IH false) as (F1 & F2 & F3).
    destruct (is_blank c) eqn:Hc; [destruct b|]; simpl.
    + repeat split; auto.
    + rewrite T3 by reflexivity. simpl. repeat split; auto; try discriminate.
      intros x [<-|Hx]; [discriminate|auto].
    + rewrite Hc. simpl. repeat split; auto.
      intros x [<-|Hx]; [|auto]. intros ->. discriminate.
Qed.

Lemma no_blank_pair_app x y :
  no_blank_pair (x ++ y) = true -> no_blank_pair x = true /\ no_blank_pair y = true.
Proof.
  induction x as [|c x IH]; simpl; [auto|].
  intros H. apply andb_true_iff in H. destruct H as [Hc H].
  destruct (IH H) as [Hx Hy]. split; [|exact Hy].
  rewrite Hx, andb_true_r. destruct x as [|c' x]; simpl in *.
  - rewrite andb_false_r. reflexivity.
  - exact Hc.
Qed.

Lemma no_blank_pair_spaces l :
  no_blank_pair l = true -> forall a b, l <> a ++ " "%char :: " "%char :: b.
Proof.
  intros H a. revert l H. induction a as [|x a IH]; intros l H b E; subst l.
  - discriminate.
  - simpl in H. apply andb_true_iff in H. destruct H as [_ H].
    exact (IH _ H b eq_refl).
Qed.

Lemma sub_blanks_clean : forall w b,
  (forall c, In c w -> c <> "009"%char) -> no_blank_pair w = true ->
  (b = true -> hd_blank w = false) -> sub_blanks_go b w = w.
Proof.
  induction w as [|c w IH]; intros b Ht Hp Hb; simpl; [reflexivity|].
  simpl in Hp. apply andb_true_iff in Hp. destruct Hp as [Hc Hp].
  destruct (is_blank c) eqn:Ebl.
  - destruct b; [simpl in Hb; rewrite Ebl in Hb; discriminate (Hb eq_refl)|].
    destruct (blank_cases c Ebl) as [->| ->]; [|exfalso; apply (Ht _ (or_introl eq_refl)); reflexivity].
    f_equal. apply IH; auto.
    + intros x Hx. apply Ht. right. exact Hx.
    + intros _. simpl in Hc. destruct (hd_blank w); [discriminate|reflexivity].
  - f_equal. apply IH; auto; [|discriminate].
    intros x Hx. apply Ht. right. exact Hx.
Qed.

(** The text of [_get_text] has no tab, no two adjacent spaces, no
    leading or trailing whitespace, and [_get_text] is idempotent. *)
Theorem get_text_normalized (t : string) :
  let r := chars (get_text (Some t)) in
  (forall c, In c r -> c <> "009"%char) /\
  (forall a b, r <> a ++ " "%char :: " "%char :: b) /\
  (forall c u, r = c :: u -> is_space c = false) /\
  (forall c u, r = u ++ [c] -> is_space c = false) /\
  get_text (Some (get_text (Some t))) = get_text (Some t).
Proof.
  cbv zeta. unfold get_text, normalize_ws, chars.
  rewrite !list_ascii_of_string_of_list_ascii.
  set (w := sub_blanks (list_ascii_of_string t)).
  destruct (sub_blanks_props (list_ascii_of_string t) false) as (H1 & H2 & _).
  change (sub_blanks_go false (list_ascii_of_string t)) with w in H1, H2.
  destruct (py_strip_infix w) as (u & v & E).
  assert (Hp : no_blank_pair (py_strip w) = true).
  { rewrite E in H1. apply no_blank_pair_app in H1. destruct H1 as [_ H1].
    apply no_blank_pair_app in H1. tauto. }
  assert (Ht : forall c, In c (py_strip w) -> c <> "009"%char).
  { intros c Hc. apply H2. rewrite E. apply in_or_app. right. apply in_or_app. auto. }
  destruct (py_strip_ends w) as [Hl Hr].
  split; [exact Ht|]. split; [apply no_blank_pair_spaces; exact Hp|].
  split; [intros c u' E'; rewrite E' in Hl; exact Hl|].
  split; [intros c u' E'; rewrite E', rev_app_distr in Hr; exact Hr|].
  unfold sub_blanks at 1. rewrite sub_blanks_clean by (auto; discriminate).
  rewrite py_strip_idem. reflexivity.
Qed.

(** ** Tables *)

Section FoldMax.
Variable f : table_cell -> Z.

Lemma fold_max_bound : forall l m,
  (m <= fold_left (fun m x => Z.max m (f x)) l m)%Z /\
  (forall x, In x l -> f x <= fold_left (fun m x => Z.max m (f x)) l m)%Z.
Proof.
  induction l as [|x l IH]; intros m; simpl.
  - split; [lia|intros _ []].
  - destruct (IH (Z.max m (f x))) as [H1 H2]. split; [lia|].
    intros y [<-|Hy]; [lia|auto].
Qed.

Lemma fold_max_attained : forall l m,
  fold_left (fun m x => Z.max m (f x)) l m = m \/
  exists x, In x l /\ f x = fold_left (fun m x => Z.max m (f x)) l m.
Proof.
  induction l as [|x l IH]; intros m; simpl; [auto|].
  destruct (IH (Z.max m (f x))) as [H|(y & Hy & E)].
  - rewrite H. destruct (Z.max_spec m (f x)) as [[_ ->]|[_ ->]]; [right|left]; eauto.
  - right. eauto.
Qed.
End FoldMax.

Lemma native_loop_eq : forall tcs cells mr mc,
  native_loop tcs cells mr mc =
  (cells ++ map native_cell tcs,
   fold_left (fun m x => Z.max m (c_row x + c_row_span x)%Z) (map native_cell tcs) mr,
   fold_left (fun m x => Z.max m (c_col x + c_col_span x)%Z) (map native_cell tcs) mc).
Proof.
  induction tcs as [|tc tcs IH]; intros cells mr mc; simpl.
  - rewrite app_nil_r. reflexivity.
  - rewrite IH, <- app_assoc. reflexivity.
Qed.

Lemma native_cell_spans tc : (1 <= c_row_span (native_cell tc))%Z /\ (1 <= c_col_span (native_cell tc))%Z.
Proof. unfold native_cell. simpl. lia. Qed.

Lemma native_table_facts (page : option Z) :
  (forall tcs, convert_table_native page tcs = None <-> tcs = None \/ tcs = Some []) /\
  (forall l, l <> [] -> exists t,
     convert_table_native page (Some l) = Some t /\
     t_page t = page /\ t_cells t = map native_cell l /\
     (0 <= t_num_rows t)%Z /\ (0 <= t_num_cols t)%Z /\
     (forall c, In c (t_cells t) ->
        (1 <= c_row_span c)%Z /\ (1 <= c_col_span c)%Z /\
        (c_row c + c_row_span c <= t_num_rows t)%Z /\
        (c_col c + c_col_span c <= t_num_cols t)%Z) /\
     (t_num_rows t = 0%Z \/ exists c, In c (t_cells t) /\ (c_row c + c_row_span c = t_num_rows t)%Z) /\
     (t_num_cols t = 0%Z \/ exists c, In c (t_cells t) /\ (c_col c + c_col_span c = t_num_cols t)%Z)).
Proof.
  split.
  - intros [[|tc l]|]; unfold convert_table_native; simpl.
    + split; auto.
    + rewrite native_loop_eq. simpl. split; [discriminate|].
      intros [H|H]; discriminate.
    + split; auto.
  - intros [|tc l] Hne; [congruence|].
    unfold convert_table_native. rewrite native_loop_eq. simpl app.
    eexists. split; [reflexivity|]. cbn [t_page t_cells t_num_rows t_num_cols].
    set (cs := map native_cell (tc :: l)).
    destruct (fold_max_bound (fun x => c_row x + c_row_span x)%Z cs 0%Z) as [R1 R2].
    destruct (fold_max_bound (fun x => c_col x + c_col_span x)%Z cs 0%Z) as [C1 C2].
    split; [reflexivity|]. split; [reflexivity|]. split; [exact R1|]. split; [exact C1|].
    split; [|split].
    + intros c Hc. pose proof (R2 c Hc). pose proof (C2 c Hc).
      assert (Hc' : In c (map native_cell (tc :: l))) by exact Hc.
      apply in_map_iff in Hc'. destruct Hc' as (tc' & <- & _).
      destruct (native_cell_spans tc'). auto.
    + destruct (fold_max_attained (fun x => c_row x + c_row_span x)%Z cs 0%Z) as [H|H];
        [left; exact H|right; exact H].
    + destruct (fold_max_attained (fun x => c_col x + c_col_span x)%Z cs 0%Z) as [H|H];
        [left; exact H|right; exact H].
Qed.

(** [_convert_table_native] gives no table exactly when there are no
    cells; otherwise the table keeps the page, has one cell per Docling
    cell in order, every span is at least 1, every cell fits in the
    [num_rows] x [num_cols] grid, and the grid is no larger than needed:
    each of its dimensions is 0 or reached by some cell. *)
Theorem convert_table_native_shape (page : option Z) :
  (forall tcs, convert_table_native page tcs = None <-> tcs = None \/ tcs = Some []) /\
  (forall l, l <> [] -> exists t,
     convert_table_native page (Some l) = Some t /\
     t_page t = page /\ t_cells t = map native_cell l /\
     (0 <= t_num_rows t)%Z /\ (0 <= t_num_cols t)%Z /\
     (forall c, In c (t_cells t) ->
        (1 <= c_row_span c)%Z /\ (1 <= c_col_span c)%Z /\
        (c_row c + c_row_span c <= t_num_rows t)%Z /\
        (c_col c + c_col_span c <= t_num_cols t)%Z) /\
     (t_num_rows t = 0%Z \/ exists c, In c (t_cells t) /\ (c_row c + c_row_span c = t_num_rows t)%Z) /\
     (t_num_cols t = 0%Z \/ exists c, In c (t_cells t) /\ (c_col c + c_col_span c = t_num_cols t)%Z)).
Proof. exact (native_table_facts page). Qed.

Lemma convert_table_native_shape_witness :
  exists t,
    convert_table_native None
      (Some [mk_docling_cell (Some 0%Z) (Some 2%Z) (Some 0%Z) None (Some "A  b"%string)]) = Some t /\
    t_page t = None /\
    t_cells t = map native_cell
      [mk_docling_cell (Some 0%Z) (Some 2%Z) (Some 0%Z) None (Some "A  b"%string)] /\
    (0 <= t_num_rows t)%Z /\ (0 <= t_num_cols t)%Z /\
    (forall c, In c (t_cells t) ->
       (1 <= c_row_span c)%Z /\ (1 <= c_col_span c)%Z /\
       (c_row c + c_row_span c <= t_num_rows t)%Z /\
       (c_col c + c_col_span c <= t_num_cols t)%Z) /\
    (t_num_rows t = 0%Z \/ exists c, In c (t_cells t) /\ (c_row c + c_row_span c = t_num_rows t)%Z) /\
    (t_num_cols t = 0%Z \/ exists c, In c (t_cells t) /\ (c_col c + c_col_span c = t_num_cols t)%Z).
Proof.
  apply (proj2 (convert_table_native_shape None)). discriminate.
Defined.

Lemma build_loop_writes nr nc : forall cells merged w,
  In w (build_loop nr nc merged cells) ->
  exists cd, In cd cells /\ w_row w = c_row cd /\ w_col w = c_col cd /\
    (c_row cd < nr)%Z /\ (c_col cd < nc)%Z /\
    w_merge w =
      (if (c_row cd <? Z.min (c_row cd + c_row_span cd - 1) (nr - 1))%Z
          || (c_col cd <? Z.min (c_col cd + c_col_span cd - 1) (nc - 1))%Z
       then Some (Z.min (c_row cd + c_row_span cd - 1) (nr - 1),
                  Z.min (c_col cd + c_col_span cd - 1) (nc - 1))%Z
       else None).
Proof.
  induction cells as [|cd cells IH]; intros merged w H; simpl in H; [destruct H|].
  destruct (existsb _ merged).
  - destruct (IH _ _ H) as (cd' & Hin & Hrest). exists cd'. split; [right; exact Hin|exact Hrest].
  - destruct ((nr <=? c_row cd)%Z || (nc <=? c_col cd)%Z) eqn:Eb.
    + destruct (IH _ _ H) as (cd' & Hin & Hrest). exists cd'. split; [right; exact Hin|exact Hrest].
    + destruct H as [<-|H].
      * exists cd. apply orb_false_iff in Eb. destruct Eb as [E1 E2].
        apply Z.leb_gt in E1, E2. simpl. repeat split; auto.
      * destruct (IH _ _ H) as (cd' & Hin & Hrest). exists cd'. split; [right; exact Hin|exact Hrest].
Qed.

(** When every cell has a non-negative anchor and spans of at least 1,
    [build_table] only addresses cells inside the grid it creates: each
    written anchor and each far corner of a merge. *)
Theorem build_table_in_grid (t : table) :
  (forall c, In c (t_cells t) ->
     (0 <= c_row c)%Z /\ (0 <= c_col c)%Z /\
     (1 <= c_row_span c)%Z /\ (1 <= c_col_span c)%Z) ->
  match build_table t with
  | TPlaceholder => True
  | TGrid nr nc ws => forall w, In w ws ->
      (0 <= w_row w < nr)%Z /\ (0 <= w_col w < nc)%Z /\
      (forall er ec, w_merge w = Some (er, ec) ->
         (w_row w <= er < nr)%Z /\ (w_col w <= ec < nc)%Z)
  end.
Proof.
  intros H. unfold build_table.
  destruct (_ || _); [exact I|]. intros w Hw.
  apply build_loop_writes in Hw.
  destruct Hw as (cd & Hin & -> & -> & Hr & Hc & Hm).
  destruct (H cd Hin) as (H1 & H2 & H3 & H4).
  split; [lia|]. split; [lia|]. intros er ec. rewrite Hm.
  destruct (_ || _); [|discriminate]. intros E. injection E as <- <-. lia.
Qed.

Lemma build_table_in_grid_witness :
  match build_table (mk_table None 0 0
          [mk_table_cell 0 0 2 1 "x" []; mk_table_cell 1 0 1 1 "y" []]) with
  | TPlaceholder => True
  | TGrid nr nc ws => forall w, In w ws ->
      (0 <= w_row w < nr)%Z /\ (0 <= w_col w < nc)%Z /\
      (forall er ec, w_merge w = Some (er, ec) ->
         (w_row w <= er < nr)%Z /\ (w_col w <= ec < nc)%Z)
  end.
Proof.
  apply build_table_in_grid. simpl.
  intros c [<-|[<-|[]]]; simpl; lia.
Defined.

(** A table made by [_convert_table_native] from cells with non-negative
    start offsets is rendered by [build_table] on its own
    [num_rows] x [num_cols] grid, and no write is clipped: each merge
    covers exactly the cell's spans. *)
Theorem native_table_unclipped (page : option Z) (l : list docling_cell) (t : table) :
  convert_table_native page (Some l) = Some t ->
  (forall tc, In tc l ->
     (0 <= getattr_or (tc_start_row tc) 0)%Z /\ (0 <= getattr_or (tc_start_col tc) 0)%Z) ->
  exists ws, build_table t = TGrid (t_num_rows t) (t_num_cols t) ws /\
    forall w, In w ws -> exists c, In c (t_cells t) /\
      w_row w = c_row c /\ w_col w = c_col c /\
      w_merge w =
        (if (1 <? c_row_span c)%Z || (1 <? c_col_span c)%Z
         then Some ((c_row c + c_row_span c - 1)%Z, (c_col c + c_col_span c - 1)%Z)
         else None).
Proof.
  intros Ht Hl.
  destruct l as [|tc0 l0]; [discriminate|].
  destruct (proj2 (native_table_facts page) (tc0 :: l0) ltac:(discriminate))
    as (t' & Ht' & _ & Hcells & _ & _ & Hfit & _ & _).
  rewrite Ht in Ht'. injection Ht' as <-.
  assert (Hin0 : In (native_cell tc0) (t_cells t)) by (rewrite Hcells; left; reflexivity).
  destruct (Hfit _ Hin0) as (S1 & S2 & F1 & F2).
  assert (Hnn : forall c, In c (t_cells t) -> (0 <= c_row c)%Z /\ (0 <= c_col c)%Z).
  { intros c Hc. rewrite Hcells in Hc. apply in_map_iff in Hc.
    destruct Hc as (tc & <- & Hin). destruct (Hl tc Hin). unfold native_cell. simpl. auto. }
  destruct (Hnn _ Hin0) as [N1 N2].
  unfold build_table.
  assert (E1 : (t_num_rows t =? 0)%Z = false) by (apply Z.eqb_neq; lia).
  assert (E2 : (t_num_cols t =? 0)%Z = false) by (apply Z.eqb_neq; lia).
  rewrite !E1, !E2. simpl orb.
  eexists. split; [reflexivity|].
  intros w Hw. apply build_loop_writes in Hw.
  destruct Hw as (cd & Hin & -> & -> & Hr & Hc & Hm).
  exists cd. split; [exact Hin|]. split; [reflexivity|]. split; [reflexivity|].
  destruct (Hfit cd Hin) as (T1 & T2 & T3 & T4).
  rewrite Hm.
  rewrite (Z.min_l (c_row cd + c_row_span cd - 1) (t_num_rows t - 1)) by lia.
  rewrite (Z.min_l (c_col cd + c_col_span cd - 1) (t_num_cols t - 1)) by lia.
  replace (c_row cd <? c_row cd + c_row_span cd - 1)%Z with (1 <? c_row_span cd)%Z
    by (apply Bool.eq_iff_eq_true; rewrite !Z.ltb_lt; lia).
  replace (c_col cd <? c_col cd + c_col_span cd - 1)%Z with (1 <? c_col_span cd)%Z
    by (apply Bool.eq_iff_eq_true; rewrite !Z.ltb_lt; lia).
  reflexivity.
Qed.

Lemma native_table_unclipped_witness :
  let l := [mk_docling_cell (Some 0%Z) (Some 2%Z) (Some 0%Z) None (Some "A"%string);
            mk_docling_cell (Some 0%Z) None (Some 1%Z) (Some 3%Z) None] in
  exists ws,
    build_table (mk_table None 2 3 (map native_cell l)) = TGrid 2 3 ws /\
    forall w, In w ws -> exists c, In c (map native_cell l) /\
      w_row w = c_row c /\ w_col w = c_col c /\
      w_merge w =
        (if (1 <? c_row_span c)%Z || (1 <? c_col_span c)%Z
         then Some ((c_row c + c_row_span c - 1)%Z, (c_col c + c_col_span c - 1)%Z)
         else None).
Proof.
  intros l.
  exact (native_table_unclipped None l (mk_table None 2 3 (map native_cell l))
           eq_refl (fun tc Hin => ltac:(destruct Hin as [<-|[<-|[]]]; simpl; lia))).
Defined.

(** ** Bounds kept by heading level resolution *)

Lemma py_split_nonempty sep s : py_split sep s <> [].
Proof.
  induction s as [|c s IH]; simpl; [discriminate|].
  destruct (Ascii.eqb c sep); [discriminate|].
  destruct (py_split sep s); discriminate.
Qed.

Lemma level_from_numbering_range text n :
  level_from_numbering text = Some n -> (1 <= n <= 9)%Z.
Proof.
  unfold level_from_numbering. cbv zeta.
  destruct (rgroup REps num_multi bare_post _) as [g|].
  - intros E. injection E as <-. pose proof (py_split_nonempty "." g) as Hn.
    destruct (py_split "." g); [congruence|]. simpl length. lia.
  - destruct (rgroup REps num_any numbered_post _) as [g|].
    + destruct (_ && _); [discriminate|]. intros E. injection E as <-.
      pose proof (py_split_nonempty "." g) as Hn.
      destruct (py_split "." g); [congruence|]. simpl length. lia.
    + destruct (rgroup letter_pre num_any sp _) as [g|]; [|discriminate].
      intros E. injection E as <-. lia.
Qed.

Lemma Qmax_unit (a b : Q) : (0 <= a <= 1)%Q -> (0 <= b <= 1)%Q -> (0 <= Qmax a b <= 1)%Q.
Proof.
  intros [A1 A2] [B1 B2]. split.
  - apply Qle_trans with a; [exact A1|apply Q.le_max_l].
  - apply Q.max_lub; assumption.
Qed.

Lemma Qmin_unit (a b : Q) : (0 <= a <= 1)%Q -> (0 <= b <= 1)%Q -> (0 <= Qmin a b <= 1)%Q.
Proof.
  intros [A1 A2] [B1 B2]. split.
  - apply Q.min_glb; assumption.
  - apply Qle_trans with a; [apply Q.le_min_l|exact A2].
Qed.

Lemma resolve_heading_bounds off st h :
  (0 <= off <= 1)%Z -> (1 <= last_level st <= 9)%Z ->
  (0 <= h_confidence h <= 1)%Q ->
  (1 <= h_level (fst (resolve_heading off st h)) <= 9)%Z /\
  (0 <= h_confidence (fst (resolve_heading off st h)) <= 1)%Q /\
  h_reason (fst (resolve_heading off st h)) <> None.
Proof.
  intros Ho Hl Hc. unfold resolve_heading.
  destruct (is_level1_structural (h_text h)).
  - simpl. rewrite py_max_Qmax. split; [lia|]. split; [|discriminate].
    apply Qmax_unit; [exact Hc|split; unfold Qle; simpl; lia].
  - destruct (level_from_numbering (h_text h)) as [n|] eqn:En.
    + apply level_from_numbering_range in En. simpl.
      split; [lia|]. split; [exact Hc|discriminate].
    + destruct (negb (first_heading_seen st)); simpl; rewrite py_min_Qmin.
      * split; [lia|]. split; [|discriminate].
        apply Qmin_unit; [exact Hc|split; unfold Qle; simpl; lia].
      * split; [lia|]. split; [|discriminate].
        apply Qmin_unit; [exact Hc|split; unfold Qle; simpl; lia].
Qed.

Lemma resolve_loop_bounds off : forall els st,
  (0 <= off <= 1)%Z -> (1 <= last_level st <= 9)%Z ->
  (forall h ch, In (HeadingB h ch) els -> (0 <= h_confidence h <= 1)%Q) ->
  forall h ch, In (HeadingB h ch) (resolve_loop off st els) ->
    (1 <= h_level h <= 9)%Z /\ (0 <= h_confidence h <= 1)%Q /\ h_reason h <> None.
Proof.
  induction els as [|x els IH]; intros st Ho Hl Hin h ch Hh; [destruct Hh|].
  destruct x as [h0 ch0| | | | | |]; simpl in Hh;
    try (destruct Hh as [Hh|Hh]; [discriminate|];
         refine (IH st Ho Hl _ h ch Hh); intros h1 ch1 H1; apply (Hin h1 ch1); right; exact H1).
  pose proof (resolve_heading_state off st h0) as Hs.
  pose proof (resolve_heading_bounds off st h0 Ho Hl (Hin h0 ch0 (or_introl eq_refl))) as Hb.
  destruct (resolve_heading off st h0) as [h' st'] eqn:E. simpl in Hs, Hb.
  destruct Hh as [Hh|Hh].
  - injection Hh as <- <-. exact Hb.
  - refine (IH st' Ho _ _ h ch Hh).
    + rewrite Hs. simpl. lia.
    + intros h1 ch1 H1. apply (Hin h1 ch1). right. exact H1.
Qed.

(** ** Compound heading split *)

Section CompoundSplitProofs.

Variable is_bullet : ascii -> bool.

Lemma sep_match_triple pv v st' :
  In st' (rmatch (compound_sep_re is_bullet) (pv, v)) -> sep_triple is_bullet v.
Proof.
  unfold compound_sep_re, sp. intros H.
  apply in_seq in H. destruct H as ([pv1 s1] & H1 & H2).
  apply in_plus_char in H1. destruct H1 as (n & t & -> & Hn & Hsp & E1).
  injection E1 as _ ->.
  apply in_seq in H2. destruct H2 as ([pv2 s2] & H2 & H3).
  apply in_char in H2. destruct H2 as (y & t1 & -> & Hy & E2).
  injection E2 as _ ->.
  apply in_plus_char in H3. destruct H3 as (n2 & t2 & -> & Hn2 & Hsp2 & _).
  destruct n2 as [|z n2]; [congruence|].
  destruct (exists_last Hn) as (n' & x & ->).
  rewrite forallb_app in Hsp. simpl in Hsp, Hsp2.
  apply andb_true_iff in Hsp. destruct Hsp as [_ Hx].
  apply andb_true_iff in Hx. destruct Hx as [Hx _].
  apply andb_true_iff in Hsp2. destruct Hsp2 as [Hz _].
  exists n', x, y, z, (n2 ++ t2). rewrite <- app_assoc. simpl.
  repeat split; assumption.
Qed.

Lemma triple_sep_match pv x y z w :
  is_space x = true -> is_bullet y = true -> is_space z = true ->
  rmatch (compound_sep_re is_bullet) (pv, x :: y :: z :: w) <> [].
Proof.
  intros Hx Hy Hz E.
  assert (H : In (Some z, w) (rmatch (compound_sep_re is_bullet) (pv, x :: y :: z :: w))).
  { unfold compound_sep_re, sp. apply in_seq. exists (Some x, y :: z :: w). split.
    - apply in_plus_char. exists [x], (y :: z :: w). simpl. rewrite Hx. repeat split; discriminate.
    - apply in_seq. exists (Some y, z :: w). split.
      + apply in_char. exists y, (z :: w). auto.
      + apply in_plus_char. exists [z], w. simpl. rewrite Hz. repeat split; discriminate. }
  rewrite E in H. destruct H.
Qed.

Lemma sep_triple_cons c t : sep_triple is_bullet t -> sep_triple is_bullet (c :: t).
Proof.
  intros (u & x & y & z & w & -> & H). exists (c :: u), x, y, z, w. auto.
Qed.

Lemma search_no_triple : forall s pv before,
  ~ sep_triple is_bullet s -> re_search_go (compound_sep_re is_bullet) pv before s = None.
Proof.
  induction s as [|c t IH]; intros pv before H; cbn [re_search_go].
  - destruct (rmatch (compound_sep_re is_bullet) (pv, [])) as [|st l] eqn:E; [reflexivity|].
    exfalso. apply H. apply (sep_match_triple pv [] st). rewrite E. left. reflexivity.
  - destruct (rmatch (compound_sep_re is_bullet) (pv, c :: t)) as [|st l] eqn:E.
    + apply IH. intros Ht. apply H. apply sep_triple_cons. exact Ht.
    + exfalso. apply H. apply (sep_match_triple pv (c :: t) st). rewrite E. left. reflexivity.
Qed.

Lemma search_some_prefix : forall s pv before p0 p1,
  re_search_go (compound_sep_re is_bullet) pv before s = Some (p0, p1) ->
  exists mid s', p0 = before ++ mid /\ s = mid ++ s' /\ ~ sep_triple is_bullet mid.
Proof.
  induction s as [|c t IH]; intros pv before p0 p1 H; cbn [re_search_go] in H.
  - destruct (rmatch (compound_sep_re is_bullet) (pv, [])) as [|st l]; [discriminate|].
    injection H as <- _. exists [], []. rewrite app_nil_r.
    split; [reflexivity|]. split; [reflexivity|].
    intros (u & x & y & z & w & E & _). destruct u; discriminate.
  - destruct (rmatch (compound_sep_re is_bullet) (pv, c :: t)) as [|st l] eqn:E.
    + destruct (IH _ _ _ _ H) as (mid & s' & -> & -> & Hm).
      exists (c :: mid), s'. rewrite <- app_assoc. split; [reflexivity|].
      split; [reflexivity|].
      intros (u & x & y & z & w & Eu & Hx & Hy & Hz). destruct u as [|a u].
      * simpl in Eu. injection Eu as Ec Em. subst c mid.
        apply (triple_sep_match pv x y z (w ++ s') Hx Hy Hz). exact E.
      * injection Eu as _ ->. apply Hm. exists u, x, y, z, w. auto.
    + injection H as <- _. exists [], (c :: t). rewrite app_nil_r.
      split; [reflexivity|]. split; [reflexivity|].
      intros (u & x & y & z & w & Eu & _). destruct u; discriminate.
Qed.

Lemma split_heading_text_clean h part0 part1 :
  re_search (compound_sep_re is_bullet) (chars (h_text h)) = Some (part0, part1) ->
  re_search (compound_sep_re is_bullet)
    (chars (string_of_list_ascii (py_strip part0))) = None.
Proof.
  intros H. unfold re_search in *.
  destruct (search_some_prefix _ _ _ _ _ H) as (mid & s' & -> & _ & Hm).
  change ([] ++ mid) with mid.
  unfold chars. rewrite list_ascii_of_string_of_list_ascii.
  apply search_no_triple. intros (u & x & y & z & w & Eu & Hxyz).
  apply Hm. destruct (py_strip_infix mid) as (a & b & Em).
  simpl in Em. rewrite Eu in Em.
  exists (a ++ u), x, y, z, (w ++ b). split; [|exact Hxyz].
  rewrite Em. rewrite <- !app_assoc. reflexivity.
Qed.

Lemma split_compound_heading_stable el :
  flat_map (split_compound_heading is_bullet) (split_compound_heading is_bullet el) =
  split_compound_heading is_bullet el /\
  (forall h ch, In (HeadingB h ch) (split_compound_heading is_bullet el) ->
     re_search (compound_sep_re is_bullet) (chars (h_text h)) = None).
Proof.
  destruct el as [h ch| | | | | |]; simpl;
    try (split; [reflexivity|intros h' ch' [E|[]]; discriminate]).
  destruct (re_search _ (chars (h_text h))) as [[part0 part1]|] eqn:E.
  - pose proof (split_heading_text_clean h part0 part1 E) as Hc.
    simpl. rewrite Hc. split; [reflexivity|].
    intros h' ch' [E'|[E'|[]]]; [|discriminate]. injection E' as <- _. exact Hc.
  - simpl. rewrite E. split; [reflexivity|].
    intros h' ch' [E'|[]]. injection E' as <- _. exact E.
Qed.

End CompoundSplitProofs.

(** After [_split_compound_headings] no heading text contains a separator
    [\s+[·•]\s+], so a second pass changes nothing. *)
Theorem split_compound_headings_idem (is_bullet : ascii -> bool) (xs : list block) :
  (forall h ch, In (HeadingB h ch) (split_compound_headings is_bullet xs) ->
     re_search (compound_sep_re is_bullet) (chars (h_text h)) = None) /\
  split_compound_headings is_bullet (split_compound_headings is_bullet xs) =
  split_compound_headings is_bullet xs.
Proof.
  unfold split_compound_headings. split.
  - intros h ch H. apply in_flat_map in H. destruct H as (el & _ & H).
    exact (proj2 (split_compound_heading_stable is_bullet el) h ch H).
  - induction xs as [|x xs IH]; [reflexivity|].
    simpl. rewrite flat_map_app, IH.
    rewrite (proj1 (split_compound_heading_stable is_bullet x)). reflexivity.
Qed.

(** ** Runs, elements and furniture of [_extract_elements] *)

Lemma format_run_scripts text fmt :
  ~ (tr_superscript (format_run text fmt) = true /\ tr_subscript (format_run text fmt) = true).
Proof.
  unfold format_run. simpl. destruct (fm_script fmt) as [s|]; [|intros [H _]; discriminate].
  intros [H1 H2]. apply String.eqb_eq in H1, H2. rewrite H1 in H2. discriminate.
Qed.

(** Every run [_extract_runs] builds has a non-empty text and no
    highlight, and none is both superscript and subscript. *)
Theorem extract_runs_wellformed (item : doc_item) (r : text_run) :
  In r (extract_runs item) ->
  tr_text r <> ""%string /\ tr_highlight r = None /\
  ~ (tr_superscript r = true /\ tr_subscript r = true).
Proof.
  assert (Hc : forall l, In r (child_runs l) ->
            tr_text r <> ""%string /\ tr_highlight r = None /\
            ~ (tr_superscript r = true /\ tr_subscript r = true)).
  { intros l H. unfold child_runs in H. apply in_flat_map in H.
    destruct H as (child & _ & H).
    destruct (String.eqb (dc_text child) "") eqn:E; [destruct H|].
    apply String.eqb_neq in E.
    destruct (dc_formatting child) as [fmt|]; destruct H as [<-|[]].
    - split; [exact E|]. split; [reflexivity|]. apply format_run_scripts.
    - split; [exact E|]. split; [reflexivity|]. intros [H _]. discriminate. }
  unfold extract_runs. intros H.
  destruct (child_runs (di_children item)) as [|r0 rs] eqn:Ec.
  - destruct (di_formatting item) as [fmt|]; [|destruct H].
    destruct (String.eqb (get_text (di_text item)) "") eqn:E; [destruct H|].
    apply String.eqb_neq in E. destruct H as [<-|[]].
    split; [exact E|]. split; [reflexivity|]. apply format_run_scripts.
  - apply (Hc (di_children item)). rewrite Ec. exact H.
Qed.

Lemma extract_runs_wellformed_witness :
  In (format_run "x" (mk_text_format true false false false (Some "superscript"%string)))
     (extract_runs (mk_doc_item LTitle (Some "x"%string) [] []
        (Some (mk_text_format true false false false (Some "superscript"%string)))
        false ""%string None None [] None)) /\
  tr_text (format_run "x" (mk_text_format true false false false (Some "superscript"%string)))
    <> ""%string /\
  tr_highlight (format_run "x" (mk_text_format true false false false (Some "superscript"%string)))
    = None /\
  ~ (tr_superscript (format_run "x" (mk_text_format true false false false (Some "superscript"%string))) = true /\
     tr_subscript (format_run "x" (mk_text_format true false false false (Some "superscript"%string))) = true).
Proof.
  assert (H : In (format_run "x" (mk_text_format true false false false (Some "superscript"%string)))
     (extract_runs (mk_doc_item LTitle (Some "x"%string) [] []
        (Some (mk_text_format true false false false (Some "superscript"%string)))
        false ""%string None None [] None))) by (vm_compute; left; reflexivity).
  split; [exact H|]. exact (extract_runs_wellformed _ _ H).
Defined.

Lemma extract_step_inv fi st entry :
  (forall b, In b (ex_elements st) -> extracted_block b) ->
  (forall b, In b (ex_elements (extract_step fi st entry)) -> extracted_block b) /\
  ex_has_parts (extract_step fi st entry) = ex_has_parts st || sets_has_parts entry.
Proof.
  destruct entry as [item d]. intros Hst.
  assert (Hadd : forall x, extracted_block x ->
            forall b, In b (ex_elements st ++ [x]) -> extracted_block b).
  { intros x Hx b Hb. apply in_app_or in Hb. destruct Hb as [Hb|[<-|[]]]; auto. }
  unfold extract_step, extract_content, sets_has_parts. simpl fst.
  destruct (convert_table item (get_page_number item)) as [t|];
  destruct (nonblank (get_text (di_text item))) eqn:En;
  destruct (di_label item) eqn:El; simpl; rewrite ?orb_false_r;
  first [ split; [exact Hst|reflexivity]
        | split; [apply Hadd; simpl; auto 6|reflexivity] ].
Qed.

Lemma extract_fold_inv fi : forall items st,
  (forall b, In b (ex_elements st) -> extracted_block b) ->
  (forall b, In b (ex_elements (fold_left (extract_step fi) items st)) -> extracted_block b) /\
  ex_has_parts (fold_left (extract_step fi) items st) =
  ex_has_parts st || existsb sets_has_parts items.
Proof.
  induction items as [|e items IH]; intros st Hst; simpl.
  - rewrite orb_false_r. auto.
  - destruct (extract_step_inv fi st e Hst) as [H1 H2].
    destruct (IH _ H1) as [H3 H4]. split; [exact H3|].
    rewrite H4, H2, orb_assoc. reflexivity.
Qed.


Lemma furniture_type_eqb_eq a b : furniture_type_eqb a b = true <-> a = b.
Proof. destruct a, b; simpl; split; congruence. Qed.

Lemma furniture_key_eqb f ty t :
  furniture_type_eqb (fu_type f) ty && String.eqb (fu_text f) t = true <->
  furniture_key f = (ty, t).
Proof.
  unfold furniture_key. rewrite andb_true_iff, furniture_type_eqb_eq, String.eqb_eq.
  split; [intros [-> ->]; reflexivity|intros E; injection E as -> ->; auto].
Qed.

Lemma furniture_add_keys : forall fm ty t p,
  map furniture_key (furniture_add fm ty t p) =
  if existsb (fun f => furniture_type_eqb (fu_type f) ty && String.eqb (fu_text f) t) fm
  then map furniture_key fm else map furniture_key fm ++ [(ty, t)].
Proof.
  induction fm as [|f fm IH]; intros ty t p; [reflexivity|].
  simpl. destruct (furniture_type_eqb (fu_type f) ty && String.eqb (fu_text f) t) eqn:E.
  - simpl. destruct (truthy_page p) as [z|]; [destruct (existsb (Z.eqb z) (fu_pages f))|];
      reflexivity.
  - simpl. rewrite IH. destruct (existsb _ fm); reflexivity.
Qed.

Lemma furniture_add_nodup fm ty t p :
  NoDup (map furniture_key fm) -> NoDup (map furniture_key (furniture_add fm ty t p)).
Proof.
  intros H. rewrite furniture_add_keys.
  destruct (existsb _ fm) eqn:E; [exact H|].
  apply NoDup_app; [exact H|constructor; [intros []|constructor]|].
  intros k Hk [<-|[]]. apply in_map_iff in Hk. destruct Hk as (f & Hf & Hin).
  assert (Hx : existsb (fun f => furniture_type_eqb (fu_type f) ty && String.eqb (fu_text f) t) fm = true).
  { apply existsb_exists. exists f. split; [exact Hin|]. apply furniture_key_eqb. exact Hf. }
  congruence.
Qed.

Lemma truthy_page_nz p z : truthy_page p = Some z -> z <> 0%Z.
Proof.
  unfold truthy_page. destruct p as [q|]; [|discriminate].
  destruct (q =? 0)%Z eqn:E; [discriminate|]. intros H; injection H as <-.
  apply Z.eqb_neq. exact E.
Qed.

Lemma furniture_add_ok : forall fm ty t p,
  t <> ""%string -> (forall f, In f fm -> furniture_pages_ok f) ->
  forall f, In f (furniture_add fm ty t p) -> furniture_pages_ok f.
Proof.
  induction fm as [|g fm IH]; intros ty t p Ht Hok f Hf; simpl in Hf.
  - destruct Hf as [<-|[]]. unfold furniture_pages_ok. simpl.
    destruct (truthy_page p) as [z|] eqn:Ez.
    + split; [exact Ht|]. split; [constructor; [intros []|constructor]|].
      intros [H|[]]. apply (truthy_page_nz p z Ez). auto.
    + split; [exact Ht|]. split; [constructor|intros []].
  - destruct (furniture_type_eqb (fu_type g) ty && String.eqb (fu_text g) t) eqn:E.
    + destruct (truthy_page p) as [z|] eqn:Ez;
        [destruct (existsb (Z.eqb z) (fu_pages g)) eqn:Ex|].
      * apply Hok. exact Hf.
      * destruct Hf as [<-|Hf]; [|apply Hok; right; exact Hf].
        destruct (Hok g (or_introl eq_refl)) as (H1 & H2 & H3).
        unfold furniture_pages_ok. simpl. split; [exact H1|]. split.
        -- apply NoDup_app; [exact H2|constructor; [intros []|constructor]|].
           intros y Hy [Ey|[]]. subst z.
           assert (existsb (Z.eqb y) (fu_pages g) = true)
             by (apply existsb_exists; exists y; split; [exact Hy|apply Z.eqb_refl]).
           congruence.
        -- intros Hz. apply in_app_or in Hz. destruct Hz as [Hz|[Hz|[]]]; [auto|].
           apply (truthy_page_nz p z Ez). auto.
      * apply Hok. exact Hf.
    + destruct Hf as [<-|Hf]; [apply Hok; left; reflexivity|].
      apply (IH ty t p Ht); [intros f' H'; apply Hok; right; exact H'|exact Hf].
Qed.

Lemma furniture_add_sound : forall fm ty t p f,
  In f (furniture_add fm ty t p) ->
  (exists g, In g fm /\ furniture_key g = furniture_key f) \/ furniture_key f = (ty, t).
Proof.
  induction fm as [|g fm IH]; intros ty t p f Hf; simpl in Hf.
  - destruct Hf as [<-|[]]. right. reflexivity.
  - destruct (furniture_type_eqb (fu_type g) ty && String.eqb (fu_text g) t) eqn:E.
    + assert (Hg : forall f, In f (g :: fm) ->
                exists g', In g' (g :: fm) /\ furniture_key g' = furniture_key f)
        by (intros f0 H0; exists f0; auto).
      destruct (truthy_page p) as [z|];
        [destruct (existsb (Z.eqb z) (fu_pages g))|]; try (left; apply Hg; exact Hf).
      destruct Hf as [<-|Hf]; [|left; apply Hg; right; exact Hf].
      left. exists g. split; [left; reflexivity|reflexivity].
    + destruct Hf as [<-|Hf]; [left; exists g; split; [left|]; reflexivity|].
      destruct (IH ty t p f Hf) as [(g' & H1 & H2)|H]; [|right; exact H].
      left. exists g'. split; [right; exact H1|exact H2].
Qed.

Lemma furniture_add_complete : forall fm ty t p,
  (exists f, In f (furniture_add fm ty t p) /\ furniture_key f = (ty, t) /\
     forall z, truthy_page p = Some z -> In z (fu_pages f)) /\
  (forall g, In g fm -> exists f, In f (furniture_add fm ty t p) /\
     furniture_key f = furniture_key g /\ incl (fu_pages g) (fu_pages f)).
Proof.
  induction fm as [|g fm IH]; intros ty t p; simpl.
  - split; [|intros g []].
    eexists. split; [left; reflexivity|]. split; [reflexivity|].
    intros z Hz. rewrite Hz. left. reflexivity.
  - destruct (furniture_type_eqb (fu_type g) ty && String.eqb (fu_text g) t) eqn:E.
    + apply furniture_key_eqb in E.
      destruct (truthy_page p) as [z|] eqn:Ez;
        [destruct (existsb (Z.eqb z) (fu_pages g)) eqn:Ex|].
      * split.
        -- exists g. split; [left; reflexivity|]. split; [exact E|].
           intros z' Hz'. injection Hz' as <-. apply existsb_exists in Ex.
           destruct Ex as (y & Hy & Ey). apply Z.eqb_eq in Ey. subst y. exact Hy.
        -- intros g' Hg'. exists g'. split; [exact Hg'|]. split; [reflexivity|apply incl_refl].
      * split.
        -- eexists. split; [left; reflexivity|]. split; [exact E|].
           intros z' Hz'. injection Hz' as <-. simpl. apply in_or_app. right. left. reflexivity.
        -- intros g' [<-|Hg'].
           ++ eexists. split; [left; reflexivity|]. split; [reflexivity|].
              simpl. apply incl_appl, incl_refl.
           ++ exists g'. split; [right; exact Hg'|]. split; [reflexivity|apply incl_refl].
      * split.
        -- exists g. split; [left; reflexivity|]. split; [exact E|]. discriminate.
        -- intros g' Hg'. exists g'. split; [exact Hg'|]. split; [reflexivity|apply incl_refl].
    + destruct (IH ty t p) as [(f & H1 & H2 & H3) H4]. split.
      * exists f. split; [right; exact H1|]. auto.
      * intros g' [<-|Hg'].
        -- exists g. split; [left; reflexivity|]. split; [reflexivity|apply incl_refl].
        -- destruct (H4 g' Hg') as (f' & F1 & F2 & F3). exists f'. split; [right; exact F1|]. auto.
Qed.

Lemma extract_content_furniture fi st item d page text :
  ex_furniture (extract_content fi st item d page text) = ex_furniture st.
Proof.
  unfold extract_content.
  destruct (di_label item); try destruct (convert_table item page);
    try destruct (nonblank text); reflexivity.
Qed.

Lemma strip_nonblank text : nonblank text = true -> strip_str text <> ""%string.
Proof.
  unfold nonblank, strip_str. destruct (py_strip (chars text)); [discriminate|].
  intros _. simpl. discriminate.
Qed.

Lemma furniture_inv_content done fur item d :
  furniture_inv done fur ->
  ~ ((di_label item = LPageHeader \/ di_label item = LPageFooter) /\
     nonblank (get_text (di_text item)) = true) ->
  furniture_inv (done ++ [(item, d)]) fur.
Proof.
  intros (I1 & I2 & I3) Hn. split; [exact I1|]. split.
  - intros f Hf. destruct (I2 f Hf) as (Hok & it & d' & Hin & E1 & E2).
    split; [exact Hok|]. exists it, d'. split; [apply in_or_app; left; exact Hin|]. auto.
  - intros it d' Hin Hl Hb. apply in_app_or in Hin. destruct Hin as [Hin|[E|[]]].
    + exact (I3 it d' Hin Hl Hb).
    + injection E as -> ->. exfalso. apply Hn. auto.
Qed.

Lemma furniture_inv_add done fur item d ty :
  furniture_inv done fur ->
  furniture_label ty = di_label item ->
  nonblank (get_text (di_text item)) = true ->
  furniture_inv (done ++ [(item, d)])
    (furniture_add fur ty (strip_str (get_text (di_text item))) (get_page_number item)).
Proof.
  intros (I1 & I2 & I3) Hl Hb.
  destruct (furniture_add_complete fur ty (strip_str (get_text (di_text item)))
              (get_page_number item)) as [C1 C2].
  split; [apply furniture_add_nodup; exact I1|]. split.
  - intros f Hf. split.
    + refine (furniture_add_ok fur ty _ _ (strip_nonblank _ Hb) _ f Hf).
      intros g Hg. apply (I2 g Hg).
    + destruct (furniture_add_sound _ _ _ _ _ Hf) as [(g & Hg & Ek)|Ek].
      * destruct (I2 g Hg) as (_ & it & d' & Hin & E1 & E2).
        unfold furniture_key in Ek. injection Ek as Et Ex.
        exists it, d'. split; [apply in_or_app; left; exact Hin|].
        rewrite <- Et, <- Ex. auto.
      * unfold furniture_key in Ek. injection Ek as -> ->.
        exists item, d. split; [apply in_or_app; right; left; reflexivity|]. auto.
  - intros it d' Hin Hl' Hb'. apply in_app_or in Hin. destruct Hin as [Hin|[E|[]]].
    + destruct (I3 it d' Hin Hl' Hb') as (g & Hg & E1 & E2 & E3).
      destruct (C2 g Hg) as (f & Hf & Ek & Hinc).
      unfold furniture_key in Ek. injection Ek as Et Ex.
      exists f. split; [exact Hf|]. rewrite Et, Ex. split; [exact E1|]. split; [exact E2|].
      intros p Hp. apply Hinc. apply E3. exact Hp.
    + injection E as -> ->. destruct C1 as (f & Hf & Ek & Hp).
      unfold furniture_key in Ek. injection Ek as Et Ex.
      exists f. split; [exact Hf|]. rewrite Et. auto.
Qed.

Lemma furniture_inv_step fi done st item d :
  furniture_inv done (ex_furniture st) ->
  furniture_inv (done ++ [(item, d)]) (ex_furniture (extract_step fi st (item, d))).
Proof.
  intros H. unfold extract_step.
  destruct (di_label item) eqn:El;
    try (rewrite extract_content_furniture; apply furniture_inv_content; [exact H|];
         rewrite El; intros [[E|E] _]; discriminate).
  - destruct (nonblank (get_text (di_text item))) eqn:Eb.
    + apply furniture_inv_add; [exact H|rewrite El; reflexivity|exact Eb].
    + rewrite extract_content_furniture. apply furniture_inv_content; [exact H|].
      intros [_ E]. congruence.
  - destruct (nonblank (get_text (di_text item))) eqn:Eb.
    + apply furniture_inv_add; [exact H|rewrite El; reflexivity|exact Eb].
    + rewrite extract_content_furniture. apply furniture_inv_content; [exact H|].
      intros [_ E]. congruence.
Qed.

Lemma furniture_inv_fold fi : forall items done st,
  furniture_inv done (ex_furniture st) ->
  furniture_inv (done ++ items) (ex_furniture (fold_left (extract_step fi) items st)).
Proof.
  induction items as [|[item d] items IH]; intros done st H; simpl.
  - rewrite app_nil_r. exact H.
  - replace (done ++ (item, d) :: items) with ((done ++ [(item, d)]) ++ items)
      by (rewrite <- app_assoc; reflexivity).
    apply IH. apply furniture_inv_step. exact H.
Qed.

(** The furniture of [_extract_elements] has one entry per (type, text)
    key; each entry has a non-empty text and distinct, non-zero pages and
    comes from a page header or footer of the document with that stripped
    text; and every page header or footer with a non-blank text is
    recorded under its stripped text, with its page when it has a truthy
    one. *)
Theorem extract_furniture (fi : doc_item -> option Z -> option string * option Q * option Q)
    (items : list (doc_item * Z)) :
  let '(_, furniture, _) := extract_elements fi items in
  NoDup (map furniture_key furniture) /\
  (forall f, In f furniture ->
     fu_text f <> ""%string /\ NoDup (fu_pages f) /\ ~ In 0%Z (fu_pages f) /\
     exists item d, In (item, d) items /\ furniture_label (fu_type f) = di_label item /\
       strip_str (get_text (di_text item)) = fu_text f) /\
  (forall item d, In (item, d) items ->
     (di_label item = LPageHeader \/ di_label item = LPageFooter) ->
     nonblank (get_text (di_text item)) = true ->
     exists f, In f furniture /\ furniture_label (fu_type f) = di_label item /\
       fu_text f = strip_str (get_text (di_text item)) /\
       forall p, truthy_page (get_page_number item) = Some p -> In p (fu_pages f)).
Proof.
  unfold extract_elements.
  assert (H0 : furniture_inv [] (ex_furniture (mk_extract_state [] [] false))).
  { split; [constructor|]. split; [intros f []|intros item d []]. }
  destruct (furniture_inv_fold fi items [] _ H0) as (I1 & I2 & I3).
  split; [exact I1|]. split; [|exact I3].
  intros f Hf. destruct (I2 f Hf) as ((T1 & T2 & T3) & R). auto.
Qed.

(** ** List grouping keeps every other block *)

Lemma group_loop_filter : forall xs pending,
  forallb (fun b => negb (is_pending_block b)) (group_loop [] pending xs) = true /\
  filter (fun b => negb (is_list_block b)) (group_loop [] pending xs) =
  filter (fun b => negb (is_pending_block b) && negb (is_list_block b)) xs.
Proof.
  assert (Hf : forall pending,
             forallb (fun b => negb (is_pending_block b)) (flush_pending [] pending) = true /\
             filter (fun b => negb (is_list_block b)) (flush_pending [] pending) = []).
  { intros [|p ps]; split; reflexivity. }
  induction xs as [|x xs IH]; intros pending; [apply Hf|].
  destruct (is_pending_block x) eqn:Ex.
  - destruct x; try discriminate. simpl. apply IH.
  - rewrite group_loop_other by exact Ex.
    destruct (Hf pending) as [F1 F2]. destruct (IH []) as [I1 I2].
    rewrite forallb_app, filter_app, F1, F2. simpl. rewrite Ex, I1. split; [reflexivity|].
    destruct (is_list_block x); simpl; rewrite I2; reflexivity.
Qed.

(** [_group_list_items] leaves no pending list item, and apart from the
    [ListBlock]s it adds, keeps every other block in order: removing the
    lists from its output gives its input without pending items and
    lists. *)
Theorem group_list_items_keeps_blocks (xs : list block) :
  forallb (fun b => negb (is_pending_block b)) (group_list_items xs) = true /\
  filter (fun b => negb (is_list_block b)) (group_list_items xs) =
  filter (fun b => negb (is_pending_block b) && negb (is_list_block b)) xs.
Proof. apply group_loop_filter. Qed.

(** ** The passes of [_build_ir] *)

Lemma flat_ok_heading h ch : flat_block (HeadingB h ch) = true -> ch = [].
Proof. destruct ch; [reflexivity|discriminate]. Qed.

Lemma split_flat_ok is_bullet xs :
  (forall b, In b xs -> flat_block b = true /\ conf_ok b) ->
  forall b, In b (split_compound_headings is_bullet xs) -> flat_block b = true /\ conf_ok b.
Proof.
  intros Hx b Hb. unfold split_compound_headings in Hb. apply in_flat_map in Hb.
  destruct Hb as (el & Hel & Hb). destruct (Hx el Hel) as [F C].
  destruct el as [h ch| | | | | |]; simpl in Hb;
    try (destruct Hb as [<-|[]]; split; [exact F|exact C]).
  apply flat_ok_heading in F. subst ch.
  destruct (re_search _ (chars (h_text h))) as [[p0 p1]|];
    [|destruct Hb as [<-|[]]; split; [reflexivity|exact C]].
  destruct Hb as [<-|[<-|[]]].
  - split; [reflexivity|]. simpl. rewrite py_min_Qmin.
    apply Qmin_unit; [exact C|split; unfold Qle; simpl; lia].
  - split; [reflexivity|exact I].
Qed.

Lemma promote_par_flat_ok xs :
  (forall b, In b xs -> flat_block b = true /\ conf_ok b) ->
  forall b, In b (promote_numbered_paragraphs xs) -> flat_block b = true /\ conf_ok b.
Proof.
  intros Hx b Hb. unfold promote_numbered_paragraphs in Hb. apply in_map_iff in Hb.
  destruct Hb as (el & <- & Hel). destruct (Hx el Hel) as [F C].
  destruct el as [| p | | | | |]; unfold promote_numbered_paragraph; try (split; assumption).
  destruct (multi_level_parts (p_text p)) as [n|]; [|split; assumption].
  destruct (3 <=? n); [|destruct (String.length (p_text p) <? 120)];
    try (split; assumption); (split; [reflexivity|split; unfold Qle; simpl; lia]).
Qed.

Lemma promote_li_flat_ok xs :
  (forall b, In b xs -> flat_block b = true /\ conf_ok b) ->
  forall b, In b (promote_numbered_list_items xs) -> flat_block b = true /\ conf_ok b.
Proof.
  intros Hx b Hb. unfold promote_numbered_list_items in Hb. apply in_map_iff in Hb.
  destruct Hb as (el & <- & Hel). destruct (Hx el Hel) as [F C].
  destruct el as [| | | | | | p]; unfold promote_numbered_list_item; try (split; assumption).
  destruct (multi_level_parts (pi_text p)) as [n|]; [|split; assumption].
  destruct (3 <=? n); [|destruct (String.length (pi_text p) <? 120)];
    try (split; assumption); (split; [reflexivity|split; unfold Qle; simpl; lia]).
Qed.

Lemma resolve_loop_members off : forall xs st b,
  In b (resolve_loop off st xs) ->
  (is_heading_block b = false /\ In b xs) \/
  exists h ch h', b = HeadingB h' ch /\ In (HeadingB h ch) xs.
Proof.
  induction xs as [|x xs IH]; intros st b Hb; [destruct Hb|].
  destruct x as [h ch| | | | | |]; simpl in Hb;
    try (destruct Hb as [<-|Hb];
         [left; split; [reflexivity|left; reflexivity]|
          destruct (IH _ _ Hb) as [[E H]|(h1 & ch1 & h' & E & H)];
          [left; split; [exact E|right; exact H]|right; exists h1, ch1, h'; split; [exact E|right; exact H]]]).
  destruct (resolve_heading off st h) as [h' st'].
  destruct Hb as [<-|Hb].
  - right. exists h, ch, h'. split; [reflexivity|left; reflexivity].
  - destruct (IH _ _ Hb) as [[E H]|(h1 & ch1 & h'' & E & H)].
    + left. split; [exact E|right; exact H].
    + right. exists h1, ch1, h''. split; [exact E|right; exact H].
Qed.

Lemma group_loop_members : forall xs pending b,
  In b (group_loop [] pending xs) ->
  (In b xs /\ is_pending_block b = false) \/ is_list_block b = true.
Proof.
  assert (Hf : forall pending b, In b (flush_pending [] pending) -> is_list_block b = true).
  { intros [|p ps] b Hb; [destruct Hb|]. destruct Hb as [<-|[]]. reflexivity. }
  induction xs as [|x xs IH]; intros pending b Hb; [right; exact (Hf _ _ Hb)|].
  destruct (is_pending_block x) eqn:Ex.
  - destruct x; try discriminate. simpl in Hb.
    destruct (IH _ _ Hb) as [[H1 H2]|H]; [left; split; [right; exact H1|exact H2]|right; exact H].
  - rewrite group_loop_other in Hb by exact Ex.
    apply in_app_or in Hb. destruct Hb as [Hb|[<-|Hb]].
    + right. exact (Hf _ _ Hb).
    + left. split; [left; reflexivity|exact Ex].
    + destruct (IH _ _ Hb) as [[H1 H2]|H]; [left; split; [right; exact H1|exact H2]|right; exact H].
Qed.

Lemma subtrees_in_preorder : forall x b,
  In b (subtrees_block x) -> is_heading_block b = true \/ In b (preorder_block x).
Proof.
  apply (block_nested_ind (fun x => forall b,
           In b (subtrees_block x) -> is_heading_block b = true \/ In b (preorder_block x))).
  - intros h ch Hch b Hb. rewrite subtrees_heading in Hb. destruct Hb as [<-|Hb]; [left; reflexivity|].
    unfold subtrees in Hb. apply in_flat_map in Hb. destruct Hb as (c & Hc & Hb).
    rewrite Forall_forall in Hch. destruct (Hch c Hc b Hb) as [H|H]; [left; exact H|].
    right. rewrite preorder_heading. right. unfold preorder. apply in_flat_map. eauto.
  - intros x Hx b Hb. rewrite subtrees_other in Hb by exact Hx.
    rewrite preorder_other by exact Hx. right. exact Hb.
Qed.

Lemma subtrees_nest_members l :
  forallb flat_block l = true ->
  forall b, In b (subtrees (nest_by_level l)) ->
  (exists h ch, b = HeadingB h ch /\ In (HeadingB h []) l) \/
  (is_heading_block b = false /\ In b l).
Proof.
  intros Hf b Hb.
  destruct b as [h ch| | | | | |] eqn:Eb; [left|..];
    try (right; split; [reflexivity|];
         unfold subtrees in Hb; apply in_flat_map in Hb; destruct Hb as (x & Hx & Hb);
         destruct (subtrees_in_preorder x _ Hb) as [H|H]; [discriminate|];
         rewrite <- (preorder_nest (length l) l (le_n _) Hf);
         unfold preorder; apply in_flat_map; exists x; split; assumption).
  destruct (nest_nodes (length l) l (le_n _) Hf h ch Hb) as (pre & post & E & _).
  exists h, ch. split; [reflexivity|]. rewrite E. apply in_or_app. right. left. reflexivity.
Qed.

(** Every heading anywhere in the body [_build_ir] returns has a level in
    [1, 9] and a confidence in [0, 1], the bounds the [HeadingBlock] schema
    declares, and no pending list item is left anywhere in the body. *)
Theorem build_ir_body_valid (is_bullet : ascii -> bool)
    (fi : doc_item -> option Z -> option string * option Q * option Q)
    (doc_title : option string) (items : list (doc_item * Z)) :
  let '(_, body, _) := build_ir is_bullet fi doc_title items in
  (forall h ch, In (HeadingB h ch) (subtrees body) ->
     (1 <= h_level h <= 9)%Z /\ (0 <= h_confidence h <= 1)%Q) /\
  (forall b, In b (subtrees body) -> is_pending_block b = false).
Proof.
  unfold build_ir.
  destruct (extract_elements fi items) as [[E furn] hp] eqn:Ex.
  assert (HE : forall b, In b E -> flat_block b = true /\ conf_ok b).
  { unfold extract_elements in Ex. injection Ex as HEl _ _.
    intros b Hb. rewrite <- HEl in Hb.
    pose proof (proj1 (extract_fold_inv fi items (mk_extract_state [] [] false)
                         (fun b H => match H with end)) b Hb) as Hx.
    destruct b as [h ch| | | | | |]; simpl in Hx |- *; try (split; [reflexivity|exact I]);
      try contradiction.
    destruct Hx as (-> & _ & -> & _). split; [reflexivity|split; unfold Qle; simpl; lia]. }
  unfold build_body.
  pose proof (promote_li_flat_ok _ (promote_par_flat_ok _ (split_flat_ok is_bullet _ HE))) as HP.
  set (P := promote_numbered_list_items _) in *.
  set (R := resolve_heading_levels P hp).
  assert (HRh : forall h ch, In (HeadingB h ch) R ->
                  (1 <= h_level h <= 9)%Z /\ (0 <= h_confidence h <= 1)%Q).
  { intros h ch Hh.
    refine (match resolve_loop_bounds (if hp then 1%Z else 0%Z) P (mk_resolve_state false 2%Z)
                    _ _ _ h ch Hh with conj A (conj B _) => conj A B end).
    - destruct hp; lia.
    - simpl. lia.
    - intros h1 ch1 H1. exact (proj2 (HP _ H1)). }
  assert (HRf : forall b, In b R -> flat_block b = true).
  { intros b Hb. destruct (resolve_loop_members _ P _ b Hb) as [[_ H]|(h & ch & h' & -> & H)].
    - exact (proj1 (HP b H)).
    - pose proof (proj1 (HP _ H)) as F. apply flat_ok_heading in F. subst ch. reflexivity. }
  set (G := group_list_items R).
  assert (HG : forall b, In b G ->
                 (In b R /\ is_pending_block b = false) \/ is_list_block b = true)
    by (intros b Hb; exact (group_loop_members R [] b Hb)).
  assert (HGf : forallb flat_block G = true).
  { apply forallb_forall. intros b Hb. destruct (HG b Hb) as [[H _]|H]; [exact (HRf b H)|].
    destruct b; try discriminate. reflexivity. }
  rewrite build_nest. split.
  - intros h ch Hh.
    destruct (subtrees_nest_members G HGf _ Hh) as [(h1 & ch1 & E1 & Hin)|[Hn _]];
      [|discriminate].
    injection E1 as <- <-.
    destruct (HG _ Hin) as [[H _]|H]; [exact (HRh h [] H)|discriminate].
  - intros b Hb.
    destruct (subtrees_nest_members G HGf _ Hb) as [(h1 & ch1 & -> & _)|[_ Hin]];
      [reflexivity|].
    destruct (HG _ Hin) as [[_ H]|H]; [exact H|]. destruct b; try discriminate. reflexivity.
Qed.

Lemma first_heading_nest : forall xs,
  first_heading_text (nest_by_level xs) = first_heading_text xs.
Proof.
  induction xs as [|x xs IH]; [reflexivity|].
  destruct x as [h ch| | | | | |];
    try (rewrite nest_other by reflexivity; exact IH).
  destruct (span_below (h_level h) xs) as [k rest] eqn:E.
  rewrite (nest_heading h ch xs k rest E). reflexivity.
Qed.

(** [_get_title] on the heading tree gives what it gives on the flat
    element sequence: the document title when it is non-empty, otherwise
    the text of the first heading of the sequence (the tree builder never
    nests the first heading), otherwise the empty string. *)
Theorem get_title_tree (doc_title : option string) (xs : list block) :
  get_title doc_title (build_heading_tree xs) = get_title doc_title xs.
Proof.
  unfold get_title. rewrite build_nest, first_heading_nest. reflexivity.
Qed.

(** ** DataFrame tables *)

Lemma enumerate_from_in {A} : forall (l : list A) k i x,
  In (i, x) (enumerate_from k l) ->
  (k <= i < k + Z.of_nat (length l))%Z /\ In x l.
Proof.
  induction l as [|a l IH]; intros k i x H; [destruct H|].
  destruct H as [E|H].
  - injection E as <- <-. split; [simpl length; lia|left; reflexivity].
  - destruct (IH _ _ _ H) as [H1 H2]. split; [simpl length; lia|right; exact H2].
Qed.

(** [_convert_table_dataframe]: when the export succeeds with at least
    one data row, all rows having one value per column, the table has one
    column per DataFrame column and one row per data row, plus a header
    row when the column labels are not all integers, and every cell lies
    in that grid; when the export has no data row but named columns, the
    header cells are kept while [num_cols] is 0; when the export fails,
    the table is one cell holding the item's text, or no table when that
    text is empty. *)
Theorem convert_table_dataframe_shape (item : doc_item) (page : option Z) :
  (forall df, di_dataframe item = Some df -> df_rows df <> [] ->
   (forall row, In row (df_rows df) -> length row = length (df_columns df)) ->
   exists t, convert_table_dataframe item page = Some t /\
     t_num_cols t = Z.of_nat (length (df_columns df)) /\
     t_num_rows t = (Z.of_nat (length (df_rows df)) +
                     if forallb col_is_int (df_columns df) then 0 else 1)%Z /\
     forall c, In c (t_cells t) ->
       (0 <= c_row c)%Z /\ (c_row c + c_row_span c <= t_num_rows t)%Z /\
       (0 <= c_col c)%Z /\ (c_col c + c_col_span c <= t_num_cols t)%Z) /\
  (forall df, di_dataframe item = Some df -> df_rows df = [] ->
   forallb col_is_int (df_columns df) = false ->
   exists t, convert_table_dataframe item page = Some t /\
     t_num_rows t = 1%Z /\ t_num_cols t = 0%Z /\
     length (t_cells t) = length (df_columns df) /\ t_cells t <> []) /\
  (di_dataframe item = None ->
   convert_table_dataframe item page =
   if String.eqb (get_text (di_text item)) "" then None
   else Some (mk_table page 1 1 [mk_table_cell 0 0 1 1 (get_text (di_text item)) []])).
Proof.
  unfold convert_table_dataframe. split; [|split].
  - intros df Hdf Hne Hlen. rewrite Hdf.
    eexists. split; [reflexivity|]. simpl.
    assert (Hn : (0 <? Z.of_nat (length (df_rows df)))%Z = true).
    { apply Z.ltb_lt. destruct (df_rows df); [congruence|simpl length; lia]. }
    rewrite Hn. split; [reflexivity|]. split; [reflexivity|].
    intros c Hc. apply in_app_or in Hc. destruct Hc as [Hc|Hc].
    + destruct (forallb col_is_int (df_columns df)); [destruct Hc|].
      apply in_map_iff in Hc. destruct Hc as ([i x] & <- & Hi).
      apply enumerate_from_in in Hi. simpl. lia.
    + apply in_flat_map in Hc. destruct Hc as ([ri row] & Hr & Hc).
      apply in_map_iff in Hc. destruct Hc as ([ci v] & <- & Hci).
      apply enumerate_from_in in Hr. destruct Hr as [Hr Hrow].
      apply enumerate_from_in in Hci. destruct Hci as [Hci _].
      rewrite (Hlen row Hrow) in Hci. simpl.
      destruct (forallb col_is_int (df_columns df)); lia.
  - intros df Hdf Hnil Hauto. rewrite Hdf, Hnil, Hauto.
    eexists. split; [reflexivity|]. simpl.
    split; [reflexivity|]. split; [reflexivity|].
    rewrite app_nil_r, length_map.
    assert (Hl : forall k (l : list df_col), length (enumerate_from k l) = length l)
      by (intros k l; revert k; induction l; intros k; simpl; [reflexivity|rewrite IHl; reflexivity]).
    rewrite Hl. split; [reflexivity|].
    destruct (df_columns df); [discriminate|]. simpl. discriminate.
  - intros ->. reflexivity.
Qed.

(** ** The conversion report *)

Lemma walk_block_heading h ch rp :
  walk_block (HeadingB h ch) rp = walk_blocks ch (count_block rp (HeadingB h ch)).
Proof.
  cbn [walk_block]. generalize (count_block rp (HeadingB h ch)) as r0.
  induction ch as [|c ch IH]; intros r0; [reflexivity|]. apply IH.
Qed.

Lemma walk_block_preorder : forall b rp,
  walk_block b rp = fold_left count_block (preorder_block b) rp.
Proof.
  apply (block_nested_ind (fun b => forall rp,
           walk_block b rp = fold_left count_block (preorder_block b) rp)).
  - intros h ch Hch rp. rewrite walk_block_heading, preorder_heading.
    change (count_block rp (HeadingB h ch)) with (count_block rp (HeadingB h [])).
    change (fold_left count_block (HeadingB h [] :: preorder ch) rp)
      with (fold_left count_block (preorder ch) (count_block rp (HeadingB h []))).
    generalize (count_block rp (HeadingB h [])) as r0.
    induction Hch as [|c l Hc Hl IH]; intros r0; [reflexivity|].
    unfold walk_blocks in *. simpl. rewrite Hc, IH.
    unfold preorder. simpl. rewrite fold_left_app. reflexivity.
  - intros b Hb rp. rewrite preorder_other by exact Hb.
    destruct b; try discriminate; reflexivity.
Qed.

Lemma walk_blocks_preorder : forall l rp,
  walk_blocks l rp = fold_left count_block (preorder l) rp.
Proof.
  induction l as [|b l IH]; intros rp; [reflexivity|].
  unfold walk_blocks in *. simpl. rewrite IH, walk_block_preorder.
  unfold preorder. simpl. rewrite fold_left_app. reflexivity.
Qed.

Lemma dict_get_incr : forall dd k k',
  dict_get (dict_incr dd k) k' = dict_get dd k' + (if (k =? k')%Z then 1 else 0).
Proof.
  induction dd as [|[k0 v] dd IH]; intros k k'; simpl.
  - destruct (k =? k')%Z; reflexivity.
  - destruct (k0 =? k)%Z eqn:E1; simpl.
    + apply Z.eqb_eq in E1. subst k0. destruct (k =? k')%Z; lia.
    + destruct (k0 =? k')%Z eqn:E2.
      * apply Z.eqb_eq in E2. subst k0. rewrite Z.eqb_sym, E1. lia.
      * apply IH.
Qed.

Lemma dict_incr_keys : forall dd k,
  map fst (dict_incr dd k) = if existsb (fun e => (fst e =? k)%Z) dd then map fst dd
                            else map fst dd ++ [k].
Proof.
  induction dd as [|[k0 v] dd IH]; intros k; [reflexivity|].
  simpl. destruct (k0 =? k)%Z; simpl; [reflexivity|].
  rewrite IH. destruct (existsb _ dd); reflexivity.
Qed.

Lemma dict_incr_nodup dd k : NoDup (map fst dd) -> NoDup (map fst (dict_incr dd k)).
Proof.
  intros H. rewrite dict_incr_keys. destruct (existsb _ dd) eqn:E; [exact H|].
  apply NoDup_app; [exact H|constructor; [intros []|constructor]|].
  intros x Hx [<-|[]]. apply in_map_iff in Hx. destruct Hx as ([k0 v] & <- & Hin).
  assert (existsb (fun e => (fst e =? fst (k0, v))%Z) dd = true)
    by (apply existsb_exists; exists (k0, v); split; [exact Hin|apply Z.eqb_refl]).
  congruence.
Qed.

Lemma dict_incr_sum : forall dd k,
  list_sum (map snd (dict_incr dd k)) = S (list_sum (map snd dd)).
Proof.
  induction dd as [|[k0 v] dd IH]; intros k; [reflexivity|].
  simpl. destruct (k0 =? k)%Z; simpl; [reflexivity|]. rewrite IH. lia.
Qed.

Lemma count_fold : forall L rp,
  let rp' := fold_left count_block L rp in
  rp_heading_count rp' = rp_heading_count rp + length (block_headings L) /\
  rp_low_confidence_threshold rp' = rp_low_confidence_threshold rp /\
  (NoDup (map fst (rp_headings_by_level rp)) -> NoDup (map fst (rp_headings_by_level rp'))) /\
  (forall k, dict_get (rp_headings_by_level rp') k =
             dict_get (rp_headings_by_level rp) k +
             length (filter (fun h => (h_level h =? k)%Z) (block_headings L))) /\
  list_sum (map snd (rp_headings_by_level rp')) =
    list_sum (map snd (rp_headings_by_level rp)) + length (block_headings L) /\
  rp_low_confidence_items rp' =
    rp_low_confidence_items rp ++
    map to_low_item (filter (fun h => py_lt (h_confidence h) (rp_low_confidence_threshold rp))
                      (block_headings L)) /\
  rp_paragraph_count rp' = rp_paragraph_count rp +
    length (filter (fun b => match b with ParagraphB _ => true | _ => false end) L) /\
  rp_table_count rp' = rp_table_count rp +
    length (filter (fun b => match b with TableB _ => true | _ => false end) L) /\
  rp_figure_count rp' = rp_figure_count rp +
    length (filter (fun b => match b with FigureB _ => true | _ => false end) L) /\
  rp_list_count rp' = rp_list_count rp +
    length (filter (fun b => match b with ListB _ => true | _ => false end) L).
Proof.
  induction L as [|b L IH]; intros rp; simpl.
  - rewrite !Nat.add_0_r, app_nil_r. repeat split; auto.
  - destruct (IH (count_block rp b)) as (H1 & H2 & H3 & H4 & H5 & H6 & H7 & H8 & H9 & H10).
    destruct b as [h ch| | | | | |]; simpl in *;
      rewrite ?H1, ?H2, ?H3, ?H4, ?H5, ?H6, ?H7, ?H8, ?H9, ?H10; cbn [length];
      try (repeat split; auto; lia).
    repeat split.
    + lia.
    + intros Hn. apply H3. apply dict_incr_nodup. exact Hn.
    + intros k. rewrite ?H4, dict_get_incr. destruct (h_level h =? k)%Z; simpl; lia.
    + rewrite ?H5, dict_incr_sum. lia.
    + rewrite ?H6. destruct (py_lt (h_confidence h) (rp_low_confidence_threshold rp));
        simpl; try rewrite <- app_assoc; reflexivity.
Qed.

(** [ConversionReport.from_ir] counts each heading of the tree once
    ([heading_count] is the number of headings in the pre-order of the
    body), records in [headings_by_level] one entry per level with the
    number of headings at that level (so its values add up to
    [heading_count]), lists as low-confidence items exactly the headings
    below the threshold, in document order, and counts the paragraphs,
    tables, figures and lists at every depth. *)
Theorem report_from_ir_counts (thr : Q) (body : list block) :
  let rp := report_from_ir thr body in
  let hs := block_headings (preorder body) in
  rp_heading_count rp = length hs /\
  NoDup (map fst (rp_headings_by_level rp)) /\
  (forall k, dict_get (rp_headings_by_level rp) k =
             length (filter (fun h => (h_level h =? k)%Z) hs)) /\
  list_sum (map snd (rp_headings_by_level rp)) = rp_heading_count rp /\
  rp_low_confidence_items rp =
    map to_low_item (filter (fun h => py_lt (h_confidence h) thr) hs) /\
  rp_paragraph_count rp =
    length (filter (fun b => match b with ParagraphB _ => true | _ => false end) (preorder body)) /\
  rp_table_count rp =
    length (filter (fun b => match b with TableB _ => true | _ => false end) (preorder body)) /\
  rp_figure_count rp =
    length (filter (fun b => match b with FigureB _ => true | _ => false end) (preorder body)) /\
  rp_list_count rp =
    length (filter (fun b => match b with ListB _ => true | _ => false end) (preorder body)).
Proof.
  unfold report_from_ir. rewrite walk_blocks_preorder.
  destruct (count_fold (preorder body) (mk_report 0 0 0 0 0 [] thr []))
    as (H1 & H2 & H3 & H4 & H5 & H6 & H7 & H8 & H9 & H10).
  simpl in *. repeat split; auto.
  - apply H3. constructor.
  - rewrite H5, H1. reflexivity.
Qed.

(** Building the heading tree does not change the report: on a flat
    element sequence, [from_ir] gives the same report for the tree as for
    the sequence. *)
Theorem report_tree_flat (thr : Q) (xs : list block) :
  forallb flat_block xs = true ->
  report_from_ir thr (build_heading_tree xs) = report_from_ir thr xs.
Proof.
  intros Hf. unfold report_from_ir. rewrite !walk_blocks_preorder, build_nest.
  rewrite (preorder_nest (length xs) xs (le_n _) Hf).
  f_equal. symmetry. induction xs as [|x xs IH]; [reflexivity|].
  simpl in Hf. apply andb_true_iff in Hf. destruct Hf as [Hx Hf].
  unfold preorder in *. simpl. rewrite (IH Hf).
  destruct x as [h ch| | | | | |]; try reflexivity.
  apply flat_ok_heading in Hx. subst ch. reflexivity.
Qed.

Lemma report_tree_flat_witness :
  forallb flat_block [HeadingB (mk_heading None 1%Z "A" [] (1 # 2) None) [];
                      ParagraphB (mk_paragraph None "p" [])] = true /\ report_from_ir (7 # 10)
    (build_heading_tree [HeadingB (mk_heading None 1%Z "A" [] (1 # 2) None) [];
                         ParagraphB (mk_paragraph None "p" [])]) =
  report_from_ir (7 # 10) [HeadingB (mk_heading None 1%Z "A" [] (1 # 2) None) [];
                           ParagraphB (mk_paragraph None "p" [])].
Proof.
  split; [reflexivity|]. apply report_tree_flat. reflexivity.
Defined.

(** ** The Word renderer *)

Lemma render_block_pre pct c : forall b,
  render_block pct c b = render_body pct c (preorder_block b).
Proof.
  apply block_nested_ind.
  - intros h ch Hch. rewrite preorder_heading. simpl. f_equal.
    induction Hch as [|b l Hb Hl IH]; [reflexivity|].
    simpl. rewrite Hb, IH. unfold render_body, preorder.
    simpl. rewrite flat_map_app. reflexivity.
  - intros b Hb. rewrite preorder_other by exact Hb.
    unfold render_body. simpl. rewrite app_nil_r. reflexivity.
Qed.

Lemma render_body_pre pct c body :
  render_body pct c body = render_body pct c (preorder body).
Proof.
  induction body as [|b l IH]; [reflexivity|].
  unfold render_body, preorder in *. simpl.
  rewrite flat_map_app, <- IH. f_equal. apply render_block_pre.
Qed.

Lemma preorder_flat xs : forallb flat_block xs = true -> preorder xs = xs.
Proof.
  induction xs as [|x xs IH]; intros Hf; [reflexivity|].
  simpl in Hf. apply andb_true_iff in Hf. destruct Hf as [Hx Hf].
  unfold preorder in *. simpl. rewrite (IH Hf).
  destruct x as [h ch| | | | | |]; try reflexivity.
  apply flat_ok_heading in Hx. subst ch. reflexivity.
Qed.

(** [generate_document] writes a heading tree as it writes its pre-order:
    each heading's paragraph, then its children's, in document order, so
    nesting never reorders, drops or repeats a block. *)
Theorem render_body_preorder (pct : Q -> string) (c : style_config) (body : list block) :
  render_body pct c body = render_body pct c (preorder body).
Proof. apply render_body_pre. Qed.

(** On a flat element sequence, the Word body rendered from the heading
    tree [_build_heading_tree] builds is the body rendered from the
    sequence itself. *)
Theorem render_tree_flat (pct : Q -> string) (c : style_config) (xs : list block) :
  forallb flat_block xs = true ->
  render_body pct c (build_heading_tree xs) = render_body pct c xs.
Proof.
  intros Hf. rewrite render_body_pre, build_nest.
  rewrite (preorder_nest (length xs) xs (le_n _) Hf). reflexivity.
Qed.

Lemma render_tree_flat_witness :
  forallb flat_block [HeadingB (mk_heading None 1%Z "A" [] 1%Q None) [];
                      ParagraphB (mk_paragraph None "p" [])] = true /\
  render_body (fun _ => "x"%string)
    (mk_style_config "Heading" "Normal" "List Bullet" "List Number" "Caption"
       "Table Grid" true (7 # 10) "yellow")
    (build_heading_tree [HeadingB (mk_heading None 1%Z "A" [] 1%Q None) [];
                         ParagraphB (mk_paragraph None "p" [])]) =
  render_body (fun _ => "x"%string)
    (mk_style_config "Heading" "Normal" "List Bullet" "List Number" "Caption"
       "Table Grid" true (7 # 10) "yellow")
    [HeadingB (mk_heading None 1%Z "A" [] 1%Q None) [];
     ParagraphB (mk_paragraph None "p" [])].
Proof.
  split; [reflexivity|]. apply render_tree_flat. reflexivity.
Defined.

Lemma li_depths_ge : forall it k e, In e (li_depths k it) -> (k <= fst e)%Z.
Proof.
  apply (list_item_nested_ind (fun it => forall k e, In e (li_depths k it) -> (k <= fst e)%Z)).
  intros t rs ch Hch k e Hin. simpl in Hin. destruct Hin as [<-|Hin]; [simpl; lia|].
  induction Hch as [|c l Hc Hl IH]; [destruct Hin|].
  apply in_app_or in Hin. destruct Hin as [Hin|Hin].
  - specialize (Hc (k + 1)%Z e Hin). lia.
  - exact (IH Hin).
Qed.

Lemma render_list_item_depths c o mf : forall it k, (1 <= k)%Z ->
  render_list_item c o (Z.min k 3) mf it = map (list_para_at c o mf) (li_depths k it).
Proof.
  apply (list_item_nested_ind (fun it => forall k, (1 <= k)%Z ->
    render_list_item c o (Z.min k 3) mf it = map (list_para_at c o mf) (li_depths k it))).
  intros t rs ch Hch k Hk. simpl.
  assert (E : Z.min (Z.min k 3 + 1) 3 = Z.min (k + 1) 3) by lia.
  assert (E' : Z.max (Z.min k 3 - 1) 0 = (Z.min k 3 - 1)%Z) by lia.
  rewrite E, E'. unfold list_para_at at 1. simpl. f_equal.
  induction Hch as [|x l Hx Hl IH]; [reflexivity|].
  simpl. rewrite map_app, (Hx (k + 1)%Z) by lia. f_equal. exact IH.
Qed.

(** [_render_list] writes one paragraph per list item, in pre-order; the
    item at depth [k] (roots at 1) is rendered at level [min(k, 3)]: the
    list style with no suffix, [" 2"] or [" 3"], and [w:ilvl] 0, 1 or 2.
    Every paragraph of a list gets the same [w:numId]: 100 for a bullet
    list, 102 or 103 for a lower or upper letter marker format, 101
    otherwise. *)
Theorem render_list_shape (c : style_config) (lb : list_block) :
  let ordered := match l_style lb with Ordered => true | Unordered => false end in
  let base := if ordered then sc_list_number_style c else sc_list_bullet_style c in
  render_list c lb =
    map (list_para_at c ordered (l_marker_format lb)) (flat_map (li_depths 1) (l_items lb)) /\
  forall p, In p (render_list c lb) ->
    lp_num_id p = list_num_id ordered (l_marker_format lb) /\
    ((lp_ilvl p = 0%Z /\ lp_style p = base) \/
     (lp_ilvl p = 1%Z /\ lp_style p = (base ++ " 2")%string) \/
     (lp_ilvl p = 2%Z /\ lp_style p = (base ++ " 3")%string)).
Proof.
  intros ordered base.
  assert (Hm : render_list c lb =
    map (list_para_at c ordered (l_marker_format lb)) (flat_map (li_depths 1) (l_items lb))).
  { unfold render_list. fold ordered. induction (l_items lb) as [|it l IH]; [reflexivity|].
    simpl flat_map. rewrite map_app, IH.
    pose proof (render_list_item_depths c ordered (l_marker_format lb) it 1%Z) as H.
    change (Z.min 1 3) with 1%Z in H. rewrite H by lia. reflexivity. }
  split; [exact Hm|].
  intros p Hp. rewrite Hm in Hp. apply in_map_iff in Hp.
  destruct Hp as ([k it] & <- & Hin). apply in_flat_map in Hin.
  destruct Hin as (r & _ & Hin). apply li_depths_ge in Hin. simpl in Hin.
  unfold list_para_at, list_style_name. simpl. split; [reflexivity|].
  fold base.
  destruct (Z.min_spec k 3) as [[Hlt E]|[_ E]]; rewrite E.
  - destruct (Z.eq_dec k 1) as [->|Hn1].
    + left. split; reflexivity.
    + assert (k = 2%Z) as -> by lia. right; left. split; reflexivity.
  - right; right. split; reflexivity.
Qed.


